(** * NachOS MP4 file system: directory table and file-system facade

    A shallow embedding of [code/filesys/directory.cc] and
    [code/filesys/filesys.cc], with the properties of the directory table,
    of path resolution and of Create / Open / Remove / RecurRemoveDirectory.

    Conventions.
    - A [char *] argument is the [string] of the characters before its
      terminating NUL.
    - C [int] values that stay far from the 32-bit range (sector numbers,
      table indices, the [-1] sentinel) are [Z].
    - Console output ([printf], [cout]) is not modelled. *)

From Stdlib Require Import ZArith Lia Ascii String.
From stdpp Require Import base option list gmap strings.

Local Open Scope Z_scope.

(** Constants whose declarations ([directory.h], [disk.h]) are not among the
    sources; they are taken as parameters of the whole development. *)
Class Config := {
  (** [FileNameMaxLen]: the number of name characters compared and copied;
      the rows of [folder[10][10]] are taken to be large enough for it. *)
  FileNameMaxLen : nat;
  (** [NumSectors]: the number of sectors of the disk. *)
  NumSectors : nat;
  (** [SectorSize]: the number of bytes of a sector. *)
  SectorSize : Z;
  (** [sizeof(DirectoryEntry)]. *)
  DirectoryEntrySize : Z
}.

(** ** The C string functions the sources call *)

Module CString.

Definition code (c : ascii) : Z := Z.of_nat (nat_of_ascii c).

Definition NUL : ascii := "000"%char.

(** The characters of [s] before its first NUL: what a C function reads. *)
Fixpoint c_str (s : string) : string :=
  match s with
  | EmptyString => EmptyString
  | String c s' => if decide (c = NUL) then EmptyString else String c (c_str s')
  end.

Definition strlen (s : string) : nat := String.length (c_str s).

(** [strncpy(dst, src, n)] into a field of more than [n] bytes whose last
    byte is NUL: the field then holds the first [n] characters of [src]. *)
Fixpoint strncpy (src : string) (n : nat) {struct n} : string :=
  match n, src with
  | S n', String c src' =>
      if decide (c = NUL) then EmptyString else String c (strncpy src' n')
  | _, _ => EmptyString
  end.

(** [strncmp(a, b, n)]: [0] when the first [n] characters agree (the end of a
    string being a NUL character, at which the comparison stops), else the
    difference of the first two that differ. *)
Fixpoint strncmp (a b : string) (n : nat) {struct n} : Z :=
  match n with
  | O => 0
  | S n' =>
      match a, b with
      | EmptyString, EmptyString => 0
      | EmptyString, String cb _ => 0 - code cb
      | String ca _, EmptyString => code ca
      | String ca a', String cb b' =>
          if decide (ca = cb) then
            if decide (ca = NUL) then 0 else strncmp a' b' n'
          else code ca - code cb
      end
  end.

(** [strcpy(str, a); strcat(str, b)]. *)
Definition strcat (a b : string) : string := String.append (c_str a) (c_str b).

(** The whole [strtok(s, delim)] loop over a NUL-free [s]: the maximal runs
    of characters other than the delimiter, in order. [cur] is the token
    being read, reversed. *)
Fixpoint strtok_loop (delim : ascii) (s : string) (cur : option string)
  : list string :=
  match s with
  | EmptyString =>
      match cur with Some t => [String.rev t] | None => [] end
  | String c s' =>
      if decide (c = delim) then
        match cur with
        | Some t => String.rev t :: strtok_loop delim s' None
        | None => strtok_loop delim s' None
        end
      else
        strtok_loop delim s'
          (Some (String c (match cur with Some t => t | None => EmptyString end)))
  end.

Definition strtok_all (s : string) (delim : ascii) : list string :=
  strtok_loop delim (c_str s) None.

End CString.

(** ** directory.cc *)

Record DirectoryEntry := mkEntry {
  inUse : bool;
  isDir : bool;
  sector : Z;
  name : string
}.

Global Instance DirectoryEntry_eq_dec : EqDecision DirectoryEntry.
Proof. solve_decision. Defined.

(** A [Directory] object: its [table]; [tableSize] is the table's length. *)
Record Directory := mkDirectory { table : list DirectoryEntry }.

Global Instance Directory_eq_dec : EqDecision Directory.
Proof. solve_decision. Defined.

Module Directory.
Section directory.
Context `{Config}.

Definition tableSize (d : Directory) : nat := length (table d).

(** An entry of zero bytes. *)
Definition blank : DirectoryEntry := mkEntry false false 0 EmptyString.

(** [Directory::Directory(size)]: the table is zeroed, every entry unused. *)
Definition new (size : nat) : Directory :=
  mkDirectory (replicate size blank).


(** The test of the loop of [FindIndex]. *)
Definition matches (nm : string) (e : DirectoryEntry) : Prop :=
  inUse e = true ∧ CString.strncmp (name e) nm FileNameMaxLen = 0.

Global Instance matches_dec nm e : Decision (matches nm e).
Proof. unfold matches. apply _. Defined.

(** [Directory::FindIndex]: the first matching index, or [-1]. *)
Definition FindIndex (d : Directory) (nm : string) : Z :=
  match list_find (matches nm) (table d) with
  | Some (i, _) => Z.of_nat i
  | None => -1
  end.

(** [table[i]] for an index within the table. *)
Definition entry (d : Directory) (i : Z) : DirectoryEntry :=
  default blank (table d !! Z.to_nat i).

(** [Directory::Find]. *)
Definition Find (d : Directory) (nm : string) : Z :=
  let i := FindIndex d nm in
  if decide (i ≠ -1) then sector (entry d i) else -1.

(** The test of the loop of [Add]. *)
Definition unused (e : DirectoryEntry) : Prop := inUse e = false.

Global Instance unused_dec e : Decision (unused e).
Proof. unfold unused. apply _. Defined.

(** [Directory::Add]: the result and the table afterwards. *)
Definition Add (d : Directory) (nm : string) (newSector : Z) (dir : bool)
  : bool * Directory :=
  if decide (FindIndex d nm ≠ -1) then (false, d)
  else
    match list_find unused (table d) with
    | Some (i, _) =>
        (true,
         mkDirectory
           (<[i := mkEntry true dir newSector
                     (CString.strncpy nm FileNameMaxLen)]> (table d)))
    | None => (false, d)
    end.

(** [Directory::Remove]: the result and the table afterwards. *)
Definition Remove (d : Directory) (nm : string) : bool * Directory :=
  let i := FindIndex d nm in
  if decide (i = -1) then (false, d)
  else
    let e := entry d i in
    (true,
     mkDirectory
       (<[Z.to_nat i := mkEntry false false (sector e) (name e)]> (table d))).

(** [Directory::isDirectory(index)]. *)
Definition isDirectory (d : Directory) (index : nat) : bool :=
  if decide (index < tableSize d)%nat then isDir (entry d (Z.of_nat index))
  else false.

(** Modelled from the spec: [Directory::inUseIndex] and
    [Directory::getIndexName] are declared in [directory.h], which is not
    among the sources; RecurRemoveDirectory uses them to "iterate every
    in-use entry in table order" and to name the entry. *)
Definition inUseIndex (d : Directory) (index : nat) : bool :=
  inUse (entry d (Z.of_nat index)).

Definition getIndexName (d : Directory) (index : nat) : string :=
  name (entry d (Z.of_nat index)).

(** A sequence of calls of [Add], as a test of the table makes them: the
    results in order and the table afterwards. *)
Fixpoint AddAll (d : Directory) (items : list (string * Z * bool))
  : list bool * Directory :=
  match items with
  | [] => ([], d)
  | (nm, newSector, dir) :: rest =>
      let '(r, d1) := Add d nm newSector dir in
      let '(rs, d2) := AddAll d1 rest in
      (r :: rs, d2)
  end.

(** Number of entries in use. *)
Definition count (d : Directory) : nat :=
  length (filter (λ e, inUse e = true) (table d)).

(** The entry a successful [Add] of an item writes, and the name under which
    an item is looked up. *)
Definition added (it : string * Z * bool) : DirectoryEntry :=
  mkEntry true it.2 it.1.2 (CString.strncpy it.1.1 FileNameMaxLen).

Definition key (it : string * Z * bool) : string :=
  CString.strncpy it.1.1 FileNameMaxLen.

(** The invariant of a table: the names of two different entries in use
    differ under the comparison of [FindIndex]. *)
Definition distinct_names (d : Directory) : Prop :=
  ∀ i j ei ej,
    table d !! i = Some ei → table d !! j = Some ej → i ≠ j →
    inUse ei = true → inUse ej = true →
    CString.strncmp (name ei) (name ej) FileNameMaxLen ≠ 0.

End directory.
End Directory.

(** ** The collaborators of the file system

    [filehdr.cc], [openfile.cc], [pbitmap.cc], [bitmap.cc] and the disk are
    not among the sources. *)

(** Modelled from the spec: [FileHeader] (filehdr.h is missing), "external
    structure mapping a file's logical byte range to its sectors". *)
Record FileHeader := mkHeader {
  numBytes : Z;
  dataSectors : list Z
}.

Global Instance FileHeader_eq_dec : EqDecision FileHeader.
Proof. solve_decision. Defined.

(** Modelled from the spec: a sector of the disk (disk.h is missing), "fixed
    size block on the virtual disk". A sector holds a file header, or one
    sector's worth of a file's contents: the records of a directory table
    ("one record per table slot, positional"), the bits of the free-space
    bitmap ("one bit per sector"), or other bytes. *)
Inductive Block :=
  | BlockHeader (h : FileHeader)
  | BlockEntries (es : list DirectoryEntry)
  | BlockBits (bs : list bool)
  | BlockBytes (bs : list Z).

Global Instance Block_eq_dec : EqDecision Block.
Proof. solve_decision. Defined.

(** Modelled from the spec: [OpenFile] (openfile.h is missing), "a
    byte-addressable open-file handle built atop a header". *)
Record OpenFile := mkOpenFile {
  hdr : FileHeader;
  seekPosition : Z
}.

Global Instance OpenFile_eq_dec : EqDecision OpenFile.
Proof. solve_decision. Defined.

(** Modelled from the spec: the macro [divRoundUp] of utility.h and the
    constant [BitsInByte] of bitmap.h, which are missing: the number of
    sectors "[size] bytes of data sectors" take, and "bitsPerByte". *)
Definition divRoundUp (n s : Z) : Z :=
  Z.quot n s + (if decide (0 < Z.rem n s) then 1 else 0).

Definition BitsInByte : Z := 8.

(** Modelled from the spec: [OpenFile::WriteAt] and [OpenFile::ReadAt] of a
    whole object at offset 0 (openfile.cc is missing), "raw sector
    read/write" through the header: piece [k] of the contents lives in the
    [k]-th data sector, [per] items to a sector. The model moves the whole
    object whatever [numBytes] says: it is what the two calls do on a file
    at least as long as the object, and no more than that. On a shorter
    file they stop at the file's length; the properties that read back what
    was written are stated for files long enough ([holds_table] and
    [holds_bitmap] below). *)
Fixpoint write_chunks {A} (mk : list A → Block) (per : nat)
    (secs : list Z) (xs : list A) (disk : gmap Z Block) : gmap Z Block :=
  match secs, xs with
  | s :: secs', _ :: _ =>
      write_chunks mk per secs' (drop per xs) (<[s := mk (take per xs)]> disk)
  | _, _ => disk
  end.

Definition read_chunks {A} (get : Block → list A)
    (secs : list Z) (disk : gmap Z Block) : list A :=
  concat ((λ s, match disk !! s with Some b => get b | None => [] end) <$> secs).

(** Modelled from the spec: [ReadAt] into an object that holds [old]; what
    the file provides replaces the front of [old], the rest stays as it
    was. *)
Definition overlay {A} (old : list A) (read : list A) : list A :=
  let got := take (length old) read in
  got ++ drop (length got) old.

(** Modelled from the spec: the free-space bitmap (bitmap.cc is missing),
    "one bit per sector ... tracking allocated/free state"; a bit outside the
    bitmap is never set and setting or clearing it changes nothing. *)
Module Bitmap.

Definition new (numItems : nat) : list bool := replicate numItems false.

Definition in_range (bits : list bool) (which : Z) : Prop :=
  0 ≤ which < Z.of_nat (length bits).

Global Instance in_range_dec bits which : Decision (in_range bits which).
Proof. unfold in_range. apply _. Defined.

Definition Mark (bits : list bool) (which : Z) : list bool :=
  if decide (in_range bits which) then <[Z.to_nat which := true]> bits
  else bits.

Definition Clear (bits : list bool) (which : Z) : list bool :=
  if decide (in_range bits which) then <[Z.to_nat which := false]> bits
  else bits.

Definition Test (bits : list bool) (which : Z) : bool :=
  if decide (in_range bits which) then default false (bits !! Z.to_nat which)
  else false.

(** "Acquire one free sector from the bitmap": the first clear bit is set and
    its number returned, [-1] when every bit is set. *)
Definition FindAndSet (bits : list bool) : Z * list bool :=
  match list_find (λ b, b = false) bits with
  | Some (i, _) => (Z.of_nat i, <[i := true]> bits)
  | None => (-1, bits)
  end.

Definition NumClear (bits : list bool) : nat :=
  length (filter (λ b, b = false) bits).

(** [n] successive calls of [FindAndSet]. *)
Fixpoint FindAndSet_n (n : nat) (bits : list bool) : list Z * list bool :=
  match n with
  | O => ([], bits)
  | S n' =>
      let '(s, bits1) := FindAndSet bits in
      let '(ss, bits2) := FindAndSet_n n' bits1 in
      (s :: ss, bits2)
  end.

End Bitmap.

Module FileHdr.
Section filehdr.
Context `{Config}.

(** Modelled from the spec: [FileHeader::FetchFrom(sector)] (filehdr.cc is
    missing), "fetch its header"; a sector that holds no header gives the
    empty header. *)
Definition FetchFrom (disk : gmap Z Block) (sector : Z) : FileHeader :=
  match disk !! sector with
  | Some (BlockHeader h) => h
  | _ => mkHeader 0 []
  end.

(** Modelled from the spec: [FileHeader::WriteBack(sector)], "write the
    header to its sector". *)
Definition WriteBack (h : FileHeader) (sector : Z) (disk : gmap Z Block)
  : gmap Z Block :=
  <[sector := BlockHeader h]> disk.

(** Modelled from the spec: [FileHeader::Allocate(freeMap, fileSize)],
    "allocate [size] bytes of data sectors from the bitmap via the header;
    fail NoSpace if insufficient". *)
Definition Allocate (freeMap : list bool) (fileSize : Z)
  : bool * FileHeader * list bool :=
  let numSectors := divRoundUp fileSize SectorSize in
  if decide (Z.of_nat (Bitmap.NumClear freeMap) < numSectors) then
    (false, mkHeader fileSize [], freeMap)
  else
    let '(secs, freeMap') := Bitmap.FindAndSet_n (Z.to_nat numSectors) freeMap in
    (true, mkHeader fileSize secs, freeMap').

(** Modelled from the spec: [FileHeader::Deallocate(freeMap)], "deallocate
    its data sectors to the bitmap". *)
Definition Deallocate (h : FileHeader) (freeMap : list bool) : list bool :=
  foldl Bitmap.Clear freeMap (dataSectors h).

End filehdr.
End FileHdr.

Module Storage.
Section storage.
Context `{Config}.

(** Modelled from the spec: [OpenFile::OpenFile(sector)] (openfile.cc is
    missing), "a handle over the located file's sectors": it loads the header
    stored in [sector]. *)
Definition Open (disk : gmap Z Block) (sector : Z) : OpenFile :=
  mkOpenFile (FileHdr.FetchFrom disk sector) 0.

(** How many table records and how many bitmap bits a sector block of the
    model takes. On the disk a record may straddle two sectors; the model
    keeps each record whole in one block, and rounds up so that a file with
    bytes enough for a table has blocks enough for it. *)
Definition EntriesPerSector : nat :=
  Z.to_nat (divRoundUp SectorSize DirectoryEntrySize).

Definition BitsPerSector : nat := Z.to_nat (SectorSize * BitsInByte).

Definition get_entries (b : Block) : list DirectoryEntry :=
  match b with BlockEntries es => es | _ => [] end.

Definition get_bits (b : Block) : list bool :=
  match b with BlockBits bs => bs | _ => [] end.

(** [Directory::FetchFrom(file)]: [ReadAt] of the whole table from offset 0.
    A sector that holds no table records provides nothing (on the disk its
    bytes would be copied over the table); the properties that depend on
    the table fetched are stated for files that hold one ([has_table]
    below), the others whatever the fetch gives. *)
Definition Directory_FetchFrom (d : Directory) (file : OpenFile)
    (disk : gmap Z Block) : Directory :=
  mkDirectory
    (overlay (table d) (read_chunks get_entries (dataSectors (hdr file)) disk)).

(** [Directory::WriteBack(file)]: [WriteAt] of the whole table at offset 0. *)
Definition Directory_WriteBack (d : Directory) (file : OpenFile)
    (disk : gmap Z Block) : gmap Z Block :=
  write_chunks BlockEntries EntriesPerSector (dataSectors (hdr file))
    (table d) disk.

(** Modelled from the spec: [PersistentBitmap::PersistentBitmap(file, n)]
    (pbitmap.cc is missing), the bitmap "persisted as a regular file": [n]
    clear bits over which the file's contents are read. *)
Definition Bitmap_load (file : OpenFile) (numItems : nat)
    (disk : gmap Z Block) : list bool :=
  overlay (Bitmap.new numItems)
    (read_chunks get_bits (dataSectors (hdr file)) disk).

(** Modelled from the spec: [PersistentBitmap::WriteBack(file)], "write the
    bitmap to its file". *)
Definition Bitmap_WriteBack (bits : list bool) (file : OpenFile)
    (disk : gmap Z Block) : gmap Z Block :=
  write_chunks BlockBits BitsPerSector (dataSectors (hdr file)) bits disk.

End storage.
End Storage.

(** ** filesys.cc *)

(** The write-backs a file-system operation issues, in program order. *)
Inductive Event :=
  | HeaderWrite (sector : Z) (h : FileHeader)
  | DirectoryWrite (file : OpenFile) (d : Directory)
  | BitmapWrite (file : OpenFile) (bits : list bool).

Global Instance Event_eq_dec : EqDecision Event.
Proof. solve_decision. Defined.

(** The disk, the two files a [FileSystem] object keeps open, and the
    write-backs issued so far. *)
Record State := mkState {
  disk : gmap Z Block;
  freeMapFile : OpenFile;
  directoryFile : OpenFile;
  writes : list Event
}.

(** How a call ends: it returns; an [ASSERT] fails and the machine stops; it
    indexes an array out of bounds, which C++ leaves undefined; or the
    recursion is deeper than the fuel given. *)
Inductive Outcome (A : Type) :=
  | Returns (a : A) (s : State)
  | Aborts
  | Undefined
  | OutOfFuel.
Arguments Returns {A} a s.
Arguments Aborts {A}.
Arguments Undefined {A}.
Arguments OutOfFuel {A}.

(** [o1] is what a call gives with less fuel than the call that gives [o2]. *)
Definition with_less_fuel {A} (o1 o2 : Outcome A) : Prop :=
  o1 = OutOfFuel ∨ o1 = o2.

Definition M (A : Type) : Type := State → Outcome A.

Global Instance M_ret : MRet M := λ A a s, Returns a s.
Global Instance M_bind : MBind M := λ A B f m s,
  match m s with
  | Returns a s' => f a s'
  | Aborts => Aborts
  | Undefined => Undefined
  | OutOfFuel => OutOfFuel
  end.

Definition get : M State := λ s, Returns s s.
Definition abort {A} : M A := λ _, Aborts.
Definition undefined {A} : M A := λ _, Undefined.
Definition out_of_fuel {A} : M A := λ _, OutOfFuel.

(** A loop [for (i = 0; i < n; i++) body(i)]. *)
Fixpoint for_loop (body : nat → M unit) (i : nat) (n : nat) : M unit :=
  match n with
  | O => mret tt
  | S n' => body i ;; for_loop body (S i) n'
  end.

Module FileSystem.
Section filesys.
Context `{Config}.

Definition FreeMapSector : Z := 0.
Definition DirectorySector : Z := 1.
Definition FreeMapFileSize : Z := Z.quot (Z.of_nat NumSectors) BitsInByte.
Definition NumDirEntries : nat := 64.
Definition DirectoryFileSize : Z := DirectoryEntrySize * Z.of_nat NumDirEntries.

(** The three write-backs, each logged. *)
Definition hdr_WriteBack (h : FileHeader) (sector : Z) : M unit := λ s,
  Returns tt
    (mkState (FileHdr.WriteBack h sector (disk s))
       (freeMapFile s) (directoryFile s) (writes s ++ [HeaderWrite sector h])).

Definition directory_WriteBack (d : Directory) (file : OpenFile) : M unit :=
  λ s,
  Returns tt
    (mkState (Storage.Directory_WriteBack d file (disk s))
       (freeMapFile s) (directoryFile s) (writes s ++ [DirectoryWrite file d])).

Definition freeMap_WriteBack (bits : list bool) (file : OpenFile) : M unit :=
  λ s,
  Returns tt
    (mkState (Storage.Bitmap_WriteBack bits file (disk s))
       (freeMapFile s) (directoryFile s) (writes s ++ [BitmapWrite file bits])).

(** [new PersistentBitmap(freeMapFile, NumSectors)]. *)
Definition load_freeMap (s : State) : list bool :=
  Storage.Bitmap_load (freeMapFile s) NumSectors (disk s).

(** The loop of [Parse]: [directory] and [tempDirectory] are the current
    table and handle, [comps] the components still to visit. *)
Fixpoint Parse_loop (dsk : gmap Z Block) (directory : Directory)
    (tempDirectory : OpenFile) (comps : list string) : option OpenFile :=
  match comps with
  | [] => Some tempDirectory
  | c :: rest =>
      let sector := Directory.Find directory c in
      if decide (sector = -1) then None
      else
        let tempDirectory := Storage.Open dsk sector in
        Parse_loop dsk (Storage.Directory_FetchFrom directory tempDirectory dsk)
          tempDirectory rest
  end.

(** The [strtok] loop of [Parse], [CreateDirectory] and [ListDirectory]:
    each token goes through [strncpy(folder[count++], pch, FileNameMaxLen)]. *)
Definition tokens (path : string) : list string :=
  (λ t, CString.strncpy t FileNameMaxLen) <$> CString.strtok_all path "/"%char.

(** [FileSystem::Parse(path, create, folder, count)] with [*count = 0] on
    entry: the handle returned, [folder] and [*count]. [pathCopy] has 100
    bytes and [folder] has 10 rows. *)
Definition Parse (path : string) (create : bool)
  : M (option OpenFile * list string * nat) :=
  s ← get;
  if decide (100 ≤ CString.strlen path)%nat then undefined
  else
    let folder := tokens path in
    let count := length folder in
    if decide (10 < count)%nat then undefined
    else
      let directory :=
        Storage.Directory_FetchFrom (Directory.new NumDirEntries)
          (directoryFile s) (disk s) in
      let tempDirectory := Storage.Open (disk s) DirectorySector in
      mret
        (Parse_loop (disk s) directory tempDirectory
           (take (count - (if create then 1 else 0)) folder),
         folder, count).

(** The paths [Parse] has room for. *)
Definition in_bounds (path : string) : Prop :=
  (CString.strlen path < 100)%nat ∧ (length (tokens path) ≤ 10)%nat.

(** The paths that moreover name something: [folder[count - 1]] exists. *)
Definition nameable (path : string) : Prop :=
  in_bounds path ∧ tokens path ≠ [].

(** The table and the handle [Parse] starts from. *)
Definition root_directory (s : State) : Directory :=
  Storage.Directory_FetchFrom (Directory.new NumDirEntries)
    (directoryFile s) (disk s).

Definition root_handle (s : State) : OpenFile :=
  Storage.Open (disk s) DirectorySector.

(** Path resolution as the specification words it: from the current table
    and handle, "look up c[i]; missing lookup aborts resolution (returns
    none) immediately; found entry opens its sector as a file and becomes the
    new current table". The result is the table and the handle that are
    current at the end, or nothing. *)
Inductive Resolves (dsk : gmap Z Block)
  : Directory → OpenFile → list string → option (Directory * OpenFile) → Prop :=
  | Resolves_end directory handle :
      Resolves dsk directory handle [] (Some (directory, handle))
  | Resolves_missing directory handle c rest :
      Directory.Find directory c = -1 →
      Resolves dsk directory handle (c :: rest) None
  | Resolves_found directory handle c rest result :
      Directory.Find directory c ≠ -1 →
      Resolves dsk
        (Storage.Directory_FetchFrom directory
           (Storage.Open dsk (Directory.Find directory c)) dsk)
        (Storage.Open dsk (Directory.Find directory c)) rest result →
      Resolves dsk directory handle (c :: rest) result.

(** [directory = new Directory(NumDirEntries); directory->FetchFrom(file)]. *)
Definition fetch_directory (file : OpenFile) (s : State) : Directory :=
  Storage.Directory_FetchFrom (Directory.new NumDirEntries) file (disk s).

(** [folder[count - 1]]. *)
Definition folder_last (folder : list string) (count : nat) : M string :=
  match count with
  | O => undefined
  | S k => match folder !! k with Some c => mret c | None => undefined end
  end.

(** [FileSystem::Create(name, initialSize)]. *)
Definition Create (nm : string) (initialSize : Z) : M bool :=
  '(openDirectoryFile, folder, count) ← Parse nm true;
  match openDirectoryFile with
  | None => mret false
  | Some openDirectoryFile =>
      s ← get;
      let directory :=
        Storage.Directory_FetchFrom (Directory.new NumDirEntries)
          openDirectoryFile (disk s) in
      last ← folder_last folder count;
      if decide (Directory.Find directory last ≠ -1) then mret false
      else
        let freeMap := load_freeMap s in
        let '(sector, freeMap) := Bitmap.FindAndSet freeMap in
        if decide (sector = -1) then mret false
        else
          let '(added, directory) := Directory.Add directory last sector false in
          if negb added then mret false
          else
            let '(ok, hdr, freeMap) := FileHdr.Allocate freeMap initialSize in
            if negb ok then mret false
            else
              hdr_WriteBack hdr sector ;;
              directory_WriteBack directory openDirectoryFile ;;
              freeMap_WriteBack freeMap (freeMapFile s) ;;
              mret true
  end.

(** [FileSystem::CreateDirectory(path)]; [strtok] runs on [path] itself. *)
Definition CreateDirectory (path : string) : M bool :=
  s ← get;
  let directory :=
    Storage.Directory_FetchFrom (Directory.new NumDirEntries)
      (directoryFile s) (disk s) in
  let NewDirectory := Directory.new NumDirEntries in
  let tempDirectory := Storage.Open (disk s) DirectorySector in
  let folder := tokens path in
  let count := length folder in
  if decide (10 < count)%nat then undefined
  else
    let freeMap := load_freeMap s in
    match
      (fix walk (directory : Directory) (tempDirectory : OpenFile)
           (comps : list string) : option (Directory * OpenFile) :=
         match comps with
         | [] => Some (directory, tempDirectory)
         | c :: rest =>
             let sector := Directory.Find directory c in
             if decide (sector = -1) then None
             else
               let tempDirectory := Storage.Open (disk s) sector in
               walk (Storage.Directory_FetchFrom directory tempDirectory (disk s))
                 tempDirectory rest
         end) directory tempDirectory (take (count - 1) folder)
    with
    | None => mret false
    | Some (directory, tempDirectory) =>
        let '(NewDirSector, freeMap) := Bitmap.FindAndSet freeMap in
        if decide (NewDirSector = -1) then mret false
        else
          last ← folder_last folder count;
          let '(added, directory) :=
            Directory.Add directory last NewDirSector true in
          if negb added then mret false
          else
            let '(ok, hdr, freeMap) :=
              FileHdr.Allocate freeMap DirectoryFileSize in
            if negb ok then mret false
            else
              hdr_WriteBack hdr NewDirSector ;;
              s1 ← get;
              let NewDirectoryFile := Storage.Open (disk s1) NewDirSector in
              directory_WriteBack NewDirectory NewDirectoryFile ;;
              directory_WriteBack directory tempDirectory ;;
              freeMap_WriteBack freeMap (freeMapFile s) ;;
              mret true
    end.

(** [FileSystem::Open(name)]: the handle, [None] for [NULL]. *)
Definition Open (nm : string) : M (option OpenFile) :=
  '(openDirectoryFile, folder, count) ← Parse nm true;
  match openDirectoryFile with
  | Some openDirectoryFile =>
      s ← get;
      let directory :=
        Storage.Directory_FetchFrom (Directory.new NumDirEntries)
          openDirectoryFile (disk s) in
      last ← folder_last folder count;
      let sector := Directory.Find directory last in
      if decide (0 ≤ sector) then mret (Some (Storage.Open (disk s) sector))
      else mret None
  | None => mret None
  end.

(** [FileSystem::Remove(name)]. *)
Definition Remove (nm : string) : M bool :=
  '(openDirectoryFile, folder, count) ← Parse nm true;
  match openDirectoryFile with
  | None => mret false
  | Some openDirectoryFile =>
      s ← get;
      let directory :=
        Storage.Directory_FetchFrom (Directory.new NumDirEntries)
          openDirectoryFile (disk s) in
      last ← folder_last folder count;
      let sector := Directory.Find directory last in
      if decide (sector = -1) then mret false
      else
        let fileHdr := FileHdr.FetchFrom (disk s) sector in
        let freeMap := load_freeMap s in
        let freeMap := FileHdr.Deallocate fileHdr freeMap in
        let freeMap := Bitmap.Clear freeMap sector in
        let directory := (Directory.Remove directory last).2 in
        freeMap_WriteBack freeMap (freeMapFile s) ;;
        directory_WriteBack directory openDirectoryFile ;;
        mret true
  end.

(** [strcpy(str, name); strcat(str, "/"); strcat(str, entry)] into
    [char str[100]]. *)
Definition child_path (nm entry : string) : M string :=
  let str := CString.strcat (CString.strcat nm "/") entry in
  if decide (100 ≤ CString.strlen str)%nat then undefined else mret str.

(** [FileSystem::RecurRemoveDirectory(name)], where [recur] stands for the
    function itself in its recursive call. The function is declared [bool]
    but has no [return] statement: a call that reaches the closing brace
    hands its caller no defined value, and C++ leaves flowing off the end
    undefined. Its callers in this file drop the value. The model lets such
    a call end with [tt], so that what the call did up to the closing brace
    can be stated; [Returns tt] says no more than that the brace was
    reached. *)
Definition RecurRemoveDirectory_body (recur : string → M unit) (nm : string)
  : M unit :=
  '(openDirectoryFile, folder, count) ← Parse nm true;
  match openDirectoryFile with
  | None => abort (* ASSERT(openDirectoryFile != NULL) *)
  | Some openDirectoryFile =>
      s ← get;
      let directory :=
        Storage.Directory_FetchFrom (Directory.new NumDirEntries)
          openDirectoryFile (disk s) in
      last ← folder_last folder count;
      let sector := Directory.Find directory last in
      if decide (sector ≠ -1) then
        let openRemoveDirectory := Storage.Open (disk s) sector in
        let directory :=
          Storage.Directory_FetchFrom directory openRemoveDirectory (disk s) in
        let fileHdr := FileHdr.FetchFrom (disk s) sector in
        let freeMap := load_freeMap s in
        for_loop
          (λ i,
             if Directory.inUseIndex directory i then
               str ← child_path nm (Directory.getIndexName directory i);
               if negb (Directory.isDirectory directory i) then
                 Remove str ;; mret tt
               else recur str
             else mret tt)
          0 NumDirEntries ;;
        let freeMap := FileHdr.Deallocate fileHdr freeMap in
        let freeMap := Bitmap.Clear freeMap sector in
        s2 ← get;
        let directory :=
          Storage.Directory_FetchFrom directory openDirectoryFile (disk s2) in
        let directory := (Directory.Remove directory last).2 in
        freeMap_WriteBack freeMap (freeMapFile s2) ;;
        directory_WriteBack directory openDirectoryFile
      else mret tt
  end.

(** The recursion of [RecurRemoveDirectory], [fuel] calls deep at most. *)
Fixpoint RecurRemoveDirectory (fuel : nat) (nm : string) : M unit :=
  match fuel with
  | O => out_of_fuel
  | S fuel' => RecurRemoveDirectory_body (RecurRemoveDirectory fuel') nm
  end.

(** [FileSystem::FileSystem(format)] with [format = TRUE], on a disk [dsk]. *)
Definition Format (dsk : gmap Z Block) : Outcome unit :=
  let freeMap := Bitmap.new NumSectors in
  let directory := Directory.new NumDirEntries in
  let freeMap := Bitmap.Mark freeMap FreeMapSector in
  let freeMap := Bitmap.Mark freeMap DirectorySector in
  let '(okMap, mapHdr, freeMap) := FileHdr.Allocate freeMap FreeMapFileSize in
  if negb okMap then Aborts
  else
    let '(okDir, dirHdr, freeMap) :=
      FileHdr.Allocate freeMap DirectoryFileSize in
    if negb okDir then Aborts
    else
      let dsk := FileHdr.WriteBack mapHdr FreeMapSector dsk in
      let dsk := FileHdr.WriteBack dirHdr DirectorySector dsk in
      let fmf := Storage.Open dsk FreeMapSector in
      let df := Storage.Open dsk DirectorySector in
      (freeMap_WriteBack freeMap fmf ;; directory_WriteBack directory df)
        (mkState dsk fmf df
           [HeaderWrite FreeMapSector mapHdr; HeaderWrite DirectorySector dirHdr]).

End filesys.
End FileSystem.

(** ** A concrete machine

    The values of the stock NachOS headers for the constants ([disk.h]: 32
    tracks of 32 sectors of 128 bytes; [directory.h]: names of 9 characters),
    and the record layout of the specification for the size of an entry
    (three 32-bit fields and the 10-byte name, padded to 24 bytes). *)
Definition reference_config : Config :=
  {| FileNameMaxLen := 9; NumSectors := 1024; SectorSize := 128;
     DirectoryEntrySize := 24 |}.

(** Running a call after another one. *)
Definition and_then {A B} (o : Outcome A) (f : M B) : Outcome B :=
  match o with
  | Returns _ s => f s
  | Aborts => Aborts
  | Undefined => Undefined
  | OutOfFuel => OutOfFuel
  end.

(** The state a sequence of calls ends in (the empty disk when it does not
    return). *)
Definition final_state {A} (o : Outcome A) : State :=
  match o with
  | Returns _ s => s
  | _ => mkState ∅ (mkOpenFile (mkHeader 0 []) 0) (mkOpenFile (mkHeader 0 []) 0) []
  end.

Definition returned {A} (o : Outcome A) : option A :=
  match o with Returns a _ => Some a | _ => None end.

Module Reference.

Local Existing Instance reference_config.

(** A freshly formatted disk. *)
Definition formatted : Outcome unit := FileSystem.Format ∅.

(** [CreateDirectory("/a")], [CreateDirectory("/a/b")],
    [Create("/a/b/f.txt", 10)] on it. *)
Definition populated : Outcome bool :=
  and_then
    (and_then (and_then formatted (FileSystem.CreateDirectory "/a"))
       (FileSystem.CreateDirectory "/a/b"))
    (FileSystem.Create "/a/b/f.txt" 10).

(** ... and then [RecurRemoveDirectory("/a")]. *)
Definition removed : Outcome unit :=
  and_then populated (FileSystem.RecurRemoveDirectory 3 "/a").

(** The sectors of the file a path names: its header sector and its data
    sectors. *)
Definition sectors_of (path : string) (s : State) : list Z :=
  match FileSystem.Parse path true s with
  | Returns (Some parent, folder, count) _ =>
      match FileSystem.folder_last folder count s with
      | Returns final _ =>
          let sector := Directory.Find (FileSystem.fetch_directory parent s) final in
          sector :: dataSectors (FileHdr.FetchFrom (disk s) sector)
      | _ => []
      end
  | _ => []
  end.

(** The bits of the persisted bitmap for a list of sectors. *)
Definition persisted_bits (s : State) (secs : list Z) : list bool :=
  Bitmap.Test (FileSystem.load_freeMap s) <$> secs.

(** The three states of the scenario. *)
Definition s0 : State := final_state formatted.
Definition s1 : State := final_state populated.
Definition s2 : State := final_state removed.

(** Small inputs for the directory table. *)
Definition two_items : list (string * Z * bool) :=
  [("a"%string, 5, false); ("b"%string, 6, true)].

Definition third_item : string * Z * bool := ("c"%string, 7, false).

Definition small_table : Directory :=
  mkDirectory [mkEntry true false 5 "a"; mkEntry true true 6 "b"].

(** The handles of "/a" and of "/a/b" in [s1]. *)
Definition handle_a : OpenFile :=
  mkOpenFile (mkHeader 1536 [16; 17; 18; 19; 20; 21; 22; 23; 24; 25; 26; 27]) 0.

Definition handle_b : OpenFile :=
  mkOpenFile (mkHeader 1536 [29; 30; 31; 32; 33; 34; 35; 36; 37; 38; 39; 40]) 0.

End Reference.

(** ** directory.cc: the listings *)

Module Listing.
Section listing.
Context `{Config}.

(** What [printf("%s %s\n", table[i].name, tag)] prints, less the newline. *)
Definition line (e : DirectoryEntry) : string :=
  String.append (CString.c_str (name e)) (if isDir e then " [D]" else " [F]").

(** [Directory::List]: the lines printed, in order. *)
Definition List (d : Directory) : list string :=
  line <$> filter (λ e, inUse e = true) (table d).

(** [n] blanks: the padding [%*s] puts before a string [n] characters
    shorter than the width. *)
Fixpoint spaces (n : nat) : string :=
  match n with
  | O => EmptyString
  | S n' => String " "%char (spaces n')
  end.

(** What [printf("%*s %s\n", 2*indent_level + strlen(name), name, tag)]
    prints, less the newline. *)
Definition indented_line (indent_level : nat) (e : DirectoryEntry) : string :=
  String.append (spaces (2 * indent_level)) (line e).

(** What [printf("%*s\n", 2*indent_level + strlen("Empty Folder"),
    "Empty Folder")] prints, less the newline. *)
Definition empty_folder (indent_level : nat) : string :=
  String.append (spaces (2 * indent_level)) "Empty Folder".

(** A line that begins with [pre]. *)
Definition starts_with (pre line : string) : Prop :=
  ∃ rest, line = String.append pre rest.

(** The loop of [Directory::RecurList] over the table; [recur] lists the
    directory an entry names, one level deeper. *)
Fixpoint RecurList_loop (recur : DirectoryEntry → option (list string))
    (indent_level : nat) (t : list DirectoryEntry) : option (list string) :=
  match t with
  | [] => Some []
  | e :: t' =>
      if inUse e then
        if negb (isDir e) then
          rest ← RecurList_loop recur indent_level t';
          Some (indented_line indent_level e :: rest)
        else
          sub ← recur e;
          rest ← RecurList_loop recur indent_level t';
          Some (indented_line indent_level e :: sub ++ rest)
      else RecurList_loop recur indent_level t'
  end.

(** [Directory::RecurList(indent_level)] on the disk [dsk]: the lines
    printed, [None] when the nesting is deeper than [fuel]. *)
Fixpoint RecurList (fuel : nat) (dsk : gmap Z Block) (d : Directory)
    (indent_level : nat) : option (list string) :=
  match fuel with
  | O => None
  | S fuel' =>
      out ←
        RecurList_loop
          (λ e,
             let openDirectoryFile := Storage.Open dsk (sector e) in
             let directory :=
               Storage.Directory_FetchFrom (Directory.new 64)
                 openDirectoryFile dsk in
             RecurList fuel' dsk directory (S indent_level))
          indent_level (table d);
      Some (out ++ if decide (Directory.count d = 0%nat)
                   then [empty_folder indent_level] else [])
  end.

End listing.
End Listing.

(** ** filesys.cc: the listings, and what path resolution reads *)

Module Resolution.
Section resolution.
Context `{Config}.
Import FileSystem.

(** The loop [for (i = 0; i < n; i++)] over the components that
    [CreateDirectory] and [ListDirectory] spell out, the same as that of
    [Parse]: the table and the handle that are current at its end. *)
Fixpoint walk_loop (dsk : gmap Z Block) (directory : Directory)
    (tempDirectory : OpenFile) (comps : list string)
  : option (Directory * OpenFile) :=
  match comps with
  | [] => Some (directory, tempDirectory)
  | c :: rest =>
      let sector := Directory.Find directory c in
      if decide (sector = -1) then None
      else
        let tempDirectory := Storage.Open dsk sector in
        walk_loop dsk (Storage.Directory_FetchFrom directory tempDirectory dsk)
          tempDirectory rest
  end.

(** [FileSystem::List]: the lines printed. *)
Definition List : M (list string) :=
  s ← get;
  let directory :=
    Storage.Directory_FetchFrom (Directory.new NumDirEntries)
      (directoryFile s) (disk s) in
  mret (Listing.List directory).

(** [FileSystem::ListDirectory(path)]: the lines printed; [strtok] runs on
    [path] itself. *)
Definition ListDirectory (path : string) : M (list string) :=
  s ← get;
  let directory :=
    Storage.Directory_FetchFrom (Directory.new NumDirEntries)
      (directoryFile s) (disk s) in
  let tempDirectory := Storage.Open (disk s) DirectorySector in
  let folder := tokens path in
  let count := length folder in
  if decide (10 < count)%nat then undefined
  else
    match walk_loop (disk s) directory tempDirectory folder with
    | Some (directory, _) => mret (Listing.List directory)
    | None => mret ["No such directory"%string]
    end.

(** [FileSystem::RecurListDirectory(path)]: the lines printed; [fuel] bounds
    the nesting [Directory::RecurList] follows. *)
Definition RecurListDirectory (fuel : nat) (path : string) : M (list string) :=
  '(openDirectoryFile, folder, count) ← Parse path false;
  match openDirectoryFile with
  | None => mret ["No such directory."%string]
  | Some openDirectoryFile =>
      s ← get;
      let directory :=
        Storage.Directory_FetchFrom (Directory.new NumDirEntries)
          openDirectoryFile (disk s) in
      match Listing.RecurList fuel (disk s) directory 0 with
      | Some lines => mret lines
      | None => out_of_fuel
      end
  end.

(** The sectors the loop of [Parse] reads: for each component found, the
    sector of its header and, when a further component is looked up in its
    table, its data sectors. *)
Fixpoint Parse_loop_reads (dsk : gmap Z Block) (directory : Directory)
    (comps : list string) : list Z :=
  match comps with
  | [] => []
  | c :: rest =>
      let sector := Directory.Find directory c in
      if decide (sector = -1) then []
      else
        let file := Storage.Open dsk sector in
        sector ::
          ((match rest with [] => [] | _ => dataSectors (hdr file) end) ++
           Parse_loop_reads dsk (Storage.Directory_FetchFrom directory file dsk)
             rest)
  end.

(** The sectors [Parse(path, create)] reads: the sector of the root header,
    the data sectors of the root file when a component is looked up in the
    root table, and what the loop reads. *)
Definition Parse_reads (path : string) (create : bool) (s : State) : list Z :=
  let comps :=
    take (length (tokens path) - (if create then 1 else 0)) (tokens path) in
  DirectorySector ::
    ((match comps with [] => [] | _ => dataSectors (hdr (directoryFile s)) end) ++
     Parse_loop_reads (disk s) (root_directory s) comps).

(** The files [Parse(path, create)] opens when it looks a component up: the
    root file kept open and the file of every component found. None when
    the path has no component to look up. *)
Fixpoint Parse_loop_files (dsk : gmap Z Block) (directory : Directory)
    (comps : list string) : list OpenFile :=
  match comps with
  | [] => []
  | c :: rest =>
      let sector := Directory.Find directory c in
      if decide (sector = -1) then []
      else
        let file := Storage.Open dsk sector in
        file ::
          Parse_loop_files dsk (Storage.Directory_FetchFrom directory file dsk)
            rest
  end.

Definition Parse_files (path : string) (create : bool) (s : State)
  : list OpenFile :=
  let comps :=
    take (length (tokens path) - (if create then 1 else 0)) (tokens path) in
  match comps with
  | [] => []
  | _ => directoryFile s :: Parse_loop_files (disk s) (root_directory s) comps
  end.

(** A directory file long enough for the whole table: sectors and records
    have a size, the file has the [DirectoryFileSize] bytes of a table at
    least, so that [WriteAt] and [ReadAt], which stop at the length of the
    file, move the whole table, and its data sectors differ from one another
    and cover its bytes. *)
Definition holds_table (file : OpenFile) : Prop :=
  NoDup (dataSectors (hdr file)) ∧
  0 < SectorSize ∧ 0 < DirectoryEntrySize ∧
  DirectoryFileSize ≤ numBytes (hdr file) ∧
  numBytes (hdr file) ≤
    SectorSize * Z.of_nat (length (dataSectors (hdr file))).

(** The file holds a table on the disk, laid out as [WriteBack] lays one
    out: its sectors provide the records of a whole table, and writing that
    table back would change none of them. *)
Definition has_table (file : OpenFile) (dsk : gmap Z Block) : Prop :=
  let d :=
    mkDirectory
      (take NumDirEntries
         (read_chunks Storage.get_entries (dataSectors (hdr file)) dsk)) in
  Directory.tableSize d = NumDirEntries ∧
  Forall (λ x, Storage.Directory_WriteBack d file dsk !! x = dsk !! x)
    (dataSectors (hdr file)).

(** The same for the bitmap file: long enough for one bit per sector, in
    sectors that differ from one another and cover its bytes; and its
    sectors hold that many bits on the disk. *)
Definition holds_bitmap (file : OpenFile) : Prop :=
  NoDup (dataSectors (hdr file)) ∧
  0 < SectorSize ∧
  Z.of_nat NumSectors ≤ BitsInByte * numBytes (hdr file) ∧
  numBytes (hdr file) ≤
    SectorSize * Z.of_nat (length (dataSectors (hdr file))).

Definition has_bitmap (file : OpenFile) (dsk : gmap Z Block) : Prop :=
  (NumSectors ≤
   length (read_chunks Storage.get_bits (dataSectors (hdr file)) dsk))%nat.

(** The layout under which an operation on the name [path] may write back
    the table of [parent] and the bitmap: the parent file and every file
    path resolution looks a component up in are long enough for a table and
    hold one; the bitmap file is long enough for the bitmap and holds one;
    none of the sectors the resolution of [path] reads is a data sector of
    the parent or of the bitmap file; these two files share no data sector;
    and all these sectors are marked in the bitmap on the disk. *)
Definition safe_to_update (path : string) (parent : OpenFile) (s : State)
  : Prop :=
  (holds_table parent ∧ has_table parent (disk s)) ∧
  Forall (λ file, holds_table file ∧ has_table file (disk s))
    (Parse_files path true s) ∧
  (holds_bitmap (freeMapFile s) ∧ has_bitmap (freeMapFile s) (disk s)) ∧
  Forall (λ x, (x ∉ dataSectors (hdr parent)) ∧
               (x ∉ dataSectors (hdr (freeMapFile s))))
    (Parse_reads path true s) ∧
  Forall (λ x, x ∉ dataSectors (hdr (freeMapFile s)))
    (dataSectors (hdr parent)) ∧
  Forall (λ x, Bitmap.Test (load_freeMap s) x = true)
    (Parse_reads path true s ++ dataSectors (hdr parent) ++
     dataSectors (hdr (freeMapFile s))).

Global Instance holds_table_dec file : Decision (holds_table file).
Proof. unfold holds_table. apply _. Defined.

Global Instance has_table_dec file dsk : Decision (has_table file dsk).
Proof. unfold has_table. cbn zeta. apply _. Defined.

Global Instance holds_bitmap_dec file : Decision (holds_bitmap file).
Proof. unfold holds_bitmap. apply _. Defined.

Global Instance has_bitmap_dec file dsk : Decision (has_bitmap file dsk).
Proof. unfold has_bitmap. apply _. Defined.

Global Instance safe_to_update_dec path parent s :
  Decision (safe_to_update path parent s).
Proof. unfold safe_to_update. apply _. Defined.

End resolution.
End Resolution.

(** ** More of the concrete machine *)

Module ReferenceInputs.
Import Reference.
Local Existing Instance reference_config.

(** A table of two slots with the directory "a" in the first. *)
Definition one_directory : Directory :=
  mkDirectory [mkEntry true true 5 "a"; Directory.blank].

(** A file of one data sector. *)
Definition one_sector_file : OpenFile := mkOpenFile (mkHeader 48 [7]) 0.

(** The reference states after [Create("/a/b/g.txt", 10)], after
    [Remove("/a/b/f.txt")], and the formatted disk after
    [CreateDirectory("/d")]. *)
Definition s1_created : State :=
  final_state (FileSystem.Create "/a/b/g.txt" 10 s1).

Definition s1_removed : State :=
  final_state (FileSystem.Remove "/a/b/f.txt" s1).

Definition s0_with_d : State :=
  final_state (FileSystem.CreateDirectory "/d" s0).

End ReferenceInputs.

(** * Properties *)

(** ** C strings *)

Module CStringFacts.
Import CString.

Lemma code_inj (a b : ascii) : code a = code b → a = b.
Proof.
  unfold code. intros E. apply Nat2Z.inj in E.
  rewrite <- (ascii_nat_embedding a), <- (ascii_nat_embedding b).
  by rewrite E.
Qed.

Lemma code_0 (a : ascii) : code a = 0 ↔ a = NUL.
Proof.
  split; [|by intros ->]. intros E. by apply code_inj.
Qed.

(** [strncmp] gives [0] exactly when [strncpy] copies the same characters. *)
Lemma strncmp_0_iff (a b : string) (n : nat) :
  strncmp a b n = 0 ↔ strncpy a n = strncpy b n.
Proof.
  revert a b. induction n as [|n IH]; intros a b; simpl; [done|].
  destruct a as [|ca a], b as [|cb b]; simpl.
  - done.
  - case_decide as E.
    + subst cb. done.
    + split; [|done]. intros E'. destruct E. apply code_0. lia.
  - case_decide as E.
    + subst ca. done.
    + split; [|done]. intros E'. destruct E. by apply code_0.
  - destruct (decide (ca = cb)) as [->|Hne].
    + destruct (decide (cb = NUL)); [done|].
      rewrite IH. split; [by intros ->|]. by intros [= ->].
    + split.
      * intros E. destruct Hne. apply code_inj. lia.
      * destruct (decide (ca = NUL)) as [->|], (decide (cb = NUL)) as [->|];
          try done. intros [= ? ?]. done.
Qed.

Lemma strncpy_idemp (a : string) (n : nat) :
  strncpy (strncpy a n) n = strncpy a n.
Proof.
  revert a. induction n as [|n IH]; intros [|c a]; simpl; try done.
  case_decide; simpl; [done|]. case_decide; [done|]. by rewrite IH.
Qed.

Lemma strncmp_refl (a : string) (n : nat) : strncmp a a n = 0.
Proof. by apply strncmp_0_iff. Qed.

(** Comparing against a copied name is comparing against the name. *)
Lemma strncmp_strncpy_r (a b : string) (n : nat) :
  strncmp a (strncpy b n) n = 0 ↔ strncmp a b n = 0.
Proof. by rewrite !strncmp_0_iff, strncpy_idemp. Qed.

Lemma strncmp_strncpy_l (a b : string) (n : nat) :
  strncmp (strncpy a n) b n = 0 ↔ strncmp a b n = 0.
Proof. by rewrite !strncmp_0_iff, strncpy_idemp. Qed.

Lemma strncmp_sym (a b : string) (n : nat) :
  strncmp a b n = 0 ↔ strncmp b a n = 0.
Proof. rewrite !strncmp_0_iff. split; by intros ->. Qed.

Lemma strncmp_trans (a b c : string) (n : nat) :
  strncmp a b n = 0 → strncmp b c n = 0 → strncmp a c n = 0.
Proof. rewrite !strncmp_0_iff. by intros -> ->. Qed.

Lemma strncpy_short (a : string) (n : nat) :
  (strlen a ≤ n)%nat → strncpy a n = c_str a.
Proof.
  unfold strlen. revert n. induction a as [|c a IH]; intros [|n]; simpl; try done.
  - case_decide; simpl; [done|lia].
  - case_decide; simpl; [done|]. intros Hle. rewrite IH; [done|lia].
Qed.

End CStringFacts.

(** ** The directory table *)

Module DirectoryFacts.
Section directory_facts.
Context `{Config}.
Import CString CStringFacts Directory.

Implicit Types (d : Directory) (nm : string) (e : DirectoryEntry).

Lemma FindIndex_None d nm :
  list_find (matches nm) (table d) = None → FindIndex d nm = -1.
Proof. unfold FindIndex. by intros ->. Qed.

Lemma FindIndex_Some d nm i e :
  list_find (matches nm) (table d) = Some (i, e) →
  FindIndex d nm = Z.of_nat i ∧ entry d (FindIndex d nm) = e.
Proof.
  unfold FindIndex, entry. intros Hf. rewrite Hf.
  apply list_find_Some in Hf as (Hl & _ & _).
  by rewrite Nat2Z.id, Hl.
Qed.

Lemma no_match_find d nm :
  (∀ e, e ∈ table d → ¬ matches nm e) →
  list_find (matches nm) (table d) = None.
Proof. intros Hno. apply list_find_None, Forall_forall. exact Hno. Qed.

Lemma some_match_find d nm e :
  e ∈ table d → matches nm e →
  ∃ i e', list_find (matches nm) (table d) = Some (i, e').
Proof.
  intros Hin Hm.
  destruct (list_find_elem_of (matches nm) _ _ Hin Hm) as [[i e'] Hf]. eauto.
Qed.

(** [Add] when the name is present. *)
Lemma Add_present d nm newSector dir e :
  e ∈ table d → matches nm e → Add d nm newSector dir = (false, d).
Proof.
  intros Hin Hm. destruct (some_match_find d nm e Hin Hm) as (i & e' & Hf).
  apply FindIndex_Some in Hf as [Hi _].
  unfold Add. rewrite Hi. case_decide; [done|lia].
Qed.

(** [Add] when the name is absent and [i] is the first unused slot. *)
Lemma Add_first_unused d nm newSector dir i e :
  (∀ e, e ∈ table d → ¬ matches nm e) →
  list_find unused (table d) = Some (i, e) →
  Add d nm newSector dir =
    (true, mkDirectory (<[i := mkEntry true dir newSector
                               (strncpy nm FileNameMaxLen)]> (table d))).
Proof.
  intros Hno Hu. unfold Add.
  rewrite (FindIndex_None d nm (no_match_find d nm Hno)).
  case_decide; [done|]. by rewrite Hu.
Qed.

(** [Add] when the name is absent and every slot is in use. *)
Lemma Add_full d nm newSector dir :
  (∀ e, e ∈ table d → inUse e = true) →
  Add d nm newSector dir = (false, d).
Proof.
  intros Hfull. unfold Add. case_decide; [done|].
  assert (list_find unused (table d) = None) as ->; [|done].
  apply list_find_None, Forall_forall. intros e Hin Hu.
  unfold unused in Hu. rewrite (Hfull e Hin) in Hu. done.
Qed.

Lemma Add_succeeds d nm newSector dir e :
  (∀ e, e ∈ table d → ¬ matches nm e) →
  e ∈ table d → inUse e = false →
  (Add d nm newSector dir).1 = true.
Proof.
  intros Hno Hin Hu.
  destruct (list_find_elem_of unused _ _ Hin Hu) as [[i e'] Hf].
  by rewrite (Add_first_unused d nm newSector dir i e' Hno Hf).
Qed.

(** [Remove] when [i] is the first matching slot. *)
Lemma Remove_found d nm i e :
  list_find (matches nm) (table d) = Some (i, e) →
  Remove d nm =
    (true, mkDirectory (<[i := mkEntry false false (sector e) (name e)]> (table d))).
Proof.
  intros Hf. unfold Remove. destruct (FindIndex_Some d nm i e Hf) as [Hi He].
  rewrite He. rewrite Hi. case_decide; [lia|]. by rewrite Nat2Z.id.
Qed.

Lemma Remove_absent d nm :
  (∀ e, e ∈ table d → ¬ matches nm e) → Remove d nm = (false, d).
Proof.
  intros Hno. unfold Remove.
  rewrite (FindIndex_None d nm (no_match_find d nm Hno)). done.
Qed.

(** The shape of the result of [Add] and of [Remove]. *)
Lemma Add_cases d nm newSector dir :
  Add d nm newSector dir = (false, d) ∨
  ∃ i e, (∀ e, e ∈ table d → ¬ matches nm e) ∧
    table d !! i = Some e ∧ inUse e = false ∧
    Add d nm newSector dir =
      (true, mkDirectory (<[i := mkEntry true dir newSector
                                 (strncpy nm FileNameMaxLen)]> (table d))).
Proof.
  destruct (list_find (matches nm) (table d)) as [[i e]|] eqn:Hf.
  - left. apply list_find_Some in Hf as (Hl & Hm & _).
    eapply Add_present; [|done]. by eapply list_elem_of_lookup_2.
  - assert (∀ e, e ∈ table d → ¬ matches nm e) as Hno.
    { apply list_find_None in Hf. by apply Forall_forall. }
    destruct (list_find unused (table d)) as [[i e]|] eqn:Hu.
    + right. exists i, e. split; [done|].
      pose proof Hu as (Hl & Hun & _)%list_find_Some.
      split_and!; [done..|]. by apply (Add_first_unused d nm newSector dir i e).
    + left. apply Add_full. apply list_find_None in Hu.
      intros e Hin. rewrite Forall_forall in Hu. specialize (Hu e Hin).
      unfold unused in Hu. by destruct (inUse e).
Qed.

Lemma Remove_cases d nm :
  Remove d nm = (false, d) ∨
  ∃ i e, table d !! i = Some e ∧ matches nm e ∧
    Remove d nm =
      (true, mkDirectory (<[i := mkEntry false false (sector e) (name e)]> (table d))).
Proof.
  destruct (list_find (matches nm) (table d)) as [[i e]|] eqn:Hf.
  - right. exists i, e. pose proof Hf as (Hl & Hm & _)%list_find_Some.
    split_and!; [done..|]. by apply Remove_found.
  - left. apply Remove_absent. apply list_find_None in Hf.
    by apply Forall_forall.
Qed.

Lemma added_no_match (prev : list (string * Z * bool)) m nm :
  strncpy nm FileNameMaxLen ∉ (key <$> prev) →
  ∀ e, e ∈ (added <$> prev) ++ replicate m blank → ¬ matches nm e.
Proof.
  intros Hfresh e [Hin|Hin]%elem_of_app [Hu Hm].
  - apply list_elem_of_fmap in Hin as (it & -> & Hit). simpl in Hm.
    rewrite strncmp_0_iff, strncpy_idemp in Hm.
    apply Hfresh, list_elem_of_fmap. exists it. unfold key. by rewrite Hm.
  - apply elem_of_replicate in Hin as [-> _]. done.
Qed.

Lemma Add_fill (prev : list (string * Z * bool)) m it :
  key it ∉ (key <$> prev) →
  Add (mkDirectory ((added <$> prev) ++ replicate (S m) blank)) it.1.1 it.1.2 it.2 =
    (true, mkDirectory ((added <$> prev ++ [it]) ++ replicate m blank)).
Proof.
  intros Hfresh.
  rewrite (Add_first_unused _ _ _ _ (length prev) blank).
  - f_equal. f_equal. cbn [table].
    rewrite insert_app_r_alt by (rewrite length_fmap; lia).
    rewrite length_fmap, Nat.sub_diag. simpl.
    rewrite fmap_app, <- app_assoc. done.
  - cbn [table]. by apply added_no_match.
  - cbn [table]. apply list_find_Some. split_and!.
    + rewrite lookup_app_r by (rewrite length_fmap; lia).
      by rewrite length_fmap, Nat.sub_diag.
    + unfold unused; done.
    + intros j y Hj Hlt. rewrite lookup_app_l in Hj by (rewrite length_fmap; lia).
      rewrite list_lookup_fmap in Hj. destruct (prev !! j); simplify_eq/=.
      unfold unused; done.
Qed.

Lemma AddAll_fill (items prev : list (string * Z * bool)) (m : nat) :
  NoDup (key <$> prev ++ items) → (length items ≤ m)%nat →
  AddAll (mkDirectory ((added <$> prev) ++ replicate m blank)) items =
    (replicate (length items) true,
     mkDirectory ((added <$> prev ++ items) ++ replicate (m - length items) blank)).
Proof.
  revert prev m. induction items as [|it rest IH]; intros prev m Hnd Hlen.
  - simpl. by rewrite app_nil_r, Nat.sub_0_r.
  - destruct m as [|m]; [simpl in Hlen; lia|].
    assert (key it ∉ key <$> prev) as Hfresh.
    { rewrite fmap_app in Hnd. apply NoDup_app in Hnd as (_ & Hd & _).
      intros Hin. apply (Hd _ Hin). rewrite fmap_cons. apply list_elem_of_here. }
    pose proof (Add_fill prev m it Hfresh) as Hadd.
    destruct it as [[nm sec] dir]. cbn [AddAll]. cbn [fst snd] in Hadd. rewrite Hadd.
    rewrite (IH (prev ++ [(nm, sec, dir)]) m).
    + simpl. by rewrite <- app_assoc.
    + by rewrite <- app_assoc.
    + simpl in Hlen. lia.
Qed.

(** C4: Add returns false and leaves the table as it is when an entry in use
    matches the name under the FileNameMaxLen-character comparison, and also
    when no entry matches and no slot is unused; otherwise it fills the first
    unused slot with the name, the sector and the directory flag and returns
    true. Hence, of C+1 names that differ under the comparison, added to an
    empty table of capacity C, the first C are accepted and the last one is
    refused, and once any of the entries is removed the refused Add succeeds. *)
Theorem Directory_Add_first_unused_slot :
  (∀ d nm newSector dir,
     ((∃ e, e ∈ table d ∧ inUse e = true ∧
            strncmp (name e) nm FileNameMaxLen = 0) →
      Add d nm newSector dir = (false, d)) ∧
     (∀ i e,
        (∀ e', e' ∈ table d → inUse e' = true →
               strncmp (name e') nm FileNameMaxLen ≠ 0) →
        table d !! i = Some e → inUse e = false →
        (∀ j e', (j < i)%nat → table d !! j = Some e' → inUse e' = true) →
        Add d nm newSector dir =
          (true, mkDirectory (<[i := mkEntry true dir newSector
                                     (strncpy nm FileNameMaxLen)]> (table d)))) ∧
     strncmp (strncpy nm FileNameMaxLen) nm FileNameMaxLen = 0 ∧
     ((strlen nm ≤ FileNameMaxLen)%nat → strncpy nm FileNameMaxLen = c_str nm) ∧
     ((∀ e, e ∈ table d → inUse e = true) →
      Add d nm newSector dir = (false, d))) ∧
  (∀ (C : nat) (items : list (string * Z * bool)) (extra : string * Z * bool),
     length items = C →
     NoDup ((λ it, strncpy it.1.1 FileNameMaxLen) <$> items ++ [extra]) →
     (AddAll (new C) items).1 = replicate C true ∧
     Add (AddAll (new C) items).2 extra.1.1 extra.1.2 extra.2 =
       (false, (AddAll (new C) items).2) ∧
     ∀ victim, victim ∈ items →
       (Remove (AddAll (new C) items).2 victim.1.1).1 = true ∧
       (Add (Remove (AddAll (new C) items).2 victim.1.1).2
          extra.1.1 extra.1.2 extra.2).1 = true).
Proof.
  split.
  - intros d nm newSector dir. split_and!.
    + intros (e & Hin & Hu & Hm). by apply (Add_present d nm newSector dir e).
    + intros i e Hno Hl Hu Hfirst.
      apply (Add_first_unused d nm newSector dir i e).
      * intros e' Hin [Hu' Hm']. by apply (Hno e').
      * apply list_find_Some. split_and!; [done..|].
        intros j y Hj Hlt Huy. unfold unused in Huy.
        rewrite (Hfirst j y Hlt Hj) in Huy. done.
    + apply strncmp_strncpy_l, strncmp_refl.
    + apply strncpy_short.
    + apply Add_full.
  - intros C items extra Hlen Hnd.
    assert (NoDup (key <$> items)) as Hnd'.
    { rewrite fmap_app in Hnd. by apply NoDup_app in Hnd as (? & _ & _). }
    pose proof (AddAll_fill items [] C Hnd' ltac:(lia)) as Hfill.
    rewrite Hlen, Nat.sub_diag in Hfill. simpl in Hfill.
    rewrite app_nil_r in Hfill.
    change (mkDirectory (replicate C blank)) with (new C) in Hfill.
    rewrite Hfill. cbn [fst snd].
    assert (key extra ∉ key <$> items) as Hfresh.
    { rewrite fmap_app in Hnd. apply NoDup_app in Hnd as (_ & Hd & _).
      intros Hin. apply (Hd _ Hin). apply list_elem_of_here. }
    assert (∀ e, e ∈ added <$> items → ¬ matches extra.1.1 e) as Hno.
    { intros e Hin. apply (added_no_match items 0 extra.1.1 Hfresh).
      simpl. by rewrite app_nil_r. }
    split_and!; [done| |].
    + apply Add_full. cbn [table]. intros e Hin.
      apply list_elem_of_fmap in Hin as (it & -> & _). done.
    + intros victim Hvin.
      assert (added victim ∈ added <$> items) as Hain.
      { apply list_elem_of_fmap. eauto. }
      assert (matches victim.1.1 (added victim)) as Hvm.
      { split; [done|]. simpl. apply strncmp_strncpy_l, strncmp_refl. }
      destruct (some_match_find (mkDirectory (added <$> items)) victim.1.1
                  (added victim) Hain Hvm) as (i & e & Hf).
      rewrite (Remove_found _ _ i e Hf). cbn [fst snd]. split; [done|].
      apply list_find_Some in Hf as (Hl & _ & _). cbn [table] in Hl.
      apply (Add_succeeds _ _ _ _ (mkEntry false false (sector e) (name e))).
      * cbn [table]. intros e' Hin' Hm'.
        apply list_elem_of_lookup in Hin' as (j & Hj).
        apply list_lookup_insert_Some in Hj as [(-> & <- & _)|(Hne & Hj)].
        -- by destruct Hm'.
        -- apply (Hno e'); [|done]. by eapply list_elem_of_lookup_2.
      * cbn [table]. apply list_elem_of_lookup. exists i.
        apply list_lookup_insert_eq. by eapply lookup_lt_Some.
      * done.
Qed.

(** C10: when Remove finds the name, the slot found keeps its name and its
    sector and has both flags false afterwards, and every other slot is as
    before; when no entry matches, Remove returns false and the table is as
    before. *)
Theorem Directory_Remove_frame (d : Directory) (nm : string) :
  (∀ i e,
     table d !! i = Some e → inUse e = true →
     strncmp (name e) nm FileNameMaxLen = 0 →
     (∀ j e', (j < i)%nat → table d !! j = Some e' →
              ¬ (inUse e' = true ∧ strncmp (name e') nm FileNameMaxLen = 0)) →
     (Remove d nm).1 = true ∧
     table (Remove d nm).2 !! i = Some (mkEntry false false (sector e) (name e)) ∧
     (∀ j, j ≠ i → table (Remove d nm).2 !! j = table d !! j) ∧
     length (table (Remove d nm).2) = length (table d)) ∧
  ((∀ e, e ∈ table d →
         ¬ (inUse e = true ∧ strncmp (name e) nm FileNameMaxLen = 0)) →
   Remove d nm = (false, d)).
Proof.
  split.
  - intros i e Hl Hu Hm Hfirst.
    assert (list_find (matches nm) (table d) = Some (i, e)) as Hf.
    { apply list_find_Some. split_and!; [done|by split|].
      intros j y Hj Hlt. by apply (Hfirst j y). }
    rewrite (Remove_found d nm i e Hf). cbn [fst snd table]. split_and!.
    + done.
    + apply list_lookup_insert_eq. by eapply lookup_lt_Some.
    + intros j Hne. by apply list_lookup_insert_ne.
    + apply length_insert.
  - apply Remove_absent.
Qed.

(** C6: the empty table, Add and Remove keep the names of the entries in use
    pairwise different under the FileNameMaxLen-character comparison, keep
    the capacity, and keep the number of entries in use within it. *)
Theorem Directory_invariant_preserved :
  (∀ size,
     distinct_names (new size) ∧ tableSize (new size) = size ∧
     count (new size) = 0%nat) ∧
  (∀ d nm newSector dir,
     distinct_names d →
     distinct_names (Add d nm newSector dir).2 ∧
     tableSize (Add d nm newSector dir).2 = tableSize d ∧
     (count (Add d nm newSector dir).2 ≤ tableSize d)%nat) ∧
  (∀ d nm,
     distinct_names d →
     distinct_names (Remove d nm).2 ∧
     tableSize (Remove d nm).2 = tableSize d ∧
     (count (Remove d nm).2 ≤ tableSize d)%nat).
Proof.
  assert (∀ d, (count d ≤ tableSize d)%nat) as Hcount.
  { intros d. unfold count, tableSize. apply length_filter. }
  split_and!.
  - intros size. unfold new, tableSize, count, distinct_names. cbn [table].
    split_and!.
    + intros i j ei ej Hi _ _ Hu.
      apply lookup_replicate in Hi as [-> _]. done.
    + apply length_replicate.
    + induction size as [|size IH]; [done|]. simpl.
      rewrite filter_cons_False; [done|]. simpl. done.
  - intros d nm newSector dir Hd.
    destruct (Add_cases d nm newSector dir) as [->|(i & e & Hno & Hl & Hu & ->)];
      cbn [snd]; [by auto|].
    assert (tableSize (mkDirectory (<[i:=mkEntry true dir newSector
               (strncpy nm FileNameMaxLen)]> (table d))) = tableSize d) as Hsz.
    { unfold tableSize. cbn [table]. apply length_insert. }
    split_and!; [|done|by rewrite <- Hsz].
    intros a b ea eb Ha Hb Hne Hua Hub. cbn [table] in Ha, Hb.
    apply list_lookup_insert_Some in Ha as [(-> & <- & _)|(Hai & Ha)];
      apply list_lookup_insert_Some in Hb as [(-> & <- & _)|(Hbi & Hb)].
    + done.
    + cbn [name]. intros Hm. rewrite strncmp_strncpy_l, strncmp_sym in Hm.
      apply (Hno eb); [by eapply list_elem_of_lookup_2|by split].
    + cbn [name]. intros Hm. rewrite strncmp_strncpy_r in Hm.
      apply (Hno ea); [by eapply list_elem_of_lookup_2|by split].
    + by apply (Hd a b).
  - intros d nm Hd.
    destruct (Remove_cases d nm) as [->|(i & e & Hl & Hm & ->)];
      cbn [snd]; [by auto|].
    assert (tableSize (mkDirectory (<[i:=mkEntry false false (sector e) (name e)]>
               (table d))) = tableSize d) as Hsz.
    { unfold tableSize. cbn [table]. apply length_insert. }
    split_and!; [|done|by rewrite <- Hsz].
    intros a b ea eb Ha Hb Hne Hua Hub. cbn [table] in Ha, Hb.
    apply list_lookup_insert_Some in Ha as [(-> & <- & _)|(Hai & Ha)]; [done|].
    apply list_lookup_insert_Some in Hb as [(-> & <- & _)|(Hbi & Hb)]; [done|].
    by apply (Hd a b).
Qed.

End directory_facts.
End DirectoryFacts.

(** ** The bitmap *)

Module BitmapFacts.
Import Bitmap.

Lemma length_Clear (bits : list bool) (which : Z) :
  length (Clear bits which) = length bits.
Proof. unfold Clear. case_decide; [apply length_insert|done]. Qed.

Lemma in_range_insert (bits : list bool) (i : nat) (b : bool) (x : Z) :
  in_range (<[i := b]> bits) x ↔ in_range bits x.
Proof.
  unfold in_range.
  assert (length (<[i := b]> bits) = length bits) as -> by apply length_insert.
  done.
Qed.

Lemma Test_Clear_same (bits : list bool) (which : Z) :
  Test (Clear bits which) which = false.
Proof.
  unfold Test, Clear.
  destruct (decide (in_range bits which)) as [Hr|Hr].
  - rewrite decide_True by (by apply in_range_insert).
    unfold in_range in Hr. rewrite list_lookup_insert_eq by lia. done.
  - by rewrite decide_False.
Qed.

Lemma Test_Clear_false (bits : list bool) (x which : Z) :
  Test bits x = false → Test (Clear bits which) x = false.
Proof.
  destruct (decide (x = which)) as [->|Hne]; [intros _; apply Test_Clear_same|].
  unfold Test, Clear.
  destruct (decide (in_range bits which)) as [Hr|Hr]; [|done].
  destruct (decide (in_range bits x)) as [Hx|Hx].
  - rewrite decide_True by (by apply in_range_insert).
    unfold in_range in Hr, Hx. rewrite list_lookup_insert_ne by lia. done.
  - intros _. rewrite decide_False; [done|]. by rewrite in_range_insert.
Qed.

Lemma Test_foldl_Clear_false (secs : list Z) (bits : list bool) (x : Z) :
  Test bits x = false → Test (foldl Clear bits secs) x = false.
Proof.
  revert bits. induction secs as [|y secs IH]; intros bits Hx; simpl; [done|].
  apply IH. by apply Test_Clear_false.
Qed.

Lemma Test_foldl_Clear (secs : list Z) (bits : list bool) (x : Z) :
  x ∈ secs → Test (foldl Clear bits secs) x = false.
Proof.
  revert bits. induction secs as [|y secs IH]; intros bits Hin; simpl.
  - by apply elem_of_nil in Hin.
  - apply elem_of_cons in Hin as [->|Hin]; [|by apply IH].
    apply Test_foldl_Clear_false, Test_Clear_same.
Qed.

End BitmapFacts.

(** ** Path resolution *)

Module ParseFacts.
Section parse_facts.
Context `{Config}.
Import CString Directory FileSystem.

Lemma Parse_eq (path : string) (create : bool) (s : State) :
  Parse path create s =
    if decide (100 ≤ strlen path)%nat then Undefined
    else if decide (10 < length (tokens path))%nat then Undefined
    else
      Returns
        (Parse_loop (disk s) (root_directory s) (root_handle s)
           (take (length (tokens path) - (if create then 1 else 0)) (tokens path)),
         tokens path, length (tokens path)) s.
Proof.
  unfold Parse, mbind, M_bind, get. repeat case_decide; done.
Qed.

Lemma Parse_in_bounds (path : string) (create : bool) (s : State) :
  in_bounds path →
  Parse path create s =
    Returns
      (Parse_loop (disk s) (root_directory s) (root_handle s)
         (take (length (tokens path) - (if create then 1 else 0)) (tokens path)),
       tokens path, length (tokens path)) s.
Proof.
  intros [Hlen Hcnt]. rewrite Parse_eq. repeat case_decide; (done || lia).
Qed.

(** Whatever [Parse] returns, it returns in the state it started from. *)
Lemma Parse_Returns (path : string) (create : bool) (s s' : State) r :
  Parse path create s = Returns r s' →
  s' = s ∧ in_bounds path ∧
  r = (Parse_loop (disk s) (root_directory s) (root_handle s)
         (take (length (tokens path) - (if create then 1 else 0)) (tokens path)),
       tokens path, length (tokens path)).
Proof.
  rewrite Parse_eq. unfold in_bounds. repeat case_decide; try done.
  intros [= <- <-]. split_and!; (done || lia).
Qed.






End parse_facts.
End ParseFacts.

(** Unfolding the monad of the file-system operations. *)
Ltac run :=
  unfold mbind, M_bind, mret, M_ret, get, undefined, abort, out_of_fuel,
    FileSystem.hdr_WriteBack, FileSystem.directory_WriteBack,
    FileSystem.freeMap_WriteBack; cbn beta iota.

(** ** Create, Open, Remove *)

Module FileSystemFacts.
Section filesys_facts.
Context `{Config}.
Import CString Directory FileSystem ParseFacts.

Lemma folder_last_Returns folder count s r s' :
  folder_last folder count s = Returns r s' →
  s' = s ∧ ∃ k, count = S k ∧ folder !! k = Some r.
Proof.
  unfold folder_last. destruct count as [|k]; [done|].
  destruct (folder !! k) eqn:Hk; [|done]. intros [= <- <-]. eauto.
Qed.


(** Every way [Create] returns: [false] in the state it started from, or
    [true] after the three write-backs. *)
Lemma Create_Returns nm initialSize s r s' :
  Create nm initialSize s = Returns r s' →
  (r = false ∧ s' = s) ∨
  (∃ openDirectoryFile folder count last sector freeMap1 directory1 hdr freeMap2,
     Parse nm true s = Returns (Some openDirectoryFile, folder, count) s ∧
     folder_last folder count s = Returns last s ∧
     Find (fetch_directory openDirectoryFile s) last = -1 ∧
     Bitmap.FindAndSet (load_freeMap s) = (sector, freeMap1) ∧
     sector ≠ -1 ∧
     Add (fetch_directory openDirectoryFile s) last sector false =
       (true, directory1) ∧
     FileHdr.Allocate freeMap1 initialSize = (true, hdr, freeMap2) ∧
     r = true ∧
     s' = mkState
            (Storage.Bitmap_WriteBack freeMap2 (freeMapFile s)
               (Storage.Directory_WriteBack directory1 openDirectoryFile
                  (FileHdr.WriteBack hdr sector (disk s))))
            (freeMapFile s) (directoryFile s)
            (writes s ++ [HeaderWrite sector hdr;
                          DirectoryWrite openDirectoryFile directory1;
                          BitmapWrite (freeMapFile s) freeMap2])).
Proof.
  unfold Create. run.
  destruct (Parse nm true s) as [[[odf folder] count] s0| | |] eqn:HP; try done.
  pose proof (Parse_Returns _ _ _ _ _ HP) as (-> & _ & _).
  destruct odf as [odf|]; [|intros [= <- <-]; left; split; reflexivity].
  destruct (folder_last folder count s) as [last s0| | |] eqn:HL; try done.
  pose proof (folder_last_Returns _ _ _ _ _ HL) as (-> & _).
  fold (fetch_directory odf s).
  case_decide as HF; [intros [= <- <-]; left; split; reflexivity|].
  destruct (Bitmap.FindAndSet (load_freeMap s)) as [sector freeMap1] eqn:HS.
  case_decide as Hsec; [intros [= <- <-]; left; split; reflexivity|].
  destruct (Add (fetch_directory odf s) last sector false)
    as [added directory1] eqn:HA.
  destruct added; simpl; [|intros [= <- <-]; left; split; reflexivity].
  destruct (FileHdr.Allocate freeMap1 initialSize)
    as [[ok hdr] freeMap2] eqn:HAl.
  destruct ok; simpl; [|intros [= <- <-]; left; split; reflexivity].
  intros [= <- <-]. right.
  exists odf, folder, count, last, sector, freeMap1, directory1, hdr, freeMap2.
  split_and!; try done.
  by rewrite <- !app_assoc.
Qed.

(** [Create] once the parent is resolved and the final name read. *)
Lemma Create_steps nm initialSize s odf folder count last :
  Parse nm true s = Returns (Some odf, folder, count) s →
  folder_last folder count s = Returns last s →
  Create nm initialSize s =
    if decide (Find (fetch_directory odf s) last ≠ -1) then Returns false s
    else
      let found := Bitmap.FindAndSet (load_freeMap s) in
      if decide (found.1 = -1) then Returns false s
      else
        let added := Add (fetch_directory odf s) last found.1 false in
        if negb added.1 then Returns false s
        else
          let allocated := FileHdr.Allocate found.2 initialSize in
          if negb allocated.1.1 then Returns false s
          else
            Returns true
              (mkState
                 (Storage.Bitmap_WriteBack allocated.2 (freeMapFile s)
                    (Storage.Directory_WriteBack added.2 odf
                       (FileHdr.WriteBack allocated.1.2 found.1 (disk s))))
                 (freeMapFile s) (directoryFile s)
                 (writes s ++ [HeaderWrite found.1 allocated.1.2;
                               DirectoryWrite odf added.2;
                               BitmapWrite (freeMapFile s) allocated.2])).
Proof.
  intros HP HL. unfold Create. run. rewrite HP, HL.
  fold (fetch_directory odf s).
  case_decide; [done|].
  destruct (Bitmap.FindAndSet (load_freeMap s)) as [sector freeMap1].
  cbn [fst snd]. case_decide; [done|].
  destruct (Add (fetch_directory odf s) last sector false) as [added directory1].
  cbn [fst snd]. destruct added; [|done].
  destruct (FileHdr.Allocate freeMap1 initialSize) as [[ok hdr] freeMap2].
  cbn [fst snd]. destruct ok; [|done]. simpl.
  by rewrite <- !app_assoc.
Qed.

(** C1: whenever Create returns false, the state it returns in is the state
    it started from: the disk holds what it held and no write-back was
    issued. And Create does return false when the parent does not resolve,
    when the final name is present in the parent table, when the bitmap has
    no free sector for the header, when the table has no free slot, and when
    the bitmap lacks the space for the data. *)
Theorem Create_failure_writes_nothing (nm : string) (initialSize : Z) (s : State) :
  (∀ s', Create nm initialSize s = Returns false s' →
         s' = s ∧ disk s' = disk s ∧ writes s' = writes s) ∧
  (∀ folder count,
     Parse nm true s = Returns (None, folder, count) s →
     Create nm initialSize s = Returns false s) ∧
  (∀ odf folder count last,
     Parse nm true s = Returns (Some odf, folder, count) s →
     folder_last folder count s = Returns last s →
     FindIndex (fetch_directory odf s) last ≠ -1 ∨
     (Bitmap.FindAndSet (load_freeMap s)).1 = -1 ∨
     (∀ e, e ∈ table (fetch_directory odf s) → inUse e = true) ∨
     (FileHdr.Allocate (Bitmap.FindAndSet (load_freeMap s)).2
        initialSize).1.1 = false →
     Create nm initialSize s = Returns false s).
Proof.
  split_and!.
  - intros s' Hc. apply Create_Returns in Hc as [[_ ->]|Hc]; [done|].
    destruct Hc as (? & ? & ? & ? & ? & ? & ? & ? & ? & Hc).
    destruct Hc as (_ & _ & _ & _ & _ & _ & _ & Hr & _). done.
  - intros folder count HP. unfold Create. run. by rewrite HP.
  - intros odf folder count last HP HL Hcause.
    rewrite (Create_steps nm initialSize s odf folder count last HP HL).
    case_decide as HF; [done|]. cbn zeta.
    case_decide as HS; [done|].
    destruct (Add (fetch_directory odf s) last
                (Bitmap.FindAndSet (load_freeMap s)).1 false).1 eqn:HA;
      [|done]. cbn [negb].
    destruct (FileHdr.Allocate (Bitmap.FindAndSet (load_freeMap s)).2
                initialSize).1.1 eqn:HAl; [|done].
    exfalso. destruct Hcause as [Hc|[Hc|[Hc|Hc]]]; try done.
    + unfold Add in HA. case_decide; [done|]. done.
    + by rewrite (DirectoryFacts.Add_full _ _ _ _ Hc) in HA.
Qed.

(** C3: when Create returns true it has issued exactly three write-backs, in
    this order: the new header to the sector taken for it, the parent table
    to the parent's file, the bitmap to the bitmap file; the disk is the
    disk it started from with these three writes applied in that order. *)
Theorem Create_commit_order (nm : string) (initialSize : Z) (s s' : State) :
  Create nm initialSize s = Returns true s' →
  ∃ openDirectoryFile folder count final sector freeMap1 directory hdr freeMap,
    Parse nm true s = Returns (Some openDirectoryFile, folder, count) s ∧
    folder_last folder count s = Returns final s ∧
    Bitmap.FindAndSet (load_freeMap s) = (sector, freeMap1) ∧
    Add (fetch_directory openDirectoryFile s) final sector false =
      (true, directory) ∧
    FileHdr.Allocate freeMap1 initialSize = (true, hdr, freeMap) ∧
    writes s' =
      writes s ++ [HeaderWrite sector hdr;
                   DirectoryWrite openDirectoryFile directory;
                   BitmapWrite (freeMapFile s) freeMap] ∧
    length (writes s') = (length (writes s) + 3)%nat ∧
    last (writes s') = Some (BitmapWrite (freeMapFile s) freeMap) ∧
    disk s' =
      Storage.Bitmap_WriteBack freeMap (freeMapFile s)
        (Storage.Directory_WriteBack directory openDirectoryFile
           (FileHdr.WriteBack hdr sector (disk s))).
Proof.
  intros Hc. apply Create_Returns in Hc as [[? _]|Hc]; [done|].
  destruct Hc as (odf & folder & count & final & sector & freeMap1 & directory1
                  & hdr & freeMap2 & HP & HL & _ & HS & _ & HA & HAl & _ & ->).
  exists odf, folder, count, final, sector, freeMap1, directory1, hdr, freeMap2.
  cbn [writes disk]. split_and!; try done.
  - rewrite length_app. simpl. done.
  - by rewrite last_app.
Qed.

(** [Remove] once the parent is resolved and the final name read. *)
Lemma Remove_steps nm s odf folder count last :
  Parse nm true s = Returns (Some odf, folder, count) s →
  folder_last folder count s = Returns last s →
  Remove nm s =
    let directory := fetch_directory odf s in
    let sector := Find directory last in
    if decide (sector = -1) then Returns false s
    else
      let freeMap :=
        Bitmap.Clear
          (FileHdr.Deallocate (FileHdr.FetchFrom (disk s) sector)
             (load_freeMap s)) sector in
      Returns true
        (mkState
           (Storage.Directory_WriteBack (Directory.Remove directory last).2 odf
              (Storage.Bitmap_WriteBack freeMap (freeMapFile s) (disk s)))
           (freeMapFile s) (directoryFile s)
           (writes s ++ [BitmapWrite (freeMapFile s) freeMap;
                         DirectoryWrite odf (Directory.Remove directory last).2])).
Proof.
  intros HP HL. unfold FileSystem.Remove. run. rewrite HP, HL.
  fold (fetch_directory odf s). cbn zeta.
  case_decide; [done|]. simpl. by rewrite <- !app_assoc.
Qed.

(** C5: Remove resolves the parent. When the parent does not resolve, or
    the final name is absent from the parent table, it returns false in the
    state it started from. When the name is present (with a sector other
    than the -1 that Find returns for an absent name), it returns true,
    having written back, first, the bitmap in which the data sectors of the
    file's header and the header's own sector are clear, then the parent
    table in which the entry found is no longer in use. *)
Theorem Remove_deallocates_and_persists (nm : string) (s : State) :
  ∀ result folder count,
    Parse nm true s = Returns (result, folder, count) s →
    (result = None → FileSystem.Remove nm s = Returns false s) ∧
    (∀ odf final,
       result = Some odf →
       folder_last folder count s = Returns final s →
       (FindIndex (fetch_directory odf s) final = -1 →
        FileSystem.Remove nm s = Returns false s) ∧
       (FindIndex (fetch_directory odf s) final ≠ -1 →
        Find (fetch_directory odf s) final ≠ -1 →
        ∃ fileHdr freeMap directory,
          fileHdr =
            FileHdr.FetchFrom (disk s) (Find (fetch_directory odf s) final) ∧
          freeMap =
            Bitmap.Clear (FileHdr.Deallocate fileHdr (load_freeMap s))
              (Find (fetch_directory odf s) final) ∧
          Directory.Remove (fetch_directory odf s) final = (true, directory) ∧
          (∀ x, x ∈ dataSectors fileHdr → Bitmap.Test freeMap x = false) ∧
          Bitmap.Test freeMap (Find (fetch_directory odf s) final) = false ∧
          inUse (entry directory (FindIndex (fetch_directory odf s) final)) = false ∧
          FileSystem.Remove nm s =
            Returns true
              (mkState
                 (Storage.Directory_WriteBack directory odf
                    (Storage.Bitmap_WriteBack freeMap (freeMapFile s) (disk s)))
                 (freeMapFile s) (directoryFile s)
                 (writes s ++ [BitmapWrite (freeMapFile s) freeMap;
                               DirectoryWrite odf directory])))).
Proof.
  intros result folder count HP. split.
  - intros ->. unfold FileSystem.Remove. run. by rewrite HP.
  - intros odf final -> HL.
    rewrite (Remove_steps nm s odf folder count final HP HL). cbn zeta.
    split.
    + intros Hi. unfold Find. rewrite Hi.
      destruct (decide (-1 ≠ -1)) as [Hn|_]; [done|]. by rewrite decide_True.
    + intros Hi Hf. rewrite decide_False by done.
      destruct (list_find (matches final) (table (fetch_directory odf s)))
        as [[i e]|] eqn:Hfind;
        [|by rewrite (DirectoryFacts.FindIndex_None _ _ Hfind) in Hi].
      pose proof (DirectoryFacts.Remove_found _ _ _ _ Hfind) as HR.
      destruct (DirectoryFacts.FindIndex_Some _ _ _ _ Hfind) as [HI _].
      eexists _, _, _. split_and!; [reflexivity|reflexivity|exact HR|..].
      * intros x Hx. apply BitmapFacts.Test_Clear_false.
        unfold FileHdr.Deallocate. by apply BitmapFacts.Test_foldl_Clear.
      * apply BitmapFacts.Test_Clear_same.
      * rewrite HI. unfold entry. rewrite Nat2Z.id. cbn [table].
        rewrite list_lookup_insert_eq; [done|].
        apply list_find_Some in Hfind as (Hl & _). by eapply lookup_lt_Some.
      * by rewrite HR.
Qed.

(** C9: when the final component of the path is found in its parent table,
    Open returns a handle on the sector of the entry found, whatever the
    entry's directory flag says, and so for a directory as for a file. *)
Theorem Open_ignores_directory_flag (nm : string) (s : State)
    (odf : OpenFile) (folder : list string) (count : nat) (final : string)
    (i : nat) (e : DirectoryEntry) :
  Parse nm true s = Returns (Some odf, folder, count) s →
  folder_last folder count s = Returns final s →
  FindIndex (fetch_directory odf s) final = Z.of_nat i →
  table (fetch_directory odf s) !! i = Some e →
  0 ≤ sector e →
  inUse e = true ∧
  strncmp (name e) final FileNameMaxLen = 0 ∧
  FileSystem.Open nm s =
    Returns (Some (Storage.Open (disk s) (sector e))) s ∧
  Storage.Open (disk s) (sector e) =
    mkOpenFile (FileHdr.FetchFrom (disk s) (sector e)) 0.
Proof.
  intros HP HL Hi Hl Hsec.
  assert (Find (fetch_directory odf s) final = sector e) as HF.
  { unfold Find. rewrite Hi. rewrite decide_True by lia.
    unfold entry. by rewrite Nat2Z.id, Hl. }
  assert (matches final e) as [Hu Hm].
  { unfold FindIndex in Hi.
    destruct (list_find (matches final) (table (fetch_directory odf s)))
      as [[j e']|] eqn:Hfind; [|lia].
    apply Nat2Z.inj in Hi as ->.
    apply list_find_Some in Hfind as (Hl' & Hm & _).
    rewrite Hl in Hl'. by injection Hl' as ->. }
  split_and!; [done|done| |done].
  unfold FileSystem.Open. run. rewrite HP, HL.
  fold (fetch_directory odf s). rewrite HF. by rewrite decide_True.
Qed.

End filesys_facts.
End FileSystemFacts.

(** ** How the operations end *)

Module OutcomeFacts.
Section outcome_facts.
Context `{Config}.
Import CString Directory FileSystem ParseFacts FileSystemFacts.










(** More fuel only turns [OutOfFuel] into an outcome of the call. *)
Lemma for_loop_more_fuel (b1 b2 : nat → M unit) :
  (∀ i s, with_less_fuel (b1 i s) (b2 i s)) →
  ∀ n i s, with_less_fuel (for_loop b1 i n s) (for_loop b2 i n s).
Proof.
  intros Hb n. induction n as [|n IH]; intros i s; simpl; [by right|].
  unfold mbind, M_bind.
  destruct (Hb i s) as [->| ->]; [by left|].
  destruct (b2 i s) as [[] s1| | |]; try by right. apply IH.
Qed.

Lemma RecurRemoveDirectory_body_more_fuel (r1 r2 : string → M unit) :
  (∀ nm s, with_less_fuel (r1 nm s) (r2 nm s)) →
  ∀ nm s,
    with_less_fuel (RecurRemoveDirectory_body r1 nm s)
      (RecurRemoveDirectory_body r2 nm s).
Proof.
  intros Hr nm s. unfold RecurRemoveDirectory_body. run.
  destruct (Parse nm true s) as [[[odf folder] count] s0| | |]; try by right.
  destruct odf as [odf|]; [|by right].
  destruct (folder_last folder count s0) as [final s1| | |]; try by right.
  case_decide; [|by right].
  match goal with
  | |- with_less_fuel (match for_loop ?b1 0 ?n ?s with _ => _ end)
         (match for_loop ?b2 0 ?n ?s with _ => _ end) =>
      assert (∀ i s, with_less_fuel (b1 i s) (b2 i s)) as Hb;
        [|destruct (for_loop_more_fuel b1 b2 Hb n 0%nat s) as [->| ->]]
  end.
  - intros i s'. case_match; [|by right].
    destruct (child_path _ _ s') as [str s''| | |]; try by right.
    case_match; [by right|]. apply Hr.
  - by left.
  - by right.
Qed.

Lemma RecurRemoveDirectory_more_fuel (fuel : nat) :
  ∀ nm s,
    with_less_fuel (RecurRemoveDirectory fuel nm s)
      (RecurRemoveDirectory (S fuel) nm s).
Proof.
  induction fuel as [|fuel IH]; intros nm s; [by left|].
  cbn [RecurRemoveDirectory]. by apply RecurRemoveDirectory_body_more_fuel.
Qed.

(** Once the recursion has fuel enough to end, more fuel changes nothing. *)
Lemma RecurRemoveDirectory_fuel_enough (fuel k : nat) nm s :
  RecurRemoveDirectory fuel nm s ≠ OutOfFuel →
  RecurRemoveDirectory (k + fuel) nm s = RecurRemoveDirectory fuel nm s.
Proof.
  intros Hne. induction k as [|k IH]; [done|].
  destruct (RecurRemoveDirectory_more_fuel (k + fuel) nm s) as [Ho|Ho].
  - rewrite IH in Ho. done.
  - change (S k + fuel)%nat with (S (k + fuel)). by rewrite <- Ho.
Qed.


(** Whatever its loop over the children wrote, [RecurRemoveDirectory] ends
    by writing back the bitmap it loaded before the loop, less the sectors
    of the directory itself. *)
Lemma RecurRemoveDirectory_writes_the_bitmap_loaded_first
    fuel nm s s' odf folder count final :
  Parse nm true s = Returns (Some odf, folder, count) s →
  folder_last folder count s = Returns final s →
  Find (fetch_directory odf s) final ≠ -1 →
  RecurRemoveDirectory (S fuel) nm s = Returns tt s' →
  ∃ s_loop directory,
    writes s' =
      writes s_loop ++
      [BitmapWrite (freeMapFile s_loop)
         (Bitmap.Clear
            (FileHdr.Deallocate
               (FileHdr.FetchFrom (disk s) (Find (fetch_directory odf s) final))
               (load_freeMap s))
            (Find (fetch_directory odf s) final));
       DirectoryWrite odf directory].
Proof.
  intros HP HL HF. cbn [RecurRemoveDirectory]. unfold RecurRemoveDirectory_body. run. rewrite HP, HL.
  fold (fetch_directory odf s). rewrite decide_True by done.
  destruct (for_loop _ 0 NumDirEntries s) as [[] s_loop| | |]; try done.
  intros [= <-]. eexists s_loop, _. cbn [writes].
  rewrite <- app_assoc. reflexivity.
Qed.

End outcome_facts.
End OutcomeFacts.

(** ** The reference machine *)

Module ReferenceFacts.
Import Reference.
Local Existing Instance reference_config.

(** C2, on the reference machine: after CreateDirectory("/a"),
    CreateDirectory("/a/b"), Create("/a/b/f.txt", 10) and
    RecurRemoveDirectory("/a"), none of the three paths opens and the
    sectors of "/a" are free in the persisted bitmap, but the sectors of
    "/a/b" and of "/a/b/f.txt" are still marked there, although Remove on
    its own frees the sectors of "/a/b/f.txt": each level writes back the
    bitmap it loaded before its children were removed. The recursion needs
    a depth of 3, and any greater depth gives the same result. *)
Theorem RecurRemoveDirectory_leaks_the_sectors_of_children :
  returned populated = Some true ∧
  returned removed = Some tt ∧
  sectors_of "/a" s1 = [15; 16; 17; 18; 19; 20; 21; 22; 23; 24; 25; 26; 27] ∧
  sectors_of "/a/b" s1 = [28; 29; 30; 31; 32; 33; 34; 35; 36; 37; 38; 39; 40] ∧
  sectors_of "/a/b/f.txt" s1 = [41; 42] ∧
  FileSystem.Open "/a" s2 = Returns None s2 ∧
  FileSystem.Open "/a/b" s2 = Returns None s2 ∧
  FileSystem.Open "/a/b/f.txt" s2 = Returns None s2 ∧
  persisted_bits (final_state (FileSystem.Remove "/a/b/f.txt" s1))
    (sectors_of "/a/b/f.txt" s1) = replicate 2 false ∧
  persisted_bits s2 (sectors_of "/a" s1) = replicate 13 false ∧
  persisted_bits s2 (sectors_of "/a/b" s1) = replicate 13 true ∧
  persisted_bits s2 (sectors_of "/a/b/f.txt" s1) = replicate 2 true ∧
  ∀ k, and_then populated (FileSystem.RecurRemoveDirectory (k + 3) "/a") = removed.
Proof.
  split_and!; [vm_compute; reflexivity..|].
  intros k. unfold removed.
  assert (populated = Returns true s1) as -> by (vm_compute; reflexivity).
  cbn [and_then]. apply OutcomeFacts.RecurRemoveDirectory_fuel_enough.
  intros Hf. vm_compute in Hf. discriminate Hf.
Qed.


(** *** The theorems above at concrete inputs *)

Lemma Directory_Add_first_unused_slot_witness :
  length two_items = 2%nat ∧
  NoDup ((λ it : string * Z * bool, CString.strncpy it.1.1 FileNameMaxLen)
           <$> two_items ++ [third_item]) ∧
  (Directory.AddAll (Directory.new 2) two_items).1 = [true; true] ∧
  (Directory.Add (Directory.AddAll (Directory.new 2) two_items).2 "c" 7 false).1
    = false ∧
  (Directory.Add
     (Directory.Remove (Directory.AddAll (Directory.new 2) two_items).2 "a").2
     "c" 7 false).1 = true.
Proof.
  assert (length two_items = 2%nat) as Hlen by reflexivity.
  assert (NoDup ((λ it : string * Z * bool,
                    CString.strncpy it.1.1 FileNameMaxLen)
                   <$> two_items ++ [third_item])) as Hnd.
  { apply (bool_decide_unpack _). vm_compute. exact I. }
  destruct (proj2 DirectoryFacts.Directory_Add_first_unused_slot
              2%nat two_items third_item Hlen Hnd) as (Hall & Hfull & Hretry).
  split_and!; [exact Hlen|exact Hnd|exact Hall| |].
  - change (Directory.Add _ "c" 7 false)
      with (Directory.Add (Directory.AddAll (Directory.new 2) two_items).2
              third_item.1.1 third_item.1.2 third_item.2).
    by rewrite Hfull.
  - apply (Hretry ("a"%string, 5, false)). apply list_elem_of_here.
Defined.

Lemma Directory_Remove_frame_witness :
  small_table.(table) !! 1%nat = Some (mkEntry true true 6 "b") ∧
  (Directory.Remove small_table "b").1 = true ∧
  table (Directory.Remove small_table "b").2 !! 1%nat =
    Some (mkEntry false false 6 "b") ∧
  table (Directory.Remove small_table "b").2 !! 0%nat =
    table small_table !! 0%nat.
Proof.
  destruct (proj1 (DirectoryFacts.Directory_Remove_frame small_table "b")
              1%nat (mkEntry true true 6 "b"))
    as (Hr & Hslot & Hothers & _).
  - reflexivity.
  - reflexivity.
  - vm_compute. reflexivity.
  - intros j e' Hj Hl [_ Hm]. destruct j as [|j]; [|lia].
    injection Hl as <-. vm_compute in Hm. discriminate Hm.
  - split_and!; [reflexivity|exact Hr|exact Hslot|]. by apply Hothers.
Defined.

Lemma Directory_invariant_preserved_witness :
  Directory.distinct_names (Directory.new 2) ∧
  Directory.distinct_names (Directory.Add (Directory.new 2) "a" 5 false).2 ∧
  Directory.distinct_names
    (Directory.Remove (Directory.Add (Directory.new 2) "a" 5 false).2 "a").2.
Proof.
  pose proof DirectoryFacts.Directory_invariant_preserved as (Hnew & Hadd & Hrem).
  destruct (Hnew 2%nat) as (H0 & _).
  destruct (Hadd (Directory.new 2) "a"%string 5 false H0) as (H1 & _).
  destruct (Hrem _ "a"%string H1) as (H2 & _).
  split_and!; [exact H0|exact H1|exact H2].
Defined.


Lemma Create_failure_writes_nothing_witness :
  FileSystem.Parse "/x/y" true s0 = Returns (None, ["x"; "y"], 2%nat) s0 ∧
  FileSystem.Create "/x/y" 10 s0 = Returns false s0.
Proof.
  assert (FileSystem.Parse "/x/y" true s0 = Returns (None, ["x"; "y"], 2%nat) s0)
    as HP by (vm_compute; reflexivity).
  split; [exact HP|].
  exact (proj1 (proj2 (FileSystemFacts.Create_failure_writes_nothing "/x/y" 10 s0))
           ["x"; "y"] 2%nat HP).
Defined.

Lemma Create_commit_order_witness :
  ∃ s',
    FileSystem.Create "/f.txt" 200 s0 = Returns true s' ∧
    length (writes s') = (length (writes s0) + 3)%nat.
Proof.
  eexists. split; [vm_compute; reflexivity|].
  edestruct (FileSystemFacts.Create_commit_order "/f.txt" 200 s0) as
    (? & ? & ? & ? & ? & ? & ? & ? & ? & _ & _ & _ & _ & _ & _ & Hlen & _).
  - vm_compute. reflexivity.
  - exact Hlen.
Defined.

Lemma Remove_deallocates_and_persists_witness :
  FileSystem.Parse "/a/b/f.txt" true s1 =
    Returns (Some handle_b, ["a"; "b"; "f.txt"], 3%nat) s1 ∧
  ∃ s', FileSystem.Remove "/a/b/f.txt" s1 = Returns true s'.
Proof.
  assert (FileSystem.Parse "/a/b/f.txt" true s1 =
            Returns (Some handle_b, ["a"; "b"; "f.txt"], 3%nat) s1) as HP
    by (vm_compute; reflexivity).
  split; [exact HP|].
  destruct (proj2 (FileSystemFacts.Remove_deallocates_and_persists
                     "/a/b/f.txt" s1 _ _ _ HP) handle_b "f.txt"%string eq_refl)
    as (_ & Hpresent).
  - vm_compute. reflexivity.
  - destruct Hpresent as (fileHdr & freeMap & directory & _ & _ & _ & _ & _ & _ & HR).
    + vm_compute. discriminate.
    + vm_compute. discriminate.
    + eexists. exact HR.
Defined.

Lemma Open_ignores_directory_flag_witness :
  isDir (mkEntry true true 28 "b") = true ∧
  FileSystem.Open "/a/b" s1 = Returns (Some handle_b) s1.
Proof.
  split; [reflexivity|].
  destruct (FileSystemFacts.Open_ignores_directory_flag "/a/b" s1 handle_a
              ["a"; "b"] 2%nat "b"%string 0%nat (mkEntry true true 28 "b"))
    as (_ & _ & HO & Hh).
  - vm_compute. reflexivity.
  - vm_compute. reflexivity.
  - vm_compute. reflexivity.
  - vm_compute. reflexivity.
  - simpl. lia.
  - rewrite HO. f_equal.
Defined.

End ReferenceFacts.

(** * Further properties of the directory table *)

Module DirectoryMore.
Section directory_more.
Context `{Config}.
Import CString CStringFacts Directory DirectoryFacts.

Implicit Types (d : Directory) (nm : string) (e : DirectoryEntry).

(** Rewriting a slot that does not match, by an entry that does not match,
    changes no lookup. *)
Lemma list_find_insert_no_match {A} (P : A → Prop) `{!∀ x, Decision (P x)}
    (l : list A) (i : nat) (x y : A) :
  l !! i = Some x → ¬ P x → ¬ P y →
  list_find P (<[i := y]> l) = list_find P l.
Proof.
  revert i. induction l as [|z l IH]; intros i Hl Hx Hy; [done|].
  destruct i as [|i]; simpl in *.
  - injection Hl as ->. rewrite !decide_False by done. done.
  - case_decide; [done|]. by rewrite (IH i Hl Hx Hy).
Qed.

Lemma Find_of_find d nm :
  Find d nm =
    match list_find (matches nm) (table d) with
    | Some (_, e) => sector e
    | None => -1
    end.
Proof.
  unfold Find. destruct (list_find (matches nm) (table d)) as [[i e]|] eqn:Hf.
  - destruct (FindIndex_Some d nm i e Hf) as [Hi He].
    rewrite He, Hi. rewrite decide_True by lia. done.
  - rewrite (FindIndex_None d nm Hf). by rewrite decide_False by (intros ?; done).
Qed.

Lemma FindIndex_of_find d nm :
  FindIndex d nm =
    match list_find (matches nm) (table d) with
    | Some (i, _) => Z.of_nat i
    | None => -1
    end.
Proof. reflexivity. Qed.

(** Names that differ under the comparison are matched by different
    entries. *)
Lemma matches_other nm nm2 e :
  strncmp nm2 nm FileNameMaxLen ≠ 0 → matches nm e → ¬ matches nm2 e.
Proof.
  intros Hne [_ Hm] [_ Hm2]. apply Hne.
  pose proof (proj1 (strncmp_0_iff _ _ _) Hm).
  pose proof (proj1 (strncmp_0_iff _ _ _) Hm2).
  apply strncmp_0_iff. congruence.
Qed.

Lemma added_matches nm newSector dir nm2 :
  matches nm2 (mkEntry true dir newSector (strncpy nm FileNameMaxLen)) ↔
  strncmp nm nm2 FileNameMaxLen = 0.
Proof.
  unfold matches. cbn [inUse name]. rewrite strncmp_strncpy_l.
  split; [by intros [_ ?]|by intros ?; split].
Qed.

(** X1: after a successful Add, Find of the added name gives the sector
    added, the slot found is in use and carries the directory flag added,
    and FindIndex and Find of every name that differs from it under the
    comparison give what they gave before. *)
Theorem Add_then_Find d nm newSector dir d' :
  Add d nm newSector dir = (true, d') →
  Find d' nm = newSector ∧
  FindIndex d' nm ≠ -1 ∧
  inUse (entry d' (FindIndex d' nm)) = true ∧
  isDirectory d' (Z.to_nat (FindIndex d' nm)) = dir ∧
  ∀ nm2,
    strncmp nm2 nm FileNameMaxLen ≠ 0 →
    FindIndex d' nm2 = FindIndex d nm2 ∧ Find d' nm2 = Find d nm2.
Proof.
  intros HA.
  destruct (Add_cases d nm newSector dir) as [HA'|(i & e & Hno & Hl & Hu & HA')];
    rewrite HA' in HA; [done|]. injection HA as <-.
  set (new := mkEntry true dir newSector (strncpy nm FileNameMaxLen)).
  assert (i < length (table d))%nat as Hi by (by eapply lookup_lt_Some).
  assert (list_find (matches nm) (<[i:=new]> (table d)) = Some (i, new)) as Hf.
  { apply list_find_Some. split_and!.
    - by apply list_lookup_insert_eq.
    - apply added_matches, strncmp_refl.
    - intros j y Hj Hlt. rewrite list_lookup_insert_ne in Hj by lia.
      apply Hno. by eapply list_elem_of_lookup_2. }
  split_and!.
  - rewrite Find_of_find. cbn [table]. by rewrite Hf.
  - rewrite FindIndex_of_find. cbn [table]. rewrite Hf. lia.
  - rewrite FindIndex_of_find. cbn [table]. rewrite Hf.
    unfold entry. cbn [table]. rewrite Nat2Z.id.
    by rewrite list_lookup_insert_eq.
  - rewrite FindIndex_of_find. cbn [table]. rewrite Hf. rewrite Nat2Z.id.
    unfold isDirectory, tableSize, entry. cbn [table].
    rewrite length_insert. rewrite decide_True by done.
    rewrite Nat2Z.id. by rewrite list_lookup_insert_eq.
  - intros nm2 Hne.
    rewrite !FindIndex_of_find, !Find_of_find. cbn [table].
    rewrite (list_find_insert_no_match (matches nm2) (table d) i e new Hl).
    + done.
    + intros [Hu' _]. congruence.
    + intros Hm%added_matches. by apply Hne, strncmp_sym.
Qed.

(** X2: after a successful Remove from a table whose names in use are
    pairwise different, the name removed is no longer found; with or without
    that invariant, FindIndex and Find of every name that differs from it
    under the comparison give what they gave before. *)
Theorem Remove_then_Find d nm d' :
  Remove d nm = (true, d') →
  (distinct_names d → FindIndex d' nm = -1 ∧ Find d' nm = -1) ∧
  ∀ nm2,
    strncmp nm2 nm FileNameMaxLen ≠ 0 →
    FindIndex d' nm2 = FindIndex d nm2 ∧ Find d' nm2 = Find d nm2.
Proof.
  intros HR.
  destruct (list_find (matches nm) (table d)) as [[i e]|] eqn:Hf.
  2:{ rewrite Remove_absent in HR; [done|].
      apply list_find_None in Hf. by apply Forall_forall. }
  rewrite (Remove_found d nm i e Hf) in HR. injection HR as <-.
  apply list_find_Some in Hf as (Hl & Hm & Hfirst).
  set (gone := mkEntry false false (sector e) (name e)).
  split.
  - intros Hd.
    assert (list_find (matches nm) (<[i:=gone]> (table d)) = None) as Hnone.
    { apply list_find_None, Forall_lookup. intros j y Hj [Hu Hmy].
      apply list_lookup_insert_Some in Hj as [(-> & <- & _)|(Hne & Hj)];
        [done|].
      destruct Hm as [Hue Hme].
      apply (Hd i j e y Hl Hj Hne Hue Hu).
      pose proof (proj1 (strncmp_0_iff _ _ _) Hme).
      pose proof (proj1 (strncmp_0_iff _ _ _) Hmy).
      apply strncmp_0_iff. congruence. }
    rewrite FindIndex_of_find, Find_of_find. cbn [table]. by rewrite Hnone.
  - intros nm2 Hne.
    rewrite !FindIndex_of_find, !Find_of_find. cbn [table].
    rewrite (list_find_insert_no_match (matches nm2) (table d) i e gone Hl).
    + done.
    + by apply (matches_other nm).
    + by intros [? _].
Qed.

Lemma Find_after_Add d nm newSector dir d' :
  Add d nm newSector dir = (true, d') → Find d' nm = newSector.
Proof.
  intros HA.
  destruct (Add_cases d nm newSector dir) as [HA'|(i & e & Hno & Hl & Hu & HA')];
    rewrite HA' in HA; [done|]. injection HA as <-.
  rewrite Find_of_find. cbn [table].
  assert (list_find (matches nm)
            (<[i:=mkEntry true dir newSector (strncpy nm FileNameMaxLen)]>
               (table d)) =
          Some (i, mkEntry true dir newSector (strncpy nm FileNameMaxLen)))
    as ->; [|done].
  apply list_find_Some. split_and!.
  - apply list_lookup_insert_eq. by eapply lookup_lt_Some.
  - apply added_matches, strncmp_refl.
  - intros j y Hj Hlt. rewrite list_lookup_insert_ne in Hj by lia.
    apply Hno. by eapply list_elem_of_lookup_2.
Qed.

Lemma entry_after_Add d nm newSector dir d' :
  Add d nm newSector dir = (true, d') →
  FindIndex d' nm ≠ -1 ∧
  entry d' (FindIndex d' nm) =
    mkEntry true dir newSector (strncpy nm FileNameMaxLen).
Proof.
  intros HA.
  destruct (Add_cases d nm newSector dir) as [HA'|(i & e & Hno & Hl & Hu & HA')];
    rewrite HA' in HA; [done|].
  assert (table d' =
          <[i:=mkEntry true dir newSector (strncpy nm FileNameMaxLen)]>
            (table d)) as Ht by (by injection HA as <-).
  assert (list_find (matches nm) (table d') =
          Some (i, mkEntry true dir newSector (strncpy nm FileNameMaxLen)))
    as Hf.
  { rewrite Ht. apply list_find_Some. split_and!.
    - apply list_lookup_insert_eq. by eapply lookup_lt_Some.
    - apply added_matches, strncmp_refl.
    - intros j y Hj Hlt. rewrite list_lookup_insert_ne in Hj by lia.
      apply Hno. by eapply list_elem_of_lookup_2. }
  destruct (FindIndex_Some _ _ _ _ Hf) as [Hi He]. rewrite He. split; [|done].
  rewrite Hi. lia.
Qed.

(** A table whose entries are unused but for one slot keeps the
    invariant. *)
Lemma distinct_names_one_slot d (k : nat) :
  Forall (λ e, inUse e = false) (take k (table d) ++ drop (S k) (table d)) →
  distinct_names d.
Proof.
  intros Hall. rewrite Forall_app, !Forall_forall in Hall.
  destruct Hall as [Hbefore Hafter].
  assert (∀ i e, table d !! i = Some e → inUse e = true → i = k) as Hk.
  { intros i e Hl Hu. destruct (decide (i = k)) as [|Hne]; [done|].
    exfalso. destruct (decide (i < k)%nat) as [Hlt|Hge].
    - rewrite (Hbefore e) in Hu; [done|].
      apply (list_elem_of_lookup_2 _ i). by rewrite lookup_take_lt.
    - rewrite (Hafter e) in Hu; [done|].
      apply (list_elem_of_lookup_2 _ (i - S k)). rewrite lookup_drop.
      by replace (S k + (i - S k))%nat with i by lia. }
  intros i j ei ej Hi Hj Hne Hui Huj.
  pose proof (Hk i ei Hi Hui). pose proof (Hk j ej Hj Huj). lia.
Qed.

Lemma some_match_find_index d nm :
  FindIndex d nm ≠ -1 → ∃ e, e ∈ table d ∧ matches nm e.
Proof.
  rewrite FindIndex_of_find.
  destruct (list_find (matches nm) (table d)) as [[i e]|] eqn:Hf; [|done].
  intros _. apply list_find_Some in Hf as (Hl & Hm & _).
  exists e. split; [|done]. by eapply list_elem_of_lookup_2.
Qed.

Lemma Find_after_Remove d nm d' :
  Remove d nm = (true, d') → distinct_names d → Find d' nm = -1.
Proof.
  intros HR Hd.
  destruct (Remove_cases d nm) as [HR'|(i & e & Hl & [Hue Hme] & HR')];
    rewrite HR' in HR; [done|]. injection HR as <-.
  rewrite Find_of_find. cbn [table].
  assert (list_find (matches nm)
            (<[i:=mkEntry false false (sector e) (name e)]> (table d)) = None)
    as ->; [|done].
  apply list_find_None, Forall_lookup. intros j y Hj [Hu Hmy].
  apply list_lookup_insert_Some in Hj as [(-> & <- & _)|(Hne & Hj)]; [done|].
  apply (Hd i j e y Hl Hj Hne Hue Hu).
  pose proof (proj1 (strncmp_0_iff _ _ _) Hme).
  pose proof (proj1 (strncmp_0_iff _ _ _) Hmy).
  apply strncmp_0_iff. congruence.
Qed.

Lemma tableSize_Add d nm newSector dir :
  tableSize (Add d nm newSector dir).2 = tableSize d.
Proof.
  destruct (Add_cases d nm newSector dir) as [->|(i & e & _ & _ & _ & ->)];
    [done|]. unfold tableSize. cbn [snd table]. apply length_insert.
Qed.

Lemma tableSize_Remove d nm : tableSize (Remove d nm).2 = tableSize d.
Proof.
  destruct (Remove_cases d nm) as [->|(i & e & _ & _ & ->)]; [done|].
  unfold tableSize. cbn [snd table]. apply length_insert.
Qed.

(** The number of entries in use when one slot is rewritten. *)
Lemma count_insert d i e e' :
  table d !! i = Some e →
  (count (mkDirectory (<[i := e']> (table d))) + (if inUse e then 1 else 0))%nat =
  (count d + (if inUse e' then 1 else 0))%nat.
Proof.
  intros Hl. unfold count. cbn [table].
  rewrite insert_take_drop by (by eapply lookup_lt_Some).
  rewrite <- (take_drop_middle (table d) i e Hl) at 3.
  rewrite !filter_app, !filter_cons, !length_app.
  destruct (inUse e), (inUse e'); repeat case_decide; simpl; try done; lia.
Qed.

Lemma unused_iff_count d :
  (∃ e, e ∈ table d ∧ inUse e = false) ↔ (count d < tableSize d)%nat.
Proof.
  unfold count, tableSize. split.
  - intros (e & Hin & Hu). eapply length_filter_lt; [done|]. by rewrite Hu.
  - intros Hlt. induction (table d) as [|x l IH]; [simpl in Hlt; lia|].
    destruct (inUse x) eqn:Hx.
    + rewrite filter_cons_True in Hlt by done. simpl in Hlt.
      destruct IH as (e & Hin & Hu); [lia|]. exists e. split; [|done].
      by apply list_elem_of_further.
    + exists x. split; [apply list_elem_of_here|done].
Qed.

(** X3: Add succeeds exactly when the name is not found and fewer entries
    are in use than the table has slots. A successful Add raises the number
    of entries in use by one, a successful Remove lowers it by one, and a
    failed call leaves the table as it was. *)
Theorem Add_succeeds_iff_room d nm newSector dir :
  ((Add d nm newSector dir).1 = true ↔
   FindIndex d nm = -1 ∧ (count d < tableSize d)%nat) ∧
  ((Add d nm newSector dir).1 = true →
   count (Add d nm newSector dir).2 = S (count d)) ∧
  ((Add d nm newSector dir).1 = false → (Add d nm newSector dir).2 = d) ∧
  ((Remove d nm).1 = true → S (count (Remove d nm).2) = count d) ∧
  ((Remove d nm).1 = false → (Remove d nm).2 = d).
Proof.
  split_and!.
  - split.
    + intros HA.
      destruct (Add_cases d nm newSector dir)
        as [HA'|(i & e & Hno & Hl & Hu & HA')]; rewrite HA' in HA; [done|].
      split; [by apply FindIndex_None, no_match_find|].
      apply unused_iff_count. exists e. split; [|done].
      by eapply list_elem_of_lookup_2.
    + intros [Hi (e & Hin & Hu)%unused_iff_count].
      apply (Add_succeeds d nm newSector dir e); [|done..].
      intros e' Hin' Hm.
      destruct (some_match_find d nm e' Hin' Hm) as (j & e'' & Hf).
      apply FindIndex_Some in Hf as [Hj _]. lia.
  - intros HA.
    destruct (Add_cases d nm newSector dir)
      as [HA'|(i & e & Hno & Hl & Hu & HA')]; rewrite HA' in HA |- *; [done|].
    cbn [snd]. pose proof (count_insert d i e
      (mkEntry true dir newSector (strncpy nm FileNameMaxLen)) Hl) as Hc.
    rewrite Hu in Hc. cbn [inUse] in Hc. lia.
  - intros HA.
    destruct (Add_cases d nm newSector dir)
      as [HA'|(i & e & Hno & Hl & Hu & HA')]; rewrite HA' in HA |- *; done.
  - intros HR.
    destruct (Remove_cases d nm) as [HR'|(i & e & Hl & [Hu Hm] & HR')];
      rewrite HR' in HR |- *; [done|].
    cbn [snd]. pose proof (count_insert d i e
      (mkEntry false false (sector e) (name e)) Hl) as Hc.
    rewrite Hu in Hc. cbn [inUse] in Hc. lia.
  - intros HR.
    destruct (Remove_cases d nm) as [HR'|(i & e & Hl & [Hu Hm] & HR')];
      rewrite HR' in HR |- *; done.
Qed.

End directory_more.
End DirectoryMore.

(** * The listings *)

Module ListingFacts.
Section listing_facts.
Context `{Config}.
Import CString CStringFacts Directory DirectoryFacts Listing.

Implicit Types (d : Directory) (nm : string) (e : DirectoryEntry).

Lemma c_str_strncpy (a : string) (n : nat) : c_str (strncpy a n) = strncpy a n.
Proof.
  revert a. induction n as [|n IH]; intros [|c a]; simpl; try done.
  case_decide; simpl; [done|]. rewrite decide_False by done. by rewrite IH.
Qed.

(** The listing of a table of which one slot is rewritten. *)
Lemma List_insert d i e e' :
  table d !! i = Some e →
  ∃ l1 l2,
    List d = l1 ++ (if inUse e then [line e] else []) ++ l2 ∧
    List (mkDirectory (<[i := e']> (table d))) =
      l1 ++ (if inUse e' then [line e'] else []) ++ l2.
Proof.
  intros Hl. pose proof (take_drop_middle (table d) i e Hl) as Hd.
  exists (line <$> filter (λ e, inUse e = true) (take i (table d))),
         (line <$> filter (λ e, inUse e = true) (drop (S i) (table d))).
  unfold List. cbn [table]. split.
  - rewrite <- Hd at 1. rewrite filter_app, filter_cons, !fmap_app.
    f_equal. destruct (inUse e); case_decide; done.
  - rewrite insert_take_drop by (by eapply lookup_lt_Some).
    rewrite filter_app, filter_cons, !fmap_app.
    f_equal. destruct (inUse e'); case_decide; done.
Qed.

(** X4: List prints one line for each entry in use. A successful Add
    inserts, into what List printed, the line of the name added (cut to
    FileNameMaxLen characters) and of its tag; a successful Remove deletes
    from it the line of an entry that matches the name; the other lines
    stay, in their order. *)
Theorem List_follows_Add_and_Remove d nm newSector dir :
  length (List d) = count d ∧
  (∀ d', Add d nm newSector dir = (true, d') →
     ∃ l1 l2,
       List d = l1 ++ l2 ∧
       List d' =
         l1 ++ [String.append (strncpy nm FileNameMaxLen)
                  (if dir then " [D]" else " [F]")] ++ l2) ∧
  (∀ d', Remove d nm = (true, d') →
     ∃ l1 l2 e,
       e ∈ table d ∧ inUse e = true ∧
       strncmp (name e) nm FileNameMaxLen = 0 ∧
       List d = l1 ++ [line e] ++ l2 ∧
       List d' = l1 ++ l2).
Proof.
  split_and!.
  - unfold List, count. by rewrite length_fmap.
  - intros d' HA.
    destruct (Add_cases d nm newSector dir)
      as [HA'|(i & e & Hno & Hl & Hu & HA')]; rewrite HA' in HA; [done|].
    injection HA as <-.
    destruct (List_insert d i e
      (mkEntry true dir newSector (strncpy nm FileNameMaxLen)) Hl)
      as (l1 & l2 & H1 & H2).
    rewrite Hu in H1. cbn [inUse] in H2. exists l1, l2. split; [done|].
    rewrite H2. unfold line. cbn [name isDir]. by rewrite c_str_strncpy.
  - intros d' HR.
    destruct (Remove_cases d nm) as [HR'|(i & e & Hl & [Hu Hm] & HR')];
      rewrite HR' in HR; [done|]. injection HR as <-.
    destruct (List_insert d i e
      (mkEntry false false (sector e) (name e)) Hl) as (l1 & l2 & H1 & H2).
    rewrite Hu in H1. cbn [inUse] in H2. exists l1, l2, e.
    split_and!; try done. by eapply list_elem_of_lookup_2.
Qed.

(** *** RecurList *)

Lemma RecurList_loop_no_entry recur indent_level (t : list DirectoryEntry) :
  Forall (λ e, inUse e = false) t →
  RecurList_loop recur indent_level t = Some [].
Proof.
  induction 1 as [|e t He _ IH]; simpl; [done|]. by rewrite He.
Qed.

Lemma count_0 d : count d = 0%nat ↔ Forall (λ e, inUse e = false) (table d).
Proof.
  unfold count. induction (table d) as [|e t IH]; simpl; [done|].
  rewrite filter_cons. destruct (inUse e) eqn:He; case_decide; try done.
  - split; [done|]. intros Hf. inversion Hf. congruence.
  - rewrite IH. split; [by constructor|]. intros Hf. by inversion Hf.
Qed.

(** With no subdirectory to enter, the loop prints the lines of [List],
    indented. *)
Lemma RecurList_loop_files recur indent_level (t : list DirectoryEntry) :
  Forall (λ e, inUse e = true → isDir e = false) t →
  RecurList_loop recur indent_level t =
    Some (indented_line indent_level <$> filter (λ e, inUse e = true) t).
Proof.
  induction 1 as [|e t He _ IH]; simpl; [done|].
  rewrite filter_cons. destruct (inUse e) eqn:Hu; case_decide; try done.
  rewrite (He eq_refl). simpl. by rewrite IH.
Qed.

Lemma append_cons (c : ascii) (a b : string) :
  String.append (String c a) b = String c (String.append a b).
Proof. reflexivity. Qed.

Lemma spaces_add (a b : nat) :
  spaces (a + b) = String.append (spaces a) (spaces b).
Proof.
  induction a as [|a IH]; [done|].
  cbn [spaces Nat.add]. by rewrite append_cons, IH.
Qed.

Lemma append_assoc (a b c : string) :
  String.append (String.append a b) c = String.append a (String.append b c).
Proof.
  induction a as [|x a IH]; [done|]. by rewrite !append_cons, IH.
Qed.

Lemma starts_with_deeper (k : nat) (l : string) :
  starts_with (spaces (2 * S k)) l → starts_with (spaces (2 * k)) l.
Proof.
  intros [rest ->]. exists (String.append (spaces 2) rest).
  replace (2 * S k)%nat with (2 * k + 2)%nat by lia.
  by rewrite spaces_add, append_assoc.
Qed.

Lemma RecurList_loop_indented recur indent_level t out :
  (∀ e sub, recur e = Some sub →
            Forall (starts_with (spaces (2 * S indent_level))) sub) →
  RecurList_loop recur indent_level t = Some out →
  Forall (starts_with (spaces (2 * indent_level))) out.
Proof.
  intros Hrec. revert out. induction t as [|e t IH]; intros out; simpl.
  - by intros [= <-].
  - destruct (inUse e); [|apply IH].
    destruct (isDir e); simpl.
    + destruct (recur e) as [sub|] eqn:Hsub; [|done]. simpl.
      destruct (RecurList_loop recur indent_level t) as [rest|]; [|done].
      simpl. intros [= <-]. constructor; [by eexists|].
      apply Forall_app. split; [|by apply IH].
      eapply Forall_impl; [by eapply Hrec|]. apply starts_with_deeper.
    + destruct (RecurList_loop recur indent_level t) as [rest|]; [|done].
      simpl. intros [= <-]. constructor; [by eexists|]. by apply IH.
Qed.

Lemma RecurList_indented fuel dsk :
  ∀ d indent_level out,
    RecurList fuel dsk d indent_level = Some out →
    Forall (starts_with (spaces (2 * indent_level))) out.
Proof.
  induction fuel as [|fuel IH]; intros d k out; [done|].
  cbn [RecurList].
  destruct (RecurList_loop _ k (table d)) as [lines|] eqn:Hloop; [|done].
  simpl. intros [= <-]. apply Forall_app. split.
  - eapply RecurList_loop_indented; [|done].
    intros e sub Hsub. cbn beta in Hsub. by eapply IH.
  - case_decide; [|done]. constructor; [by eexists|done].
Qed.

(** X5: RecurList prints "Empty Folder", alone and indented, for a table
    with no entry in use; for a table whose entries in use are all files it
    prints at level 0 what List prints (and no "Empty Folder" unless List
    prints nothing); and every line it prints at a level starts with twice
    that many blanks. *)
Theorem RecurList_lines fuel dsk d indent_level :
  (Forall (λ e, inUse e = false) (table d) →
   RecurList (S fuel) dsk d indent_level = Some [empty_folder indent_level]) ∧
  (Forall (λ e, inUse e = true → isDir e = false) (table d) →
   count d ≠ 0%nat →
   RecurList (S fuel) dsk d 0 = Some (List d)) ∧
  (∀ out,
     RecurList fuel dsk d indent_level = Some out →
     out ≠ [] ∧ Forall (starts_with (spaces (2 * indent_level))) out).
Proof.
  split_and!.
  - intros Hno. cbn [RecurList].
    rewrite (RecurList_loop_no_entry _ _ _ Hno). simpl.
    rewrite decide_True by (by apply count_0). done.
  - intros Hfiles Hc. cbn [RecurList].
    rewrite (RecurList_loop_files _ _ _ Hfiles). simpl.
    rewrite decide_False by done. rewrite app_nil_r. reflexivity.
  - intros out Hout. split; [|by eapply RecurList_indented].
    destruct fuel as [|fuel]; [done|]. cbn [RecurList] in Hout.
    destruct (RecurList_loop _ indent_level (table d)) as [lines|] eqn:Hloop;
      [|done].
    simpl in Hout. injection Hout as <-.
    case_decide as Hc; [by destruct lines|]. rewrite app_nil_r.
    intros ->. apply Hc, count_0.
    clear Hc. revert Hloop. induction (table d) as [|e t IH]; simpl; [done|].
    destruct (inUse e) eqn:Hu; [|intros Hl; constructor; [done|by apply IH]].
    destruct (isDir e); simpl.
    + destruct (RecurList _ _ _ _); [|done]. simpl.
      destruct (RecurList_loop _ indent_level t); simpl; [|done].
      intros [=].
    + destruct (RecurList_loop _ indent_level t); simpl; [|done].
      intros [=].
Qed.

End listing_facts.
End ListingFacts.

(** * The bitmap and the sectors of a file *)

Module AllocationFacts.
Section allocation_facts.
Context `{Config}.
Import Bitmap BitmapFacts.

Implicit Types (bits : list bool) (x y : Z).

Lemma Test_true bits x :
  Test bits x = true ↔ ∃ i, x = Z.of_nat i ∧ bits !! i = Some true.
Proof.
  unfold Test, in_range. split.
  - case_decide as Hr; [|done]. intros Ht. exists (Z.to_nat x).
    split; [lia|]. destruct (bits !! Z.to_nat x) as [b|] eqn:Hb; [|done].
    simpl in Ht. by subst.
  - intros (i & -> & Hi). rewrite decide_True.
    + by rewrite Nat2Z.id, Hi.
    + apply lookup_lt_Some in Hi. lia.
Qed.

Lemma Test_false_in_range bits i :
  bits !! i = Some false → Test bits (Z.of_nat i) = false.
Proof.
  intros Hi. unfold Test. case_decide; [|done]. by rewrite Nat2Z.id, Hi.
Qed.

(** What one [FindAndSet] does. *)
Lemma FindAndSet_found bits x bits' :
  FindAndSet bits = (x, bits') → x ≠ -1 →
  ∃ i, x = Z.of_nat i ∧ bits !! i = Some false ∧ bits' = <[i := true]> bits.
Proof.
  unfold FindAndSet.
  destruct (list_find (λ b, b = false) bits) as [[i b]|] eqn:Hf;
    intros [= <- <-]; [|done].
  intros _. apply list_find_Some in Hf as (Hi & -> & _). eauto.
Qed.

Lemma FindAndSet_full bits bits' :
  FindAndSet bits = (-1, bits') → bits' = bits ∧ NumClear bits = 0%nat.
Proof.
  unfold FindAndSet, NumClear.
  destruct (list_find (λ b, b = false) bits) as [[i b]|] eqn:Hf.
  { intros [= Hx _]. lia. }
  intros [= <-]. split; [done|]. apply list_find_None in Hf.
  induction Hf as [|b l Hb _ IH]; [done|].
  by rewrite filter_cons_False.
Qed.

Lemma NumClear_insert bits i :
  bits !! i = Some false →
  S (NumClear (<[i := true]> bits)) = NumClear bits.
Proof.
  intros Hi. unfold NumClear.
  rewrite insert_take_drop by (by eapply lookup_lt_Some).
  rewrite <- (take_drop_middle bits i false Hi) at 3.
  rewrite !filter_app, !length_app.
  rewrite filter_cons_False by done. rewrite filter_cons_True by done.
  simpl. lia.
Qed.

Lemma Test_insert_true bits i y :
  (i < length bits)%nat →
  Test (<[i := true]> bits) y = true ↔ y = Z.of_nat i ∨ Test bits y = true.
Proof.
  intros Hi. rewrite !Test_true. split.
  - intros (j & -> & Hj).
    apply list_lookup_insert_Some in Hj as [(-> & _ & _)|(Hne & Hj)]; eauto.
  - intros [->|(j & -> & Hj)].
    + exists i. split; [done|]. by apply list_lookup_insert_eq.
    + destruct (decide (i = j)) as [->|Hne].
      * exists j. split; [done|]. by apply list_lookup_insert_eq.
      * exists j. split; [done|]. by rewrite list_lookup_insert_ne.
Qed.

(** What [n] successive [FindAndSet] do when at least [n] bits are clear:
    they give [n] different sectors, all clear before, and set exactly
    them. *)
Lemma FindAndSet_n_spec n :
  ∀ bits secs bits',
    (n ≤ NumClear bits)%nat →
    FindAndSet_n n bits = (secs, bits') →
    length secs = n ∧ NoDup secs ∧
    (∀ x, x ∈ secs → Test bits x = false ∧ in_range bits x) ∧
    (∀ y, Test bits' y = true ↔ y ∈ secs ∨ Test bits y = true) ∧
    length bits' = length bits.
Proof.
  induction n as [|n IH]; intros bits secs bits' Hn; simpl.
  - intros [= <- <-]. split_and!; [done|constructor| | |done].
    + intros x Hx. by apply elem_of_nil in Hx.
    + intros y. split; [by right|]. intros [Hy|Hy]; [|done].
      by apply elem_of_nil in Hy.
  - destruct (FindAndSet bits) as [x bits1] eqn:Hx.
    destruct (FindAndSet_n n bits1) as [ss bits2] eqn:Hss.
    intros [= <- <-].
    assert (x ≠ -1) as Hne.
    { intros ->. apply FindAndSet_full in Hx as [_ Hc]. lia. }
    destruct (FindAndSet_found _ _ _ Hx Hne) as (i & -> & Hi & ->).
    pose proof (lookup_lt_Some _ _ _ Hi) as Hlt.
    pose proof (NumClear_insert bits i Hi) as Hc.
    destruct (IH (<[i:=true]> bits) ss bits2 ltac:(lia) Hss)
      as (Hlen & Hnd & Hfree & Hset & Hl).
    rewrite length_insert in Hl.
    split_and!.
    + simpl. by rewrite Hlen.
    + constructor; [|done]. intros Hin. apply Hfree in Hin as [Hin _].
      assert (Test (<[i:=true]> bits) (Z.of_nat i) = true) as Ht.
      { apply Test_insert_true; [done|]. by left. }
      congruence.
    + intros y [->|Hy]%elem_of_cons.
      * split; [by apply Test_false_in_range|]. unfold in_range. lia.
      * apply Hfree in Hy as [Hy Hr]. split.
        -- destruct (Test bits y) eqn:Hty; [|done].
           assert (Test (<[i:=true]> bits) y = true) as Ht.
           { apply Test_insert_true; [done|]. by right. }
           congruence.
        -- exact (proj1 (in_range_insert bits i true y) Hr).
    + intros y. rewrite Hset, Test_insert_true by done.
      rewrite elem_of_cons. tauto.
    + done.
Qed.

(** A successful [Allocate] gives a header of the size asked whose data
    sectors are different from one another and were clear, and it sets
    exactly their bits. *)
Lemma Allocate_spec (freeMap : list bool) (fileSize : Z) hdr freeMap' :
  FileHdr.Allocate freeMap fileSize = (true, hdr, freeMap') →
  numBytes hdr = fileSize ∧
  length (dataSectors hdr) = Z.to_nat (divRoundUp fileSize SectorSize) ∧
  NoDup (dataSectors hdr) ∧
  (∀ x, x ∈ dataSectors hdr → Test freeMap x = false ∧ in_range freeMap x) ∧
  (∀ y, Test freeMap' y = true ↔ y ∈ dataSectors hdr ∨ Test freeMap y = true) ∧
  length freeMap' = length freeMap.
Proof.
  unfold FileHdr.Allocate. case_decide as Hc; [done|].
  destruct (FindAndSet_n _ freeMap) as [secs fm] eqn:Hn.
  intros [= <- <-]. cbn [numBytes dataSectors].
  destruct (FindAndSet_n_spec (Z.to_nat (divRoundUp fileSize SectorSize))
              freeMap secs fm ltac:(lia) Hn) as (? & ? & ? & ? & ?).
  done.
Qed.

Lemma Test_new (n : nat) x : Test (new n) x = false.
Proof.
  destruct (Test (new n) x) eqn:Ht; [|done].
  apply Test_true in Ht as (i & _ & Hi).
  apply lookup_replicate in Hi as [? _]. done.
Qed.

Lemma length_Mark bits x : length (Mark bits x) = length bits.
Proof. unfold Mark. case_decide; [apply length_insert|done]. Qed.

Lemma Test_Mark bits x y :
  in_range bits x →
  Test (Mark bits x) y = true ↔ y = x ∨ Test bits y = true.
Proof.
  intros Hr. unfold Mark. rewrite decide_True by done.
  unfold in_range in Hr.
  rewrite Test_insert_true by lia.
  rewrite Z2Nat.id by lia. done.
Qed.

End allocation_facts.
End AllocationFacts.

(** * The contents of files on the disk *)

Module StorageFacts.
Section storage_facts.
Context `{Config}.
Import Storage.

Lemma divRoundUp_covers (n s : Z) : 0 ≤ n → 0 < s → n ≤ s * divRoundUp n s.
Proof.
  intros Hn Hs. unfold divRoundUp.
  pose proof (Z.quot_rem' n s) as Hq.
  pose proof (Z.rem_bound_pos n s Hn Hs) as Hr.
  case_decide; nia.
Qed.

(** A file whose bytes suffice for [n] records has blocks enough for them
    in the model. *)
Lemma room_for_records (n len : nat) (bytes : Z) :
  0 < SectorSize → 0 < DirectoryEntrySize →
  DirectoryEntrySize * Z.of_nat n ≤ bytes →
  bytes ≤ SectorSize * Z.of_nat len →
  (0 < EntriesPerSector)%nat ∧ (n ≤ EntriesPerSector * len)%nat.
Proof.
  intros HS HE Hn Hlen. unfold EntriesPerSector.
  assert (0 ≤ SectorSize) as HS0 by (clear -HS; lia).
  pose proof (divRoundUp_covers SectorSize DirectoryEntrySize HS0 HE) as Hc.
  set (p := divRoundUp SectorSize DirectoryEntrySize) in *.
  assert (0 < p) as Hp.
  { apply Z.nle_gt. intros Hp0.
    pose proof (Z.mul_nonneg_nonpos DirectoryEntrySize p). lia. }
  split; [lia|].
  apply Nat2Z.inj_le. rewrite Nat2Z.inj_mul, Z2Nat.id by lia.
  apply (Z.mul_le_mono_pos_l _ _ DirectoryEntrySize HE).
  assert (SectorSize * Z.of_nat len ≤ DirectoryEntrySize * p * Z.of_nat len)
    as Hm by (apply Z.mul_le_mono_nonneg_r; lia).
  lia.
Qed.

Lemma write_chunks_other {A} (mk : list A → Block) per secs xs
    (dsk : gmap Z Block) (x : Z) :
  x ∉ secs → write_chunks mk per secs xs dsk !! x = dsk !! x.
Proof.
  revert xs dsk. induction secs as [|s secs IH]; intros xs dsk Hx; [done|].
  apply not_elem_of_cons in Hx as [Hne Hx].
  destruct xs as [|a xs]; [done|]. cbn [write_chunks].
  rewrite IH by done. by rewrite lookup_insert_ne.
Qed.

(** What [write_chunks] leaves in a sector depends on that sector alone,
    and writing the same contents twice is writing them once. *)
Lemma write_chunks_agree {A} (mk : list A → Block) per secs xs
    (d1 d2 : gmap Z Block) (x : Z) :
  d1 !! x = d2 !! x →
  write_chunks mk per secs xs d1 !! x = write_chunks mk per secs xs d2 !! x.
Proof.
  revert xs d1 d2. induction secs as [|s secs IH]; intros xs d1 d2 Hx; [done|].
  destruct xs as [|a xs]; [done|]. cbn [write_chunks]. apply IH.
  destruct (decide (x = s)) as [->|Hne].
  - by rewrite !lookup_insert_eq.
  - by rewrite !lookup_insert_ne.
Qed.

Lemma write_chunks_idem {A} (mk : list A → Block) per secs xs
    (dsk : gmap Z Block) (x : Z) :
  NoDup secs →
  write_chunks mk per secs xs (write_chunks mk per secs xs dsk) !! x =
  write_chunks mk per secs xs dsk !! x.
Proof.
  revert xs dsk. induction secs as [|s secs IH]; intros xs dsk Hnd; [done|].
  apply NoDup_cons in Hnd as [Hs Hnd].
  destruct xs as [|a xs]; [done|]. cbn [write_chunks].
  set (c := mk (take per (a :: xs))). set (rest := drop per (a :: xs)).
  destruct (decide (x = s)) as [->|Hne].
  - rewrite !write_chunks_other by done. by rewrite !lookup_insert_eq.
  - transitivity
      (write_chunks mk per secs rest
         (write_chunks mk per secs rest (<[s:=c]> dsk)) !! x).
    + apply write_chunks_agree. by rewrite lookup_insert_ne.
    + by apply IH.
Qed.

Lemma read_chunks_agree {A} (get : Block → list A) secs
    (d1 d2 : gmap Z Block) :
  (∀ x, x ∈ secs → d1 !! x = d2 !! x) →
  read_chunks get secs d1 = read_chunks get secs d2.
Proof.
  intros Hag. unfold read_chunks. f_equal.
  apply list_fmap_ext. intros i x Hx.
  rewrite (Hag x); [done|]. by eapply list_elem_of_lookup_2.
Qed.

Lemma read_chunks_cons {A} (get : Block → list A) s secs (dsk : gmap Z Block) :
  read_chunks get (s :: secs) dsk =
    (match dsk !! s with Some b => get b | None => [] end) ++
    read_chunks get secs dsk.
Proof. reflexivity. Qed.

(** What is written over sectors that differ from one another, and fits in
    them, is read back in front of the rest. *)
Lemma read_write_chunks {A} (mk : list A → Block) (get : Block → list A)
    per secs :
  (∀ l, get (mk l) = l) → (0 < per)%nat →
  ∀ xs (dsk : gmap Z Block),
    NoDup secs → (length xs ≤ per * length secs)%nat →
    ∃ rest, read_chunks get secs (write_chunks mk per secs xs dsk) = xs ++ rest.
Proof.
  intros Hget Hper. induction secs as [|s secs IH]; intros xs dsk Hnd Hlen.
  - simpl in Hlen. destruct xs; [|simpl in Hlen; lia]. by exists [].
  - apply NoDup_cons in Hnd as [Hs Hnd].
    destruct xs as [|a xs]; [by eexists|].
    cbn [write_chunks]. rewrite read_chunks_cons.
    rewrite write_chunks_other by done. rewrite lookup_insert_eq, Hget.
    destruct (IH (drop per (a :: xs)) (<[s:=mk (take per (a :: xs))]> dsk) Hnd)
      as (rest & ->).
    + rewrite length_drop. simpl in Hlen |- *. lia.
    + exists rest. by rewrite app_assoc, take_drop.
Qed.

Lemma overlay_exact {A} (old xs rest : list A) :
  length xs = length old → overlay old (xs ++ rest) = xs.
Proof.
  intros Hlen. unfold overlay. rewrite <- Hlen.
  rewrite take_app_length. rewrite Hlen, drop_all. apply app_nil_r.
Qed.

Lemma length_overlay {A} (old read : list A) :
  length (overlay old read) = length old.
Proof.
  unfold overlay. rewrite length_app, length_drop, length_take. lia.
Qed.

Lemma tableSize_FetchFrom d file dsk :
  Directory.tableSize (Directory_FetchFrom d file dsk) = Directory.tableSize d.
Proof. unfold Directory.tableSize. cbn [table]. apply length_overlay. Qed.

Lemma Directory_FetchFrom_agree d file (d1 d2 : gmap Z Block) :
  (∀ x, x ∈ dataSectors (hdr file) → d1 !! x = d2 !! x) →
  Directory_FetchFrom d file d1 = Directory_FetchFrom d file d2.
Proof.
  intros Hag. unfold Directory_FetchFrom.
  by rewrite (read_chunks_agree _ _ d1 d2 Hag).
Qed.

Lemma Open_agree (d1 d2 : gmap Z Block) (sector : Z) :
  d1 !! sector = d2 !! sector → Open d1 sector = Open d2 sector.
Proof. intros Hag. unfold Open, FileHdr.FetchFrom. by rewrite Hag. Qed.

Lemma Directory_round_trip (d d0 : Directory) (file : OpenFile)
    (dsk : gmap Z Block) :
  NoDup (dataSectors (hdr file)) →
  (0 < EntriesPerSector)%nat →
  (Directory.tableSize d ≤
   EntriesPerSector * length (dataSectors (hdr file)))%nat →
  Directory.tableSize d0 = Directory.tableSize d →
  Directory_FetchFrom d0 file (Directory_WriteBack d file dsk) = d.
Proof.
  intros Hnd Hper Hroom Hsize.
  unfold Directory_FetchFrom, Directory_WriteBack.
  destruct (read_write_chunks BlockEntries get_entries EntriesPerSector
              (dataSectors (hdr file)) ltac:(done) Hper (table d) dsk Hnd Hroom)
    as (rest & ->).
  rewrite overlay_exact by done. by destruct d.
Qed.

(** X6: when sectors and records have a size, a table written back to a
    file that has at least the bytes of the table, in data sectors that
    differ from one another and cover the bytes of the file, is the table
    fetched from that file afterwards, whatever table of that size the
    fetch starts from; and the write-back changes no other sector of the
    disk. *)
Theorem Directory_WriteBack_then_FetchFrom
    (d d0 : Directory) (file : OpenFile) (dsk : gmap Z Block) :
  0 < SectorSize → 0 < DirectoryEntrySize →
  NoDup (dataSectors (hdr file)) →
  DirectoryEntrySize * Z.of_nat (Directory.tableSize d) ≤ numBytes (hdr file) →
  numBytes (hdr file) ≤
    SectorSize * Z.of_nat (length (dataSectors (hdr file))) →
  Directory.tableSize d0 = Directory.tableSize d →
  Directory_FetchFrom d0 file (Directory_WriteBack d file dsk) = d ∧
  ∀ x, x ∉ dataSectors (hdr file) →
       Directory_WriteBack d file dsk !! x = dsk !! x.
Proof.
  intros HS HE Hnd Hbytes Hcover Hsize.
  destruct (room_for_records _ _ _ HS HE Hbytes Hcover) as [Hper Hroom].
  split.
  - by apply Directory_round_trip.
  - intros x Hx. by apply write_chunks_other.
Qed.

End storage_facts.
End StorageFacts.

(** * Path resolution when the disk changes *)

Module ResolutionFacts.
Section resolution_facts.
Context `{Config}.
Import CString Directory FileSystem ParseFacts Resolution StorageFacts.

Lemma Parse_loop_walk dsk directory handle comps :
  Parse_loop dsk directory handle comps =
    snd <$> walk_loop dsk directory handle comps.
Proof.
  revert directory handle. induction comps as [|c rest IH];
    intros directory handle; simpl; [done|].
  case_decide; [done|]. apply IH.
Qed.

Lemma walk_loop_Resolves dsk directory handle comps :
  Resolves dsk directory handle comps (walk_loop dsk directory handle comps).
Proof.
  revert directory handle. induction comps as [|c rest IH];
    intros directory handle; simpl; [constructor|].
  case_decide; [by constructor|]. constructor; [done|]. apply IH.
Qed.

Lemma tableSize_walk_loop dsk directory handle comps d' h' :
  walk_loop dsk directory handle comps = Some (d', h') →
  tableSize d' = tableSize directory.
Proof.
  revert directory handle. induction comps as [|c rest IH];
    intros directory handle; simpl.
  - by intros [= <- _].
  - case_decide; [done|]. intros Hw. apply IH in Hw.
    by rewrite Hw, tableSize_FetchFrom.
Qed.

(** The walk over the components and then one more. *)
Lemma walk_loop_snoc dsk directory handle comps c :
  walk_loop dsk directory handle (comps ++ [c]) =
    match walk_loop dsk directory handle comps with
    | None => None
    | Some (d1, h1) =>
        if decide (Find d1 c = -1) then None
        else
          Some (Storage.Directory_FetchFrom d1 (Storage.Open dsk (Find d1 c)) dsk,
                Storage.Open dsk (Find d1 c))
    end.
Proof.
  revert directory handle. induction comps as [|c0 rest IH];
    intros directory handle; simpl.
  - by case_decide.
  - case_decide; [done|]. apply IH.
Qed.

(** Two disks that agree on the sectors the loop reads give the same
    handle, and the same table up to the last component. *)
Lemma walk_loop_agree (d1 d2 : gmap Z Block) comps c :
  ∀ directory handle,
    (∀ x, x ∈ Parse_loop_reads d1 directory (comps ++ [c]) →
          d2 !! x = d1 !! x) →
    walk_loop d2 directory handle comps = walk_loop d1 directory handle comps ∧
    Parse_loop d2 directory handle (comps ++ [c]) =
      Parse_loop d1 directory handle (comps ++ [c]).
Proof.
  induction comps as [|c0 rest IH]; intros directory handle Hag.
  - split; [done|]. simpl in *. case_decide; [done|].
    rewrite (Open_agree d2 d1); [done|]. apply Hag. apply list_elem_of_here.
  - cbn [app walk_loop Parse_loop Parse_loop_reads] in *.
    case_decide as Hf; [done|].
    assert (Storage.Open d2 (Find directory c0) =
            Storage.Open d1 (Find directory c0)) as HO.
    { apply Open_agree, Hag, list_elem_of_here. }
    rewrite HO.
    assert (Storage.Directory_FetchFrom directory
              (Storage.Open d1 (Find directory c0)) d2 =
            Storage.Directory_FetchFrom directory
              (Storage.Open d1 (Find directory c0)) d1) as HF.
    { apply Directory_FetchFrom_agree. intros x Hx. apply Hag.
      apply list_elem_of_further, elem_of_app. left.
      by destruct rest. }
    rewrite HF. apply IH. intros x Hx. apply Hag.
    apply list_elem_of_further, elem_of_app. by right.
Qed.

Lemma Parse_loop_agree (d1 d2 : gmap Z Block) comps directory handle :
  (∀ x, x ∈ Parse_loop_reads d1 directory comps → d2 !! x = d1 !! x) →
  Parse_loop d2 directory handle comps = Parse_loop d1 directory handle comps.
Proof.
  destruct comps as [|c l _] using rev_ind; [done|].
  intros Hag. by apply walk_loop_agree.
Qed.

(** [Parse] gives the same handle in a state whose disk agrees with the
    disk of [s] on the sectors [Parse] reads in [s]. *)
Lemma Parse_agree (path : string) (create : bool) (s s' : State) r :
  freeMapFile s' = freeMapFile s → directoryFile s' = directoryFile s →
  (∀ x, x ∈ Parse_reads path create s → disk s' !! x = disk s !! x) →
  Parse path create s = Returns r s →
  Parse path create s' = Returns r s'.
Proof.
  intros Hfm Hdf Hag HP.
  apply Parse_Returns in HP as (_ & Hb & ->).
  rewrite (Parse_in_bounds path create s' Hb). f_equal. f_equal. f_equal.
  unfold Parse_reads in Hag. cbn zeta in Hag.
  remember (take (length (tokens path) - (if create then 1 else 0))
              (tokens path)) as comps eqn:Hc.
  assert (root_handle s' = root_handle s) as ->.
  { apply Open_agree, Hag, list_elem_of_here. }
  destruct (decide (comps = [])) as [->|Hne]; [done|].
  assert (root_directory s' = root_directory s) as ->.
  { unfold root_directory. rewrite Hdf. apply Directory_FetchFrom_agree.
    intros x Hx. apply Hag, list_elem_of_further, elem_of_app. left.
    by destruct comps. }
  apply Parse_loop_agree. intros x Hx.
  apply Hag, list_elem_of_further, elem_of_app. by right.
Qed.

End resolution_facts.
End ResolutionFacts.

(** * How the operations compose *)

Module CompositionFacts.
Section composition_facts.
Context `{Config}.
Import CString Directory FileSystem ParseFacts FileSystemFacts Resolution
  StorageFacts ResolutionFacts AllocationFacts DirectoryMore.

Lemma folder_last_state folder count s s' final :
  folder_last folder count s = Returns final s →
  folder_last folder count s' = Returns final s'.
Proof.
  unfold folder_last. destruct count as [|k]; [done|].
  destruct (folder !! k); [|done]. by intros [= ->].
Qed.

Lemma tableSize_fetch_directory file s :
  tableSize (fetch_directory file s) = NumDirEntries.
Proof.
  unfold fetch_directory. rewrite tableSize_FetchFrom.
  unfold tableSize, new. cbn [table]. apply length_replicate.
Qed.

(** A file long enough for a table has blocks enough for it. *)
Lemma holds_table_room file :
  holds_table file →
  NoDup (dataSectors (hdr file)) ∧
  (0 < Storage.EntriesPerSector)%nat ∧
  (NumDirEntries ≤
   Storage.EntriesPerSector * length (dataSectors (hdr file)))%nat.
Proof.
  intros (Hnd & HS & HE & Hbytes & Hcover). split; [done|].
  by apply (room_for_records _ _ (numBytes (hdr file))).
Qed.

(** What [safe_to_update] gives about a sector that is clear in the bitmap
    on the disk. *)
Lemma safe_clear path parent s x :
  safe_to_update path parent s →
  Bitmap.Test (load_freeMap s) x = false →
  (x ∉ Parse_reads path true s) ∧
  (x ∉ dataSectors (hdr parent)) ∧
  (x ∉ dataSectors (hdr (freeMapFile s))).
Proof.
  intros (_ & _ & _ & _ & _ & Hmarked) Hx. rewrite Forall_forall in Hmarked.
  split_and!; intros Hin;
    rewrite Hmarked in Hx by (rewrite !elem_of_app; auto); done.
Qed.

Lemma FindAndSet_clear bits sector bits' :
  Bitmap.FindAndSet bits = (sector, bits') → sector ≠ -1 →
  0 ≤ sector ∧ Bitmap.Test bits sector = false.
Proof.
  intros Hf Hne. destruct (FindAndSet_found _ _ _ Hf Hne) as (i & -> & Hi & _).
  split; [lia|]. by apply Test_false_in_range.
Qed.

(** X7: under the layout safe_to_update (the parent of a name, and every
    file the resolution of the name looks a component up in, has the bytes
    of a table at least, in sectors that differ and cover them, and holds a
    table; the bitmap file has the bytes of the bitmap at least and holds
    it; the parent shares no sector with the bitmap file or with what the
    resolution of the name reads; and these sectors are marked in the
    bitmap), a Create of the name that returns true
    is followed by an Open of the name that returns a handle on the header
    Create allocated, of the size asked; and a second Create of the name
    returns false and leaves the state as it is. *)
Theorem Create_then_Open (nm : string) (initialSize : Z) (s s' : State)
    (odf : OpenFile) (folder : list string) (count : nat) :
  Parse nm true s = Returns (Some odf, folder, count) s →
  safe_to_update nm odf s →
  Create nm initialSize s = Returns true s' →
  ∃ newHdr,
    numBytes newHdr = initialSize ∧
    FileSystem.Open nm s' = Returns (Some (mkOpenFile newHdr 0)) s' ∧
    ∀ size2, Create nm size2 s' = Returns false s'.
Proof.
  intros HP Hsafe HC.
  apply Create_Returns in HC as [[? _]|HC]; [done|].
  destruct HC as (odf' & folder' & count' & final & sector & freeMap1
                  & directory1 & newHdr & freeMap2 & HP' & HL & HF & HS & Hsec
                  & HA & HAl & _ & ->).
  rewrite HP in HP'. injection HP' as <- <- <-.
  destruct (FindAndSet_clear _ _ _ HS Hsec) as [Hpos Hclear].
  destruct (safe_clear nm odf s sector Hsafe Hclear) as (Hr & Hp & Hb).
  destruct Hsafe as ((Hhold & _) & _ & _ & Hreads & Hdisj & _).
  destruct (holds_table_room _ Hhold) as (Hnd & Hper & Hroom).
  rewrite Forall_forall in Hreads, Hdisj.
  set (s' := mkState _ _ _ _).
  assert (∀ x, x ∈ Parse_reads nm true s → disk s' !! x = disk s !! x) as Hag.
  { intros x Hx. destruct (Hreads x Hx) as [Hxp Hxb]. cbn [disk s'].
    unfold Storage.Bitmap_WriteBack, Storage.Directory_WriteBack,
      FileHdr.WriteBack.
    rewrite !write_chunks_other by done.
    apply lookup_insert_ne. intros ->. done. }
  pose proof (Parse_agree nm true s s' _ eq_refl eq_refl Hag HP) as HPs.
  pose proof (folder_last_state folder count s s' final HL) as HLs.
  assert (fetch_directory odf s' = directory1) as Hfetch.
  { unfold fetch_directory. cbn [disk s'].
    rewrite (Directory_FetchFrom_agree _ odf _
               (Storage.Directory_WriteBack directory1 odf
                  (FileHdr.WriteBack newHdr sector (disk s)))).
    - apply Directory_round_trip; [done..| |].
      + replace directory1
          with (Add (fetch_directory odf s) final sector false).2
          by (by rewrite HA).
        by rewrite tableSize_Add, tableSize_fetch_directory.
      + replace directory1
          with (Add (fetch_directory odf s) final sector false).2
          by (by rewrite HA).
        rewrite tableSize_Add, tableSize_fetch_directory.
        unfold tableSize, new. cbn [table]. apply length_replicate.
    - intros x Hx. unfold Storage.Bitmap_WriteBack.
      apply write_chunks_other. by apply Hdisj. }
  assert (Find directory1 final = sector) as Hfind
    by (by eapply Find_after_Add).
  exists newHdr. split_and!.
  - by destruct (Allocate_spec _ _ _ _ HAl) as (? & _).
  - unfold FileSystem.Open. run. rewrite HPs, HLs.
    fold (fetch_directory odf s'). rewrite Hfetch, Hfind.
    rewrite decide_True by done. do 2 f_equal.
    unfold Storage.Open, FileHdr.FetchFrom. cbn [disk s'].
    unfold Storage.Bitmap_WriteBack, Storage.Directory_WriteBack,
      FileHdr.WriteBack.
    rewrite !write_chunks_other by done. by rewrite lookup_insert_eq.
  - intros size2. rewrite (Create_steps nm size2 s' odf folder count final HPs HLs).
    rewrite Hfetch, Hfind. by rewrite decide_True.
Qed.

(** Every way [Remove] returns true. *)
Lemma Remove_Returns_true nm s s' :
  FileSystem.Remove nm s = Returns true s' →
  ∃ odf folder count final,
    Parse nm true s = Returns (Some odf, folder, count) s ∧
    folder_last folder count s = Returns final s ∧
    Find (fetch_directory odf s) final ≠ -1 ∧
    s' = mkState
           (Storage.Directory_WriteBack
              (Directory.Remove (fetch_directory odf s) final).2 odf
              (Storage.Bitmap_WriteBack
                 (Bitmap.Clear
                    (FileHdr.Deallocate
                       (FileHdr.FetchFrom (disk s)
                          (Find (fetch_directory odf s) final))
                       (load_freeMap s))
                    (Find (fetch_directory odf s) final))
                 (freeMapFile s) (disk s)))
           (freeMapFile s) (directoryFile s)
           (writes s ++
            [BitmapWrite (freeMapFile s)
               (Bitmap.Clear
                  (FileHdr.Deallocate
                     (FileHdr.FetchFrom (disk s)
                        (Find (fetch_directory odf s) final))
                     (load_freeMap s))
                  (Find (fetch_directory odf s) final));
             DirectoryWrite odf
               (Directory.Remove (fetch_directory odf s) final).2]).
Proof.
  unfold FileSystem.Remove. run.
  destruct (Parse nm true s) as [[[odf folder] count] s0| | |] eqn:HP;
    try done.
  pose proof (Parse_Returns _ _ _ _ _ HP) as (-> & _ & _).
  destruct odf as [odf|]; [|done].
  destruct (folder_last folder count s) as [final s0| | |] eqn:HL; try done.
  pose proof (folder_last_Returns _ _ _ _ _ HL) as (-> & _).
  fold (fetch_directory odf s). cbn zeta.
  case_decide as HF; [done|]. simpl. intros [= <-].
  exists odf, folder, count, final. split_and!; try done.
  by rewrite <- !app_assoc.
Qed.

(** X8: under the layout safe_to_update (the parent and the files looked
    up in are long enough for a table and hold one, the bitmap file is long
    enough for the bitmap and holds it, parent, bitmap file and what the
    resolution reads share no sector and are marked in the bitmap), and
    when the names in use in the parent
    table are pairwise different, a Remove of a name that returns true is
    followed by an Open of the name that returns no handle, and by a second
    Remove that returns false; both leave the state as it is. *)
Theorem Remove_then_Open (nm : string) (s s' : State)
    (odf : OpenFile) (folder : list string) (count : nat) :
  Parse nm true s = Returns (Some odf, folder, count) s →
  safe_to_update nm odf s →
  distinct_names (fetch_directory odf s) →
  FileSystem.Remove nm s = Returns true s' →
  FileSystem.Open nm s' = Returns None s' ∧
  FileSystem.Remove nm s' = Returns false s'.
Proof.
  intros HP Hsafe Hdist HR.
  apply Remove_Returns_true in HR
    as (odf' & folder' & count' & final & HP' & HL & HF & ->).
  rewrite HP in HP'. injection HP' as <- <- <-.
  destruct Hsafe as ((Hhold & _) & _ & _ & Hreads & Hdisj & _).
  destruct (holds_table_room _ Hhold) as (Hnd & Hper & Hroom).
  rewrite Forall_forall in Hreads, Hdisj.
  set (s' := mkState _ _ _ _).
  assert (∀ x, x ∈ Parse_reads nm true s → disk s' !! x = disk s !! x) as Hag.
  { intros x Hx. destruct (Hreads x Hx) as [Hxp Hxb]. cbn [disk s'].
    unfold Storage.Bitmap_WriteBack, Storage.Directory_WriteBack.
    by rewrite !write_chunks_other by done. }
  pose proof (Parse_agree nm true s s' _ eq_refl eq_refl Hag HP) as HPs.
  pose proof (folder_last_state folder count s s' final HL) as HLs.
  assert ((Directory.Remove (fetch_directory odf s) final).1 = true) as Hrem.
  { destruct (DirectoryFacts.Remove_cases (fetch_directory odf s) final)
      as [HR'|(i & e & _ & _ & ->)]; [|done].
    exfalso. apply HF. rewrite Find_of_find.
    destruct (list_find _ _) as [[i e]|] eqn:Hfind; [|done].
    by rewrite (DirectoryFacts.Remove_found _ _ _ _ Hfind) in HR'. }
  assert (fetch_directory odf s' =
          (Directory.Remove (fetch_directory odf s) final).2) as Hfetch.
  { unfold fetch_directory at 1. cbn [disk s'].
    apply Directory_round_trip; [done..| |].
    - by rewrite tableSize_Remove, tableSize_fetch_directory.
    - rewrite tableSize_Remove, tableSize_fetch_directory.
      unfold tableSize, new. cbn [table]. apply length_replicate. }
  assert (Find (fetch_directory odf s') final = -1) as Hfind.
  { rewrite Hfetch. apply (Find_after_Remove (fetch_directory odf s)); [|done].
    by destruct (Directory.Remove (fetch_directory odf s) final) as [[] ?]. }
  split.
  - unfold FileSystem.Open. run. rewrite HPs, HLs.
    fold (fetch_directory odf s'). rewrite Hfind.
    by rewrite decide_False by lia.
  - rewrite (Remove_steps nm s' odf folder count final HPs HLs). cbn zeta.
    rewrite Hfind. by rewrite decide_True.
Qed.

End composition_facts.
End CompositionFacts.

(** * CreateDirectory *)

Module CreateDirectoryFacts.
Section create_directory_facts.
Context `{Config}.
Import CString Directory FileSystem ParseFacts FileSystemFacts Resolution
  StorageFacts ResolutionFacts AllocationFacts DirectoryMore CompositionFacts.

(** [CreateDirectory] with its loop over the components named. *)
Lemma CreateDirectory_eq (path : string) (s : State) :
  CreateDirectory path s =
    if decide (10 < length (tokens path))%nat then Undefined
    else
      match walk_loop (disk s) (root_directory s) (root_handle s)
              (take (length (tokens path) - 1) (tokens path)) with
      | None => Returns false s
      | Some (directory, tempDirectory) =>
          let found := Bitmap.FindAndSet (load_freeMap s) in
          if decide (found.1 = -1) then Returns false s
          else
            match folder_last (tokens path) (length (tokens path)) s with
            | Returns final _ =>
                let added := Add directory final found.1 true in
                if negb added.1 then Returns false s
                else
                  let allocated := FileHdr.Allocate found.2 DirectoryFileSize in
                  if negb allocated.1.1 then Returns false s
                  else
                    Returns true
                      (mkState
                         (Storage.Bitmap_WriteBack allocated.2 (freeMapFile s)
                            (Storage.Directory_WriteBack added.2 tempDirectory
                               (Storage.Directory_WriteBack
                                  (Directory.new NumDirEntries)
                                  (mkOpenFile allocated.1.2 0)
                                  (FileHdr.WriteBack allocated.1.2 found.1
                                     (disk s)))))
                         (freeMapFile s) (directoryFile s)
                         (writes s ++
                          [HeaderWrite found.1 allocated.1.2;
                           DirectoryWrite (mkOpenFile allocated.1.2 0)
                             (Directory.new NumDirEntries);
                           DirectoryWrite tempDirectory added.2;
                           BitmapWrite (freeMapFile s) allocated.2]))
            | Aborts => Aborts
            | Undefined => Undefined
            | OutOfFuel => OutOfFuel
            end
      end.
Proof.
  unfold CreateDirectory. run. case_decide; [done|].
  match goal with
  | |- context [match ?w ?d ?t ?c with _ => _ end] =>
      assert (∀ comps d0 t0, w d0 t0 comps = walk_loop (disk s) d0 t0 comps)
        as Hw
  end.
  { induction comps as [|c rest IH]; intros d0 t0; simpl; [done|].
    case_decide; [done|]. apply IH. }
  rewrite Hw. fold (root_directory s) (root_handle s).
  destruct (walk_loop _ _ _ _) as [[directory tempDirectory]|]; [|done].
  destruct (Bitmap.FindAndSet (load_freeMap s)) as [sector freeMap1].
  cbn [fst snd]. case_decide; [done|].
  destruct (folder_last _ _ s) as [final s0| | |] eqn:HL; try done.
  pose proof (folder_last_Returns _ _ _ _ _ HL) as (-> & _).
  destruct (Add directory final sector true) as [added directory1].
  cbn [fst snd]. destruct added; [|done].
  destruct (FileHdr.Allocate freeMap1 DirectoryFileSize)
    as [[ok newHdr] freeMap2].
  cbn [fst snd]. destruct ok; [|done]. simpl.
  unfold FileHdr.WriteBack.
  assert (Storage.Open (<[sector:=BlockHeader newHdr]> (disk s)) sector =
          mkOpenFile newHdr 0) as ->.
  { unfold Storage.Open, FileHdr.FetchFrom. by rewrite lookup_insert_eq. }
  by rewrite <- !app_assoc.
Qed.

(** X9: whenever CreateDirectory returns false, the state it returns in
    is the state it started from. It returns false when a component before
    the last is not found, when the bitmap has no clear bit for the header,
    when the last name is found in the parent table or the table has no
    unused slot, and when the bitmap lacks the sectors of a table. *)
Theorem CreateDirectory_failure_writes_nothing (path : string) (s : State) :
  (∀ s', CreateDirectory path s = Returns false s' → s' = s) ∧
  ((length (tokens path) ≤ 10)%nat →
   (walk_loop (disk s) (root_directory s) (root_handle s)
      (take (length (tokens path) - 1) (tokens path)) = None →
    CreateDirectory path s = Returns false s) ∧
   (∀ directory tempDirectory final,
      walk_loop (disk s) (root_directory s) (root_handle s)
        (take (length (tokens path) - 1) (tokens path)) =
        Some (directory, tempDirectory) →
      folder_last (tokens path) (length (tokens path)) s = Returns final s →
      (Bitmap.FindAndSet (load_freeMap s)).1 = -1 ∨
      FindIndex directory final ≠ -1 ∨
      (∀ e, e ∈ table directory → inUse e = true) ∨
      (FileHdr.Allocate (Bitmap.FindAndSet (load_freeMap s)).2
         DirectoryFileSize).1.1 = false →
      CreateDirectory path s = Returns false s)).
Proof.
  split.
  - intros s'. rewrite CreateDirectory_eq.
    repeat (first [progress cbn zeta | case_match]); try done.
    all: by intros [= <-].
  - intros Hc. rewrite CreateDirectory_eq. rewrite decide_False by lia.
    split; [by intros ->|].
    intros directory tempDirectory final -> HL Hcause. cbn zeta. rewrite HL.
    case_decide as HS; [done|].
    destruct (Add directory final (Bitmap.FindAndSet (load_freeMap s)).1 true).1
      eqn:HA; [|done]. cbn [negb].
    destruct (FileHdr.Allocate (Bitmap.FindAndSet (load_freeMap s)).2
                DirectoryFileSize).1.1 eqn:HAl; [|done].
    exfalso. destruct Hcause as [Hc1|[Hc1|[Hc1|Hc1]]]; try done.
    + unfold Add in HA. case_decide; [done|]. done.
    + by rewrite (DirectoryFacts.Add_full _ _ _ _ Hc1) in HA.
Qed.

(** X10: when CreateDirectory returns true it has issued exactly four
    write-backs, in this order: the header of the new directory to the
    sector taken for it, an empty table of NumDirEntries slots to the new
    file, the parent table to the parent's file, the bitmap to the bitmap
    file. The parent's file is the one Parse(path, TRUE) resolves when the
    path has fewer than 100 characters, and in the parent table written the
    last name is found, in a slot tagged as a directory, with the sector
    taken. *)
Theorem CreateDirectory_commit_order (path : string) (s s' : State) :
  CreateDirectory path s = Returns true s' →
  ∃ directory tempDirectory final sector freeMap1 directory1 newHdr freeMap,
    walk_loop (disk s) (root_directory s) (root_handle s)
      (take (length (tokens path) - 1) (tokens path)) =
      Some (directory, tempDirectory) ∧
    ((strlen path < 100)%nat →
     Parse path true s =
       Returns (Some tempDirectory, tokens path, length (tokens path)) s) ∧
    folder_last (tokens path) (length (tokens path)) s = Returns final s ∧
    Bitmap.FindAndSet (load_freeMap s) = (sector, freeMap1) ∧
    Add directory final sector true = (true, directory1) ∧
    FileHdr.Allocate freeMap1 DirectoryFileSize = (true, newHdr, freeMap) ∧
    Find directory1 final = sector ∧
    isDir (entry directory1 (FindIndex directory1 final)) = true ∧
    writes s' =
      writes s ++
      [HeaderWrite sector newHdr;
       DirectoryWrite (mkOpenFile newHdr 0) (Directory.new NumDirEntries);
       DirectoryWrite tempDirectory directory1;
       BitmapWrite (freeMapFile s) freeMap] ∧
    disk s' =
      Storage.Bitmap_WriteBack freeMap (freeMapFile s)
        (Storage.Directory_WriteBack directory1 tempDirectory
           (Storage.Directory_WriteBack (Directory.new NumDirEntries)
              (mkOpenFile newHdr 0)
              (FileHdr.WriteBack newHdr sector (disk s)))).
Proof.
  rewrite CreateDirectory_eq. case_decide as Hc; [done|].
  destruct (walk_loop _ _ _ _) as [[directory tempDirectory]|] eqn:Hw; [|done].
  cbn zeta.
  destruct (Bitmap.FindAndSet (load_freeMap s)) as [sector freeMap1] eqn:HS.
  cbn [fst snd]. case_decide; [done|].
  destruct (folder_last _ _ s) as [final s0| | |] eqn:HL; try done.
  pose proof (folder_last_Returns _ _ _ _ _ HL) as (-> & _).
  destruct (Add directory final sector true) as [added directory1] eqn:HA.
  cbn [fst snd]. destruct added; [|done]. cbn [negb].
  destruct (FileHdr.Allocate freeMap1 DirectoryFileSize)
    as [[ok newHdr] freeMap2] eqn:HAl.
  cbn [fst snd]. destruct ok; [|done]. cbn [negb]. intros [= <-].
  exists directory, tempDirectory, final, sector, freeMap1, directory1, newHdr,
    freeMap2.
  split_and!; try done.
  - intros Hlen. rewrite Parse_in_bounds by (split; lia).
    by rewrite Parse_loop_walk, Hw.
  - by eapply Find_after_Add.
  - destruct (entry_after_Add _ _ _ _ _ HA) as [_ ->]. done.
Qed.

End create_directory_facts.
End CreateDirectoryFacts.

(** * A directory just created *)

Module NewDirectoryFacts.
Section new_directory_facts.
Context `{Config}.
Import CString Directory FileSystem ParseFacts FileSystemFacts Resolution
  StorageFacts ResolutionFacts AllocationFacts DirectoryMore CompositionFacts
  ListingFacts CreateDirectoryFacts.

(** The sectors [Allocate] gives a file of [DirectoryFileSize] bytes have
    room for a table of [NumDirEntries] entries. *)
Lemma table_room :
  0 < SectorSize → 0 < DirectoryEntrySize →
  (NumDirEntries ≤
   Storage.EntriesPerSector *
   Z.to_nat (divRoundUp DirectoryFileSize SectorSize))%nat.
Proof.
  intros HS HE. unfold Storage.EntriesPerSector, DirectoryFileSize.
  pose proof (divRoundUp_covers SectorSize DirectoryEntrySize) as H1.
  pose proof (divRoundUp_covers (DirectoryEntrySize * Z.of_nat NumDirEntries)
                SectorSize) as H2.
  set (p := divRoundUp SectorSize DirectoryEntrySize) in *.
  set (n := divRoundUp (DirectoryEntrySize * Z.of_nat NumDirEntries)
              SectorSize) in *.
  assert (0 ≤ Z.of_nat NumDirEntries) as Hk by lia.
  set (k := Z.of_nat NumDirEntries) in *.
  specialize (H1 ltac:(lia) HE). specialize (H2 ltac:(nia) HS).
  assert (0 < p) as Hp.
  { apply Z.nle_gt. intros Hp0.
    pose proof (Z.mul_nonneg_nonpos DirectoryEntrySize p). lia. }
  assert (0 ≤ n) as Hn0.
  { apply Z.nlt_ge. intros Hn0.
    pose proof (Z.mul_pos_neg SectorSize n HS Hn0).
    pose proof (Z.mul_nonneg_nonneg DirectoryEntrySize k). lia. }
  assert (k ≤ p * n) as Hpn.
  { apply (Z.mul_le_mono_pos_l _ _ DirectoryEntrySize HE).
    pose proof (Z.mul_le_mono_nonneg_r _ _ n Hn0 H1). lia. }
  apply Nat2Z.inj_le. rewrite Nat2Z.inj_mul, !Z2Nat.id by lia. exact Hpn.
Qed.

Lemma take_last {A} (l : list A) (k : nat) (x : A) :
  length l = S k → l !! k = Some x → l = take k l ++ [x].
Proof.
  intros Hlen Hk. rewrite <- (take_S_r l k x Hk).
  symmetry. apply take_ge. lia.
Qed.

Lemma List_new (n : nat) : Listing.List (new n) = [].
Proof.
  unfold Listing.List, new. cbn [table]. induction n as [|n IH]; [done|].
  cbn [replicate]. by rewrite filter_cons_False.
Qed.

Lemma RecurList_new fuel dsk (n k : nat) :
  Listing.RecurList (S fuel) dsk (new n) k = Some [Listing.empty_folder k].
Proof.
  assert (Forall (λ e, inUse e = false) (table (new n))) as Hall.
  { unfold new. cbn [table]. apply Forall_forall.
    intros e ->%elem_of_replicate_inv. done. }
  pose proof (proj2 (count_0 (new n)) Hall) as Hcount.
  cbn [Listing.RecurList].
  rewrite RecurList_loop_no_entry by done. cbn [mbind option_bind app].
  by rewrite decide_True.
Qed.

(** Every way [CreateDirectory] returns true. *)
Lemma CreateDirectory_Returns_true path s s' :
  CreateDirectory path s = Returns true s' →
  ∃ directory tempDirectory final sector freeMap1 directory1 newHdr freeMap,
    (length (tokens path) ≤ 10)%nat ∧
    walk_loop (disk s) (root_directory s) (root_handle s)
      (take (length (tokens path) - 1) (tokens path)) =
      Some (directory, tempDirectory) ∧
    folder_last (tokens path) (length (tokens path)) s = Returns final s ∧
    Bitmap.FindAndSet (load_freeMap s) = (sector, freeMap1) ∧
    sector ≠ -1 ∧
    Add directory final sector true = (true, directory1) ∧
    FileHdr.Allocate freeMap1 DirectoryFileSize = (true, newHdr, freeMap) ∧
    s' = mkState
           (Storage.Bitmap_WriteBack freeMap (freeMapFile s)
              (Storage.Directory_WriteBack directory1 tempDirectory
                 (Storage.Directory_WriteBack (Directory.new NumDirEntries)
                    (mkOpenFile newHdr 0)
                    (FileHdr.WriteBack newHdr sector (disk s)))))
           (freeMapFile s) (directoryFile s)
           (writes s ++
            [HeaderWrite sector newHdr;
             DirectoryWrite (mkOpenFile newHdr 0) (Directory.new NumDirEntries);
             DirectoryWrite tempDirectory directory1;
             BitmapWrite (freeMapFile s) freeMap]).
Proof.
  rewrite CreateDirectory_eq. case_decide as Hc; [done|].
  destruct (walk_loop _ _ _ _) as [[directory tempDirectory]|] eqn:Hw; [|done].
  cbn zeta.
  destruct (Bitmap.FindAndSet (load_freeMap s)) as [sector freeMap1] eqn:HS.
  cbn [fst snd]. case_decide; [done|].
  destruct (folder_last _ _ s) as [final s0| | |] eqn:HL; try done.
  pose proof (folder_last_Returns _ _ _ _ _ HL) as (-> & _).
  destruct (Add directory final sector true) as [added directory1] eqn:HA.
  cbn [fst snd]. destruct added; [|done]. cbn [negb].
  destruct (FileHdr.Allocate freeMap1 DirectoryFileSize)
    as [[ok newHdr] freeMap2] eqn:HAl.
  cbn [fst snd]. destruct ok; [|done]. cbn [negb]. intros [= <-].
  exists directory, tempDirectory, final, sector, freeMap1, directory1, newHdr,
    freeMap2.
  split_and!; (done || lia).
Qed.

(** The walk over the components before the last, in the state [Parse]
    ran in and in a state whose disk differs only off the sectors [Parse]
    read and in the table of the parent. *)
Lemma walk_to_parent path s odf folder count :
  Parse path true s = Returns (Some odf, folder, count) s →
  ∃ directory,
    walk_loop (disk s) (root_directory s) (root_handle s)
      (take (length (tokens path) - 1) (tokens path)) = Some (directory, odf) ∧
    tableSize directory = NumDirEntries ∧
    ∀ s' T,
      directoryFile s' = directoryFile s →
      directoryFile s = root_handle s →
      (∀ x, x ∈ Parse_reads path true s → disk s' !! x = disk s !! x) →
      (∀ d0, tableSize d0 = NumDirEntries →
             Storage.Directory_FetchFrom d0 odf (disk s') = T) →
      walk_loop (disk s') (root_directory s') (root_handle s')
        (take (length (tokens path) - 1) (tokens path)) = Some (T, odf).
Proof.
  intros HP. apply Parse_Returns in HP as (_ & Hb & HP).
  injection HP as HP _ _. rewrite Parse_loop_walk in HP.
  unfold Parse_reads. cbn zeta.
  remember (take (length (tokens path) - 1) (tokens path)) as visited eqn:Hv.
  clear Hv.
  destruct (walk_loop (disk s) (root_directory s) (root_handle s) visited)
    as [[directory h]|] eqn:Hw; [|done].
  cbn in HP. injection HP as ->. exists directory.
  pose proof (tableSize_walk_loop _ _ _ _ _ _ Hw) as Hsize.
  split_and!;
    [done|rewrite Hsize; apply (tableSize_fetch_directory (directoryFile s) s)|].
  intros s' T Hdf Hroot Hag Hfetch.
  assert (root_handle s' = root_handle s) as Hrh.
  { apply Open_agree, Hag, list_elem_of_here. }
  destruct visited as [|p v _] using rev_ind.
  - cbn in Hw |- *. injection Hw as <- <-. rewrite Hrh. f_equal. f_equal.
    unfold root_directory. rewrite Hdf, Hroot. apply Hfetch.
    unfold tableSize, new. cbn [table]. apply length_replicate.
  - assert (root_directory s' = root_directory s) as Hrd.
    { unfold root_directory. rewrite Hdf. apply Directory_FetchFrom_agree.
      intros x Hx. apply Hag, list_elem_of_further, elem_of_app. left.
      by destruct v. }
    rewrite Hrh, Hrd.
    destruct (walk_loop_agree (disk s) (disk s') v p (root_directory s)
                (root_handle s)) as [Hwv Hpl].
    { intros x Hx. apply Hag, list_elem_of_further, elem_of_app. by right. }
    rewrite !Parse_loop_walk, !walk_loop_snoc, Hwv in Hpl.
    rewrite walk_loop_snoc in Hw |- *. rewrite Hwv.
    destruct (walk_loop (disk s) (root_directory s) (root_handle s) v)
      as [[d1 h1]|] eqn:Hw1; [|done].
    destruct (decide (Find d1 p = -1)); [done|].
    cbv [fmap option_fmap option_map snd] in Hpl.
    assert (Storage.Open (disk s') (Find d1 p) =
            Storage.Open (disk s) (Find d1 p)) as Hop by congruence.
    injection Hw as <- <-. rewrite Hop. f_equal. f_equal.
    apply Hfetch. rewrite (tableSize_walk_loop _ _ _ _ _ _ Hw1).
    apply (tableSize_fetch_directory (directoryFile s) s).
Qed.

(** X11: under the layout safe_to_update (the parent and the files looked
    up in are long enough for a table and hold one, the bitmap file is long
    enough for the bitmap and holds it, parent, bitmap file and what the
    resolution reads share no sector and are marked in the bitmap), when
    the root handle kept open is the header in the root sector, a
    CreateDirectory of a path that returns true is followed by: an Open of
    the path that returns a handle on the header allocated, of
    DirectoryFileSize bytes; a ListDirectory of the path that prints
    nothing; a RecurListDirectory of the path that prints the one line
    Empty Folder; and a second CreateDirectory of the path that returns
    false. All four leave the state as it is. *)
Theorem CreateDirectory_then_list (path : string) (s s' : State)
    (odf : OpenFile) (folder : list string) (count : nat) :
  Parse path true s = Returns (Some odf, folder, count) s →
  safe_to_update path odf s →
  directoryFile s = root_handle s →
  CreateDirectory path s = Returns true s' →
  ∃ newHdr,
    numBytes newHdr = DirectoryFileSize ∧
    FileSystem.Open path s' = Returns (Some (mkOpenFile newHdr 0)) s' ∧
    ListDirectory path s' = Returns [] s' ∧
    (∀ fuel, RecurListDirectory (S fuel) path s' =
             Returns [Listing.empty_folder 0] s') ∧
    CreateDirectory path s' = Returns false s'.
Proof.
  intros HP Hsafe Hroot HC.
  assert (0 < SectorSize ∧ 0 < DirectoryEntrySize) as [HS HE].
  { destruct Hsafe as (((_ & HS & HE & _) & _) & _). done. }
  destruct (walk_to_parent path s odf folder count HP)
    as (directory & Hw & Hsize & Hwalk).
  apply CreateDirectory_Returns_true in HC
    as (directory' & odf' & final & sector & freeMap1 & directory1 & newHdr
        & freeMap2 & Hcount & Hw' & HL & HF & Hsec & HA & HAl & ->).
  rewrite Hw in Hw'. injection Hw' as <- <-.
  pose proof (Parse_Returns _ _ _ _ _ HP) as (_ & Hb & HP').
  injection HP' as _ -> ->.
  destruct (FindAndSet_clear _ _ _ HF Hsec) as [Hpos Hclear].
  destruct (FindAndSet_found _ _ _ HF Hsec) as (i & Hi & Hbit & Hfm1).
  pose proof (lookup_lt_Some _ _ _ Hbit) as Hilt.
  destruct (Allocate_spec _ _ _ _ HAl) as (Hbytes & Hlen & Hndn & Hfree & _).
  assert (∀ x, x ∈ dataSectors newHdr →
               Bitmap.Test (load_freeMap s) x = false ∧ x ≠ sector) as Hnew.
  { intros x Hx. destruct (Hfree x Hx) as [Hx1 _]. subst freeMap1.
    split.
    - destruct (Bitmap.Test (load_freeMap s) x) eqn:Ht; [|done].
      rewrite (proj2 (Test_insert_true (load_freeMap s) i x Hilt)) in Hx1
        by (by right). done.
    - intros Hxs. rewrite Hxs, Hi in Hx1.
      rewrite (proj2 (Test_insert_true (load_freeMap s) i (Z.of_nat i) Hilt))
        in Hx1 by (by left). done. }
  destruct (safe_clear path odf s sector Hsafe Hclear) as (Hr & Hp & Hbm).
  pose proof Hsafe as ((Hhold & _) & _ & _ & Hreads & Hdisj & _).
  destruct (holds_table_room _ Hhold) as (Hnd & Hper & Hroom).
  rewrite Forall_forall in Hreads, Hdisj.
  set (s' := mkState _ _ _ _).
  assert (tableSize directory1 = NumDirEntries) as Hsize1.
  { replace directory1 with (Add directory final sector true).2
      by (by rewrite HA).
    by rewrite tableSize_Add. }
  assert (NumDirEntries = length (replicate NumDirEntries blank)) as Hrep
    by (by rewrite length_replicate).
  assert (∀ x, x ∈ Parse_reads path true s → disk s' !! x = disk s !! x) as Hag.
  { intros x Hx. destruct (Hreads x Hx) as [Hxp Hxb]. cbn [disk s'].
    unfold Storage.Bitmap_WriteBack, Storage.Directory_WriteBack,
      FileHdr.WriteBack.
    rewrite !write_chunks_other; [|idtac..]; try done.
    - apply lookup_insert_ne. by intros ->.
    - cbn [hdr]. intros Hin. destruct (Hnew x Hin) as [Hclr _].
      destruct (safe_clear path odf s x Hsafe Hclr) as (Hnr & _). done. }
  assert (∀ d0, tableSize d0 = NumDirEntries →
                Storage.Directory_FetchFrom d0 odf (disk s') = directory1)
    as Hparent.
  { intros d0 Hd0. cbn [disk s'].
    rewrite (Directory_FetchFrom_agree _ odf _
               (Storage.Directory_WriteBack directory1 odf
                  (Storage.Directory_WriteBack (new NumDirEntries)
                     (mkOpenFile newHdr 0)
                     (FileHdr.WriteBack newHdr sector (disk s))))).
    - apply Directory_round_trip; [done|done| |]; rewrite ?Hsize1; done.
    - intros x Hx. unfold Storage.Bitmap_WriteBack.
      apply write_chunks_other. by apply Hdisj. }
  assert (Storage.Open (disk s') sector = mkOpenFile newHdr 0) as Hopen.
  { unfold Storage.Open, FileHdr.FetchFrom. cbn [disk s'].
    unfold Storage.Bitmap_WriteBack, Storage.Directory_WriteBack,
      FileHdr.WriteBack.
    rewrite !write_chunks_other; [|idtac..]; try done.
    - by rewrite lookup_insert_eq.
    - cbn [hdr]. intros Hin. by destruct (Hnew sector Hin). }
  assert (∀ d0, tableSize d0 = NumDirEntries →
                Storage.Directory_FetchFrom d0 (mkOpenFile newHdr 0) (disk s') =
                new NumDirEntries) as Hchild.
  { intros d0 Hd0. cbn [disk s'].
    rewrite (Directory_FetchFrom_agree _ (mkOpenFile newHdr 0) _
               (Storage.Directory_WriteBack (new NumDirEntries)
                  (mkOpenFile newHdr 0)
                  (FileHdr.WriteBack newHdr sector (disk s)))).
    - apply Directory_round_trip; cbn [hdr]; [done|done| |].
      + rewrite Hlen. unfold tableSize, new. cbn [table].
        rewrite length_replicate. by apply table_room.
      + rewrite Hd0. unfold tableSize, new. cbn [table].
        by rewrite length_replicate.
    - cbn [hdr]. intros x Hx. destruct (Hnew x Hx) as [Hclr _].
      destruct (safe_clear path odf s x Hsafe Hclr) as (_ & Hxp & Hxb).
      unfold Storage.Bitmap_WriteBack.
      rewrite write_chunks_other by done.
      unfold Storage.Directory_WriteBack at 1.
      by rewrite write_chunks_other by done. }
  pose proof (Hwalk s' directory1 eq_refl Hroot Hag Hparent) as Hws.
  destruct (entry_after_Add _ _ _ _ _ HA) as [Hidx Hentry].
  assert (Find directory1 final = sector) as Hfind
    by (by eapply Find_after_Add).
  pose proof (folder_last_Returns _ _ _ _ _ HL) as (_ & k & Hk & Hlast).
  pose proof (take_last (tokens path) k final Hk Hlast) as Htok.
  assert (length (tokens path) - 1 = k)%nat as Hk1 by lia.
  rewrite Hk1 in Hws.
  assert (walk_loop (disk s') (root_directory s') (root_handle s')
            (tokens path) =
          Some (new NumDirEntries, mkOpenFile newHdr 0)) as Hfull.
  { rewrite Htok at 1. rewrite walk_loop_snoc, Hws. rewrite Hfind.
    rewrite decide_False by done. rewrite Hopen. do 2 f_equal.
    by apply Hchild. }
  pose proof (Parse_agree path true s s' _ eq_refl eq_refl Hag HP) as HPs.
  pose proof (folder_last_state _ _ s s' final HL) as HLs.
  exists newHdr. split_and!.
  - done.
  - unfold FileSystem.Open. run. rewrite HPs, HLs.
    rewrite (Hparent (new NumDirEntries)), Hfind
      by (unfold tableSize, new; cbn [table]; by rewrite length_replicate).
    rewrite decide_True by done. by rewrite Hopen.
  - unfold ListDirectory. run. rewrite decide_False by lia.
    fold (root_directory s') (root_handle s'). rewrite Hfull.
    by rewrite List_new.
  - intros fuel. unfold RecurListDirectory. run.
    rewrite (Parse_in_bounds path false s' Hb), Parse_loop_walk.
    rewrite Nat.sub_0_r, firstn_all, Hfull.
    cbn [fmap option_fmap option_map snd].
    rewrite (Hchild (new NumDirEntries))
      by (unfold tableSize, new; cbn [table]; by rewrite length_replicate).
    by rewrite RecurList_new.
  - rewrite CreateDirectory_eq. rewrite decide_False by lia.
    rewrite Hk1, Hws. cbn zeta. case_decide; [done|]. rewrite HLs.
    destruct (some_match_find_index directory1 final Hidx) as (e & Hin & Hm).
    by rewrite (DirectoryFacts.Add_present directory1 final _ true e Hin Hm).
Qed.

End new_directory_facts.
End NewDirectoryFacts.

(** * Formatting *)

Module FormatFacts.
Section format_facts.
Context `{Config}.
Import CString Directory FileSystem ParseFacts FileSystemFacts Resolution
  StorageFacts ResolutionFacts AllocationFacts DirectoryMore CompositionFacts
  NewDirectoryFacts.

(** [Format] with its two assertions named. *)
Lemma Format_eq (dsk : gmap Z Block) :
  Format dsk =
    let freeMap0 :=
      Bitmap.Mark (Bitmap.Mark (Bitmap.new NumSectors) FreeMapSector)
        DirectorySector in
    let map := FileHdr.Allocate freeMap0 FreeMapFileSize in
    if negb map.1.1 then Aborts
    else
      let dir := FileHdr.Allocate map.2 DirectoryFileSize in
      if negb dir.1.1 then Aborts
      else
        Returns tt
          (mkState
             (Storage.Directory_WriteBack (Directory.new NumDirEntries)
                (mkOpenFile dir.1.2 0)
                (Storage.Bitmap_WriteBack dir.2 (mkOpenFile map.1.2 0)
                   (FileHdr.WriteBack dir.1.2 DirectorySector
                      (FileHdr.WriteBack map.1.2 FreeMapSector dsk))))
             (mkOpenFile map.1.2 0) (mkOpenFile dir.1.2 0)
             [HeaderWrite FreeMapSector map.1.2;
              HeaderWrite DirectorySector dir.1.2;
              BitmapWrite (mkOpenFile map.1.2 0) dir.2;
              DirectoryWrite (mkOpenFile dir.1.2 0)
                (Directory.new NumDirEntries)]).
Proof.
  unfold Format. cbn zeta.
  destruct (FileHdr.Allocate _ FreeMapFileSize) as [[okMap mapHdr] freeMap1].
  cbn [fst snd]. destruct okMap; [|done].
  destruct (FileHdr.Allocate freeMap1 DirectoryFileSize)
    as [[okDir dirHdr] freeMap2].
  cbn [fst snd]. destruct okDir; [|done]. cbn [negb]. run.
  unfold Storage.Open, FileHdr.FetchFrom, FileHdr.WriteBack,
    FreeMapSector, DirectorySector.
  rewrite lookup_insert_eq. rewrite lookup_insert_ne by done.
  rewrite lookup_insert_eq. reflexivity.
Qed.

Lemma bitmap_room :
  0 < SectorSize → Z.rem (Z.of_nat NumSectors) BitsInByte = 0 →
  (NumSectors ≤
   Storage.BitsPerSector *
   Z.to_nat (divRoundUp FreeMapFileSize SectorSize))%nat.
Proof.
  intros HS Hrem. unfold Storage.BitsPerSector, FreeMapFileSize.
  pose proof (Z.quot_rem' (Z.of_nat NumSectors) BitsInByte) as Hq.
  rewrite Hrem in Hq. unfold BitsInByte in *.
  set (q := Z.of_nat NumSectors ÷ 8) in *.
  assert (0 ≤ q) as Hq0 by lia.
  pose proof (divRoundUp_covers q SectorSize Hq0 HS) as Hc.
  set (n := divRoundUp q SectorSize) in *.
  assert (0 ≤ n) as Hn0.
  { apply Z.nlt_ge. intros Hn0.
    pose proof (Z.mul_pos_neg SectorSize n HS Hn0). lia. }
  apply Nat2Z.inj_le. rewrite Nat2Z.inj_mul, !Z2Nat.id by lia. lia.
Qed.

Lemma Find_new (n : nat) (nm : string) : Find (new n) nm = -1.
Proof.
  rewrite Find_of_find.
  rewrite DirectoryFacts.no_match_find; [done|].
  intros e He [Hu _]. unfold new in He. cbn [table] in He.
  apply elem_of_replicate_inv in He as ->. done.
Qed.

(** X12: with sectors and table entries that have a size, a number of
    sectors that is a multiple of 8 and at least 2, a Format that returns
    has written the two headers, then the bitmap, then the empty table, and
    leaves a disk on which: the two handles kept open are the headers in
    sectors 0 and 1; the root table is empty; the bitmap marks exactly
    sectors 0 and 1 and the data sectors of the two files, which are all
    different; every name right under the root has the layout
    safe_to_update; and no path that names something opens. *)
Theorem Format_gives_an_empty_file_system (dsk : gmap Z Block) (s : State) :
  0 < SectorSize → 0 < DirectoryEntrySize →
  (2 ≤ NumSectors)%nat → Z.rem (Z.of_nat NumSectors) BitsInByte = 0 →
  Format dsk = Returns tt s →
  (∃ mapHdr dirHdr freeMap,
     writes s =
       [HeaderWrite FreeMapSector mapHdr; HeaderWrite DirectorySector dirHdr;
        BitmapWrite (freeMapFile s) freeMap;
        DirectoryWrite (directoryFile s) (Directory.new NumDirEntries)] ∧
     freeMapFile s = mkOpenFile mapHdr 0 ∧
     directoryFile s = mkOpenFile dirHdr 0 ∧
     numBytes mapHdr = FreeMapFileSize ∧
     numBytes dirHdr = DirectoryFileSize ∧
     load_freeMap s = freeMap) ∧
  freeMapFile s = Storage.Open (disk s) FreeMapSector ∧
  directoryFile s = root_handle s ∧
  root_directory s = Directory.new NumDirEntries ∧
  (∀ x, Bitmap.Test (load_freeMap s) x = true ↔
        x = FreeMapSector ∨ x = DirectorySector ∨
        x ∈ dataSectors (hdr (freeMapFile s)) ∨
        x ∈ dataSectors (hdr (directoryFile s))) ∧
  NoDup (FreeMapSector :: DirectorySector ::
         dataSectors (hdr (freeMapFile s)) ++
         dataSectors (hdr (directoryFile s))) ∧
  (∀ path, (length (tokens path) ≤ 1)%nat →
           safe_to_update path (directoryFile s) s) ∧
  (∀ path, nameable path → FileSystem.Open path s = Returns None s).
Proof.
  intros HS HE HN Hrem. rewrite Format_eq. cbn zeta.
  set (freeMap0 := Bitmap.Mark (Bitmap.Mark (Bitmap.new NumSectors)
                                  FreeMapSector) DirectorySector).
  destruct (FileHdr.Allocate freeMap0 FreeMapFileSize)
    as [[okMap mapHdr] freeMap1] eqn:HA1.
  cbn [fst snd]. destruct okMap; [|done].
  destruct (FileHdr.Allocate freeMap1 DirectoryFileSize)
    as [[okDir dirHdr] freeMap2] eqn:HA2.
  cbn [fst snd]. destruct okDir; [|done]. cbn [negb]. intros [= <-].
  cbn [disk freeMapFile directoryFile writes hdr].
  destruct (Allocate_spec _ _ _ _ HA1)
    as (Hb1 & Hl1 & Hnd1 & Hfree1 & Hset1 & Hlen1).
  destruct (Allocate_spec _ _ _ _ HA2)
    as (Hb2 & Hl2 & Hnd2 & Hfree2 & Hset2 & Hlen2).
  assert (length freeMap0 = NumSectors) as Hlen0.
  { unfold freeMap0. rewrite !length_Mark. apply length_replicate. }
  assert (∀ y, Bitmap.Test freeMap0 y = true ↔
               y = FreeMapSector ∨ y = DirectorySector) as Hset0.
  { intros y. unfold freeMap0.
    rewrite Test_Mark.
    2:{ unfold Bitmap.in_range, DirectorySector.
        rewrite length_Mark. unfold Bitmap.new. rewrite length_replicate. lia. }
    rewrite Test_Mark.
    2:{ unfold Bitmap.in_range, FreeMapSector, Bitmap.new.
        rewrite length_replicate. lia. }
    rewrite Test_new. intuition congruence. }
  assert (∀ x, x ∈ dataSectors mapHdr →
               x ≠ FreeMapSector ∧ x ≠ DirectorySector) as Hm.
  { intros x Hx. destruct (Hfree1 x Hx) as [Hclr _].
    split; intros ->; rewrite (proj2 (Hset0 _)) in Hclr; auto; done. }
  assert (∀ x, x ∈ dataSectors dirHdr →
               x ≠ FreeMapSector ∧ x ≠ DirectorySector ∧
               x ∉ dataSectors mapHdr) as Hd.
  { intros x Hx. destruct (Hfree2 x Hx) as [Hclr _].
    split_and!; [intros ->|intros ->|intros Hin];
      rewrite (proj2 (Hset1 _)) in Hclr; try done.
    - right. apply Hset0. by left.
    - right. apply Hset0. by right.
    - by left. }
  set (dsk2 := FileHdr.WriteBack dirHdr DirectorySector
                 (FileHdr.WriteBack mapHdr FreeMapSector dsk)).
  set (s := mkState _ _ _ _).
  assert (∀ x, x ∉ dataSectors mapHdr → x ∉ dataSectors dirHdr →
               disk s !! x = dsk2 !! x) as Hoff.
  { intros x Hx1 Hx2. cbn [disk s].
    unfold Storage.Directory_WriteBack, Storage.Bitmap_WriteBack. cbn [hdr].
    by rewrite !write_chunks_other. }
  assert (Storage.Open (disk s) FreeMapSector = mkOpenFile mapHdr 0) as Ho0.
  { unfold Storage.Open, FileHdr.FetchFrom. rewrite Hoff.
    - unfold dsk2, FileHdr.WriteBack, FreeMapSector, DirectorySector.
      rewrite lookup_insert_ne by done. by rewrite lookup_insert_eq.
    - intros Hin. by destruct (Hm _ Hin).
    - intros Hin. by destruct (Hd _ Hin). }
  assert (root_handle s = mkOpenFile dirHdr 0) as Ho1.
  { unfold root_handle, Storage.Open, FileHdr.FetchFrom. rewrite Hoff.
    - unfold dsk2, FileHdr.WriteBack. by rewrite lookup_insert_eq.
    - intros Hin. by destruct (Hm _ Hin) as [_ ?].
    - intros Hin. by destruct (Hd _ Hin) as (_ & ? & _). }
  assert (∀ bytes, 0 ≤ bytes →
            bytes ≤ SectorSize *
                    Z.of_nat (Z.to_nat (divRoundUp bytes SectorSize)))
    as Hcover.
  { intros bytes Hbytes.
    pose proof (divRoundUp_covers bytes SectorSize Hbytes HS) as Hc.
    assert (SectorSize * divRoundUp bytes SectorSize ≤
            SectorSize * Z.of_nat (Z.to_nat (divRoundUp bytes SectorSize)))
      as Hmul by (apply Z.mul_le_mono_nonneg_l; lia).
    lia. }
  assert (0 ≤ DirectoryFileSize) as Hdfs.
  { unfold DirectoryFileSize. apply Z.mul_nonneg_nonneg; lia. }
  assert (0 ≤ FreeMapFileSize ∧
          Z.of_nat NumSectors = BitsInByte * FreeMapFileSize) as [Hfms Hbits8].
  { unfold FreeMapFileSize.
    pose proof (Z.quot_rem' (Z.of_nat NumSectors) BitsInByte) as Hq.
    rewrite Hrem in Hq. unfold BitsInByte in *. lia. }
  assert (holds_table (mkOpenFile dirHdr 0)) as Hholds.
  { unfold holds_table. cbn [hdr]. rewrite Hb2, Hl2.
    split_and!; [done|done|done|lia|by apply Hcover]. }
  assert (holds_bitmap (mkOpenFile mapHdr 0)) as Hholdsb.
  { unfold holds_bitmap. cbn [hdr]. rewrite Hb1, Hl1.
    split_and!; [done|done|lia|by apply Hcover]. }
  destruct (holds_table_room _ Hholds) as (_ & Hper & Hroom).
  cbn [hdr] in Hroom.
  assert (∃ rest,
            read_chunks Storage.get_entries (dataSectors dirHdr) (disk s) =
            table (Directory.new NumDirEntries) ++ rest) as (restd & Hentries).
  { cbn [disk s]. unfold Storage.Directory_WriteBack. cbn [hdr].
    apply (read_write_chunks BlockEntries Storage.get_entries); done. }
  assert (root_directory s = Directory.new NumDirEntries) as Hrd.
  { unfold root_directory. cbn [directoryFile disk s].
    apply Directory_round_trip; cbn [hdr]; done. }
  assert (∃ rest,
            read_chunks Storage.get_bits (dataSectors mapHdr) (disk s) =
            freeMap2 ++ rest) as (restb & Hbits).
  { cbn [disk s].
    rewrite (read_chunks_agree _ _ _
               (Storage.Bitmap_WriteBack freeMap2 (mkOpenFile mapHdr 0) dsk2)).
    2:{ intros x Hx. unfold Storage.Directory_WriteBack. cbn [hdr].
        apply write_chunks_other. intros Hin. by destruct (Hd _ Hin) as (_&_&?). }
    unfold Storage.Bitmap_WriteBack. cbn [hdr].
    apply (read_write_chunks BlockBits Storage.get_bits); try done.
    - unfold Storage.BitsPerSector, BitsInByte. lia.
    - rewrite Hlen2, Hlen1, Hlen0, Hl1. by apply bitmap_room. }
  assert (load_freeMap s = freeMap2) as Hfm.
  { unfold load_freeMap, Storage.Bitmap_load. cbn [freeMapFile s hdr].
    fold s. rewrite Hbits.
    apply overlay_exact. rewrite Hlen2, Hlen1, Hlen0.
    unfold Bitmap.new. by rewrite length_replicate. }
  assert (∀ x, Bitmap.Test freeMap2 x = true ↔
               x = FreeMapSector ∨ x = DirectorySector ∨
               x ∈ dataSectors mapHdr ∨ x ∈ dataSectors dirHdr) as Hmarks.
  { intros x. rewrite Hset2, Hset1, Hset0. tauto. }
  split_and!.
  - exists mapHdr, dirHdr, freeMap2. by split_and!.
  - symmetry. exact Ho0.
  - symmetry. exact Ho1.
  - exact Hrd.
  - intros x. fold s. rewrite Hfm. apply Hmarks.
  - constructor.
    { rewrite elem_of_cons, elem_of_app. intros [?|[Hin|Hin]]; [done|..].
      - by destruct (Hm _ Hin).
      - by destruct (Hd _ Hin). }
    constructor.
    { rewrite elem_of_app. intros [Hin|Hin].
      - by destruct (Hm _ Hin).
      - by destruct (Hd _ Hin) as (_ & ? & _). }
    apply NoDup_app. split_and!; [done| |done].
    intros x Hx1 Hx2. by destruct (Hd _ Hx2) as (_ & _ & ?).
  - intros path Hlen. unfold safe_to_update, Parse_reads. cbn zeta.
    assert (take (length (tokens path) - 1) (tokens path) = []) as ->.
    { destruct (tokens path) as [|c [|c' l]]; [done|done|simpl in Hlen; lia]. }
    unfold Parse_files. cbn zeta.
    assert (take (length (tokens path) - 1) (tokens path) = []) as ->.
    { destruct (tokens path) as [|c [|c' l]]; [done|done|simpl in Hlen; lia]. }
    cbn [Parse_loop_reads app freeMapFile directoryFile s hdr].
    split_and!.
    + done.
    + unfold has_table. cbn zeta. cbn [hdr]. fold s. rewrite Hentries.
      assert (take NumDirEntries (table (new NumDirEntries) ++ restd) =
              table (new NumDirEntries)) as ->.
      { apply take_app_length'. unfold new. cbn [table].
        by rewrite length_replicate. }
      split; [by (unfold tableSize, new; cbn [table]; rewrite length_replicate)|].
      apply Forall_forall. intros x Hx. cbn [disk s].
      unfold Storage.Directory_WriteBack. cbn [hdr table].
      by apply write_chunks_idem.
    + constructor.
    + done.
    + unfold has_bitmap. cbn [hdr]. fold s. rewrite Hbits, length_app.
      rewrite Hlen2, Hlen1, Hlen0. lia.
    + constructor; [|done]. split; intros Hin.
      * by destruct (Hd _ Hin) as (_ & ? & _).
      * by destruct (Hm _ Hin) as [_ ?].
    + apply Forall_forall. intros x Hx Hin. by destruct (Hd _ Hx) as (_ & _ & ?).
    + fold s. rewrite Hfm. apply Forall_forall. intros x Hx. apply Hmarks.
      rewrite elem_of_cons, elem_of_app in Hx. tauto.
  - intros path [Hb Hne]. unfold FileSystem.Open. run.
    rewrite (Parse_in_bounds path true s Hb), Parse_loop_walk.
    destruct (tokens path) as [|c l] eqn:Htok using rev_ind; [done|].
    clear IHl. rewrite length_app. cbn [length].
    replace (length l + 1 - 1)%nat with (length l) by lia.
    rewrite take_app_length.
    destruct l as [|c0 l].
    + cbn [walk_loop fmap option_fmap option_map snd app length].
      unfold folder_last. cbn [Nat.add lookup list_lookup]. run.
      rewrite Ho1. fold s.
      change (Storage.Directory_FetchFrom (new NumDirEntries)
                (mkOpenFile dirHdr 0) (disk s)) with (root_directory s).
      rewrite Hrd, Find_new. by rewrite decide_False by lia.
    + cbn [walk_loop]. rewrite Hrd, Find_new. by rewrite decide_True.
Qed.

End format_facts.
End FormatFacts.

(** * The components of a path, and the listings of a path *)

Module PathFacts.
Section path_facts.
Context `{Config}.
Import CString Directory FileSystem ParseFacts FileSystemFacts Resolution
  ResolutionFacts.

Lemma chars_rev_app (s1 s2 : string) :
  list_ascii_of_string (String.rev_app s1 s2) = reverse (list_ascii_of_string s1) ++ list_ascii_of_string s2.
Proof.
  revert s2. induction s1 as [|a s1 IH]; intros s2; [done|].
  cbn [String.rev_app list_ascii_of_string]. rewrite IH, reverse_cons.
  by rewrite <- app_assoc.
Qed.

Lemma chars_rev (t : string) : list_ascii_of_string (String.rev t) = reverse (list_ascii_of_string t).
Proof. unfold String.rev. rewrite chars_rev_app. apply app_nil_r. Qed.

Lemma chars_nil (t : string) : list_ascii_of_string t = [] → t = EmptyString.
Proof. by destruct t. Qed.

Lemma c_str_no_NUL (s : string) : NUL ∉ list_ascii_of_string (c_str s).
Proof.
  induction s as [|c s IH]; cbn [c_str]; [apply not_elem_of_nil|].
  case_decide; [apply not_elem_of_nil|].
  cbn [list_ascii_of_string]. rewrite elem_of_cons. intros [?|?]; done.
Qed.

Lemma chars_strncpy (t : string) (n : nat) :
  NUL ∉ list_ascii_of_string t → list_ascii_of_string (strncpy t n) = take n (list_ascii_of_string t).
Proof.
  revert t. induction n as [|n IH]; intros t Ht; [by destruct t|].
  destruct t as [|c t]; [done|]. cbn [list_ascii_of_string] in Ht.
  apply not_elem_of_cons in Ht as [Hc Ht].
  cbn [strncpy]. rewrite decide_False by done.
  cbn [list_ascii_of_string take]. by rewrite IH.
Qed.

(** What [strtok] cuts: runs that are not empty and hold neither the
    delimiter nor a NUL. *)
Lemma strtok_loop_runs (delim : ascii) (s : string) :
  NUL ∉ list_ascii_of_string s →
  ∀ cur,
    (∀ t, cur = Some t → list_ascii_of_string t ≠ [] ∧ (delim ∉ list_ascii_of_string t) ∧ (NUL ∉ list_ascii_of_string t)) →
    Forall (λ t, list_ascii_of_string t ≠ [] ∧ (delim ∉ list_ascii_of_string t) ∧ (NUL ∉ list_ascii_of_string t))
      (strtok_loop delim s cur).
Proof.
  assert (∀ t, list_ascii_of_string t ≠ [] ∧ (delim ∉ list_ascii_of_string t) ∧ (NUL ∉ list_ascii_of_string t) →
               list_ascii_of_string (String.rev t) ≠ [] ∧ (delim ∉ list_ascii_of_string (String.rev t)) ∧
               (NUL ∉ list_ascii_of_string (String.rev t))) as Hrev.
  { intros t (Hne & Hd & Hn). rewrite chars_rev. split_and!.
    - intros Hr. apply Hne. apply (f_equal reverse) in Hr.
      by rewrite reverse_involutive in Hr.
    - by rewrite elem_of_reverse.
    - by rewrite elem_of_reverse. }
  induction s as [|c s IH]; intros Hs cur Hcur; cbn [strtok_loop].
  - destruct cur as [t|]; [|constructor].
    constructor; [|constructor]. by apply Hrev, Hcur.
  - cbn [list_ascii_of_string] in Hs. apply not_elem_of_cons in Hs as [Hc Hs].
    case_decide as Hd.
    + destruct cur as [t|].
      * constructor; [by apply Hrev, Hcur|]. by apply IH.
      * by apply IH.
    + apply IH; [done|]. intros t [= <-]. cbn [list_ascii_of_string]. split_and!; [done| |].
      * rewrite elem_of_cons. intros [?|Hin]; [done|].
        destruct cur as [t|]; [|by apply elem_of_nil in Hin].
        by destruct (Hcur t eq_refl) as (_ & ? & _).
      * rewrite elem_of_cons. intros [?|Hin]; [done|].
        destruct cur as [t|]; [|by apply elem_of_nil in Hin].
        by destruct (Hcur t eq_refl) as (_ & _ & ?).
Qed.

Lemma strtok_loop_trailing (delim : ascii) (s : string) cur :
  strtok_loop delim (String.append s (String delim EmptyString)) cur =
  strtok_loop delim s cur.
Proof.
  revert cur. induction s as [|c s IH]; intros cur.
  - change (strtok_loop delim (String delim EmptyString) cur =
            strtok_loop delim EmptyString cur).
    cbn [strtok_loop]. rewrite decide_True by done. by destruct cur.
  - change (String.append (String c s) (String delim EmptyString))
      with (String c (String.append s (String delim EmptyString))).
    cbn [strtok_loop]. case_decide; [destruct cur|]; by rewrite IH.
Qed.

Lemma c_str_trailing (s : string) (c : ascii) :
  c_str (String.append s (String c EmptyString)) =
    String.append (c_str s) (String c EmptyString) ∨
  c_str (String.append s (String c EmptyString)) = c_str s.
Proof.
  induction s as [|a s IH].
  - change (String.append EmptyString (String c EmptyString))
      with (String c EmptyString).
    cbn [c_str]. case_decide; auto.
  - change (String.append (String a s) (String c EmptyString))
      with (String a (String.append s (String c EmptyString))).
    cbn [c_str]. case_decide; [by right|].
    destruct IH as [->| ->]; auto.
Qed.

(** X13: the components Parse cuts a path into are not empty when
    FileNameMaxLen is not 0, have at most FileNameMaxLen characters and hold
    no slash; a slash in front of a path or after it changes none of them;
    and two paths of fewer than 100 characters with the same components
    give the same result in Parse, Open, Create and Remove. *)
Theorem Parse_components (path : string) :
  ((0 < FileNameMaxLen)%nat →
   Forall (λ c, c ≠ EmptyString ∧
                (String.length c ≤ FileNameMaxLen)%nat ∧
                ("/"%char ∉ list_ascii_of_string c)) (tokens path)) ∧
  tokens (String "/" path) = tokens path ∧
  tokens (String.append path "/") = tokens path ∧
  ∀ path' s,
    (strlen path < 100)%nat → (strlen path' < 100)%nat →
    tokens path' = tokens path →
    (∀ create, Parse path' create s = Parse path create s) ∧
    FileSystem.Open path' s = FileSystem.Open path s ∧
    (∀ initialSize,
       Create path' initialSize s = Create path initialSize s) ∧
    FileSystem.Remove path' s = FileSystem.Remove path s.
Proof.
  split_and!.
  - intros HN. unfold tokens, strtok_all. apply Forall_fmap.
    eapply Forall_impl.
    { apply (strtok_loop_runs "/" (c_str path) (c_str_no_NUL path) None).
      by intros t [=]. }
    intros t (Hne & Hd & Hn). cbn beta.
    pose proof (chars_strncpy t FileNameMaxLen Hn) as Hc.
    split_and!.
    + intros Hs. rewrite Hs in Hc. cbn in Hc.
      destruct (list_ascii_of_string t) as [|a l]; [done|].
      destruct FileNameMaxLen; [lia|done].
    + rewrite <- (string_of_list_ascii_of_string (strncpy t FileNameMaxLen)).
      rewrite Hc.
      assert (∀ l, String.length (string_of_list_ascii l) = length l) as Hl.
      { induction l as [|a l IH]; [done|]. cbn. by rewrite IH. }
      rewrite Hl, length_take. lia.
    + rewrite Hc. intros Hin. apply Hd.
      apply elem_of_take in Hin as (i & Hi & _).
      by eapply list_elem_of_lookup_2.
  - unfold tokens, strtok_all. cbn [c_str].
    rewrite decide_False by done. cbn [strtok_loop].
    by rewrite decide_True.
  - unfold tokens, strtok_all.
    destruct (c_str_trailing path "/") as [->| ->]; [|done].
    by rewrite strtok_loop_trailing.
  - intros path' s Hl Hl' Htok.
    assert (∀ create, Parse path' create s = Parse path create s) as HP.
    { intros create. rewrite !Parse_eq, Htok.
      rewrite !(decide_False (P := (100 ≤ _)%nat)) by lia. done. }
    split_and!; [done|..].
    + unfold FileSystem.Open. run. by rewrite HP.
    + intros initialSize. unfold Create. run. by rewrite HP.
    + unfold FileSystem.Remove. run. by rewrite HP.
Qed.

(** X14: for a path within the bounds of Parse, ListDirectory lists the
    root table, as List does, when the path has no component; it prints No
    such directory when Parse(path, FALSE) returns no handle, and
    RecurListDirectory then prints No such directory. with a full stop; and
    when Parse(path, FALSE) returns a handle, ListDirectory lists the table
    path resolution ends on. None of them changes the state. *)
Theorem ListDirectory_follows_Parse (path : string) (s : State) :
  in_bounds path →
  (tokens path = [] → ListDirectory path s = Resolution.List s) ∧
  (Parse path false s = Returns (None, tokens path, length (tokens path)) s →
   ListDirectory path s = Returns ["No such directory"%string] s ∧
   ∀ fuel,
     RecurListDirectory fuel path s = Returns ["No such directory."%string] s) ∧
  (∀ h,
     Parse path false s =
       Returns (Some h, tokens path, length (tokens path)) s →
     ∃ d,
       Resolves (disk s) (root_directory s) (root_handle s) (tokens path)
         (Some (d, h)) ∧
       ListDirectory path s = Returns (Listing.List d) s).
Proof.
  intros Hb. pose proof Hb as [Hlen Hcount].
  rewrite (Parse_in_bounds path false s Hb), Parse_loop_walk.
  rewrite Nat.sub_0_r, firstn_all.
  assert (ListDirectory path s =
          match walk_loop (disk s) (root_directory s) (root_handle s)
                  (tokens path) with
          | Some (d, _) => Returns (Listing.List d) s
          | None => Returns ["No such directory"%string] s
          end) as HLD.
  { unfold ListDirectory. run. rewrite decide_False by lia.
    fold (root_directory s) (root_handle s).
    by destruct (walk_loop _ _ _ _) as [[d h]|]. }
  pose proof (walk_loop_Resolves (disk s) (root_directory s) (root_handle s)
                (tokens path)) as HR.
  split_and!.
  - intros Htok. rewrite HLD, Htok. done.
  - intros HP. rewrite HLD.
    destruct (walk_loop _ _ _ _) as [[d h]|] eqn:Hw; [done|]. split; [done|].
    intros fuel. unfold RecurListDirectory. run.
    rewrite (Parse_in_bounds path false s Hb), Parse_loop_walk.
    by rewrite Nat.sub_0_r, firstn_all, Hw.
  - intros h HP. rewrite HLD.
    destruct (walk_loop _ _ _ _) as [[d h']|]; [|done].
    injection HP as ->. by exists d.
Qed.

End path_facts.
End PathFacts.

(** * Failures: returned, undefined, asserted *)

Module FailureFacts.
Section failure_facts.
Context `{Config}.
Import CString Directory FileSystem ParseFacts FileSystemFacts OutcomeFacts
  Resolution ResolutionFacts CreateDirectoryFacts.







End failure_facts.
End FailureFacts.

(** * The properties above on the reference machine *)

Module ReferenceMore.
Import Reference ReferenceInputs.
Local Existing Instance reference_config.

Lemma Add_then_Find_witness :
  Directory.Add (Directory.new 2) "a" 5 true = (true, one_directory) ∧
  Directory.Find one_directory "a" = 5 ∧
  Directory.isDirectory one_directory
    (Z.to_nat (Directory.FindIndex one_directory "a")) = true.
Proof.
  assert (Directory.Add (Directory.new 2) "a" 5 true = (true, one_directory))
    as HA by (vm_compute; reflexivity).
  destruct (DirectoryMore.Add_then_Find _ _ _ _ _ HA) as (HF & _ & _ & HD & _).
  split_and!; [exact HA|exact HF|exact HD].
Defined.

Lemma Remove_then_Find_witness :
  Directory.Remove one_directory "a" =
    (true, mkDirectory [mkEntry false false 5 "a"; Directory.blank]) ∧
  Directory.distinct_names one_directory ∧
  Directory.Find (mkDirectory [mkEntry false false 5 "a"; Directory.blank]) "a"
    = -1.
Proof.
  assert (Directory.Remove one_directory "a" =
            (true, mkDirectory [mkEntry false false 5 "a"; Directory.blank]))
    as HR by (vm_compute; reflexivity).
  assert (Directory.distinct_names one_directory) as Hd.
  { apply (DirectoryMore.distinct_names_one_slot _ 0).
    apply (bool_decide_unpack _). vm_compute. exact I. }
  destruct (DirectoryMore.Remove_then_Find _ _ _ HR) as (Hgone & _).
  split_and!; [exact HR|exact Hd|exact (proj2 (Hgone Hd))].
Defined.

Lemma Add_succeeds_iff_room_witness :
  (Directory.Add (Directory.new 2) "a" 5 true).1 = true ∧
  Directory.count (Directory.Add (Directory.new 2) "a" 5 true).2 =
    S (Directory.count (Directory.new 2)) ∧
  (Directory.Add one_directory "a" 6 false).1 = false ∧
  (Directory.Add one_directory "a" 6 false).2 = one_directory.
Proof.
  destruct (DirectoryMore.Add_succeeds_iff_room (Directory.new 2) "a" 5 true)
    as (_ & Hmore & _).
  destruct (DirectoryMore.Add_succeeds_iff_room one_directory "a" 6 false)
    as (_ & _ & Hsame & _).
  assert ((Directory.Add (Directory.new 2) "a" 5 true).1 = true) as H1
    by (vm_compute; reflexivity).
  assert ((Directory.Add one_directory "a" 6 false).1 = false) as H2
    by (vm_compute; reflexivity).
  split_and!; [exact H1|exact (Hmore H1)|exact H2|exact (Hsame H2)].
Defined.

Lemma List_follows_Add_and_Remove_witness :
  Directory.Add (Directory.new 2) "a" 5 true = (true, one_directory) ∧
  ∃ l1 l2,
    Listing.List (Directory.new 2) = l1 ++ l2 ∧
    Listing.List one_directory = l1 ++ ["a [D]"%string] ++ l2.
Proof.
  assert (Directory.Add (Directory.new 2) "a" 5 true = (true, one_directory))
    as HA by (vm_compute; reflexivity).
  split; [exact HA|].
  destruct (ListingFacts.List_follows_Add_and_Remove
              (Directory.new 2) "a" 5 true) as (_ & Hadd & _).
  exact (Hadd one_directory HA).
Defined.

Lemma RecurList_lines_witness :
  Forall (λ e, inUse e = false) (table (Directory.new 2)) ∧
  Listing.RecurList 1 ∅ (Directory.new 2) 1 = Some ["  Empty Folder"%string].
Proof.
  assert (Forall (λ e, inUse e = false) (table (Directory.new 2))) as Hall.
  { apply (bool_decide_unpack _). vm_compute. exact I. }
  split; [exact Hall|].
  exact (proj1 (ListingFacts.RecurList_lines 0 ∅ (Directory.new 2) 1) Hall).
Defined.

Lemma Directory_WriteBack_then_FetchFrom_witness :
  NoDup (dataSectors (hdr one_sector_file)) ∧
  Storage.Directory_FetchFrom (Directory.new 2) one_sector_file
    (Storage.Directory_WriteBack small_table one_sector_file ∅) = small_table.
Proof.
  assert (NoDup (dataSectors (hdr one_sector_file))) as Hnd.
  { apply (bool_decide_unpack _). vm_compute. exact I. }
  split; [exact Hnd|].
  apply (StorageFacts.Directory_WriteBack_then_FetchFrom
           small_table (Directory.new 2) one_sector_file ∅).
  - reflexivity.
  - reflexivity.
  - exact Hnd.
  - vm_compute. discriminate.
  - vm_compute. discriminate.
  - reflexivity.
Defined.

Lemma Create_then_Open_witness :
  FileSystem.Parse "/a/b/g.txt" true s1 =
    Returns (Some handle_b, ["a"; "b"; "g.txt"], 3%nat) s1 ∧
  Resolution.safe_to_update "/a/b/g.txt" handle_b s1 ∧
  FileSystem.Create "/a/b/g.txt" 10 s1 = Returns true s1_created ∧
  ∃ newHdr,
    FileSystem.Open "/a/b/g.txt" s1_created =
      Returns (Some (mkOpenFile newHdr 0)) s1_created.
Proof.
  assert (FileSystem.Parse "/a/b/g.txt" true s1 =
            Returns (Some handle_b, ["a"; "b"; "g.txt"], 3%nat) s1) as HP
    by (vm_compute; reflexivity).
  assert (Resolution.safe_to_update "/a/b/g.txt" handle_b s1) as Hsafe.
  { apply (bool_decide_unpack _). vm_compute. exact I. }
  assert (FileSystem.Create "/a/b/g.txt" 10 s1 = Returns true s1_created)
    as HC by (vm_compute; reflexivity).
  split_and!; [exact HP|exact Hsafe|exact HC|].
  destruct (CompositionFacts.Create_then_Open _ _ _ _ _ _ _ HP Hsafe HC)
    as (newHdr & _ & HO & _).
  exists newHdr. exact HO.
Defined.

Lemma Remove_then_Open_witness :
  FileSystem.Parse "/a/b/f.txt" true s1 =
    Returns (Some handle_b, ["a"; "b"; "f.txt"], 3%nat) s1 ∧
  Resolution.safe_to_update "/a/b/f.txt" handle_b s1 ∧
  Directory.distinct_names (FileSystem.fetch_directory handle_b s1) ∧
  FileSystem.Remove "/a/b/f.txt" s1 = Returns true s1_removed ∧
  FileSystem.Open "/a/b/f.txt" s1_removed = Returns None s1_removed.
Proof.
  assert (FileSystem.Parse "/a/b/f.txt" true s1 =
            Returns (Some handle_b, ["a"; "b"; "f.txt"], 3%nat) s1) as HP
    by (vm_compute; reflexivity).
  assert (Resolution.safe_to_update "/a/b/f.txt" handle_b s1) as Hsafe.
  { apply (bool_decide_unpack _). vm_compute. exact I. }
  assert (Directory.distinct_names (FileSystem.fetch_directory handle_b s1))
    as Hd.
  { apply (DirectoryMore.distinct_names_one_slot _ 0).
    apply (bool_decide_unpack _). vm_compute. exact I. }
  assert (FileSystem.Remove "/a/b/f.txt" s1 = Returns true s1_removed)
    as HR by (vm_compute; reflexivity).
  split_and!; [exact HP|exact Hsafe|exact Hd|exact HR|].
  exact (proj1 (CompositionFacts.Remove_then_Open _ _ _ _ _ _ HP Hsafe Hd HR)).
Defined.

Lemma CreateDirectory_failure_writes_nothing_witness :
  (length (FileSystem.tokens "/a") ≤ 10)%nat ∧
  Directory.FindIndex (FileSystem.root_directory s1) "a" ≠ -1 ∧
  FileSystem.CreateDirectory "/a" s1 = Returns false s1.
Proof.
  assert ((length (FileSystem.tokens "/a") ≤ 10)%nat) as Hlen.
  { apply Nat.leb_le. vm_compute. reflexivity. }
  assert (Directory.FindIndex (FileSystem.root_directory s1) "a" ≠ -1) as Hf.
  { vm_compute. discriminate. }
  split_and!; [exact Hlen|exact Hf|].
  destruct (proj2 (CreateDirectoryFacts.CreateDirectory_failure_writes_nothing
                     "/a" s1) Hlen) as (_ & Hcause).
  apply (Hcause (FileSystem.root_directory s1) (FileSystem.root_handle s1)
           "a"%string).
  - reflexivity.
  - reflexivity.
  - right. left. exact Hf.
Defined.

Lemma CreateDirectory_commit_order_witness :
  FileSystem.CreateDirectory "/d" s0 = Returns true s0_with_d ∧
  length (writes s0_with_d) = (length (writes s0) + 4)%nat.
Proof.
  assert (FileSystem.CreateDirectory "/d" s0 = Returns true s0_with_d) as HC
    by (vm_compute; reflexivity).
  split; [exact HC|].
  destruct (CreateDirectoryFacts.CreateDirectory_commit_order "/d" s0 _ HC)
    as (? & ? & ? & ? & ? & ? & ? & ? & _ & _ & _ & _ & _ & _ & _ & _ & Hw & _).
  rewrite Hw, length_app. reflexivity.
Defined.

Lemma CreateDirectory_then_list_witness :
  FileSystem.Parse "/d" true s0 =
    Returns (Some (FileSystem.root_handle s0), ["d"], 1%nat) s0 ∧
  Resolution.safe_to_update "/d" (FileSystem.root_handle s0) s0 ∧
  directoryFile s0 = FileSystem.root_handle s0 ∧
  FileSystem.CreateDirectory "/d" s0 = Returns true s0_with_d ∧
  Resolution.ListDirectory "/d" s0_with_d = Returns [] s0_with_d ∧
  Resolution.RecurListDirectory 1 "/d" s0_with_d =
    Returns ["Empty Folder"%string] s0_with_d.
Proof.
  assert (FileSystem.Parse "/d" true s0 =
            Returns (Some (FileSystem.root_handle s0), ["d"], 1%nat) s0) as HP
    by (vm_compute; reflexivity).
  assert (Resolution.safe_to_update "/d" (FileSystem.root_handle s0) s0)
    as Hsafe.
  { apply (bool_decide_unpack _). vm_compute. exact I. }
  assert (directoryFile s0 = FileSystem.root_handle s0) as Hroot
    by (vm_compute; reflexivity).
  assert (FileSystem.CreateDirectory "/d" s0 = Returns true s0_with_d) as HC
    by (vm_compute; reflexivity).
  split_and!; [exact HP|exact Hsafe|exact Hroot|exact HC|..].
  - destruct (NewDirectoryFacts.CreateDirectory_then_list "/d" s0 s0_with_d
                _ _ _ HP Hsafe Hroot HC)
      as (newHdr & _ & _ & HL & _).
    exact HL.
  - destruct (NewDirectoryFacts.CreateDirectory_then_list "/d" s0 s0_with_d
                _ _ _ HP Hsafe Hroot HC)
      as (newHdr & _ & _ & _ & HRL & _).
    exact (HRL 0%nat).
Defined.

Lemma Format_gives_an_empty_file_system_witness :
  FileSystem.Format ∅ = Returns tt s0 ∧
  FileSystem.root_directory s0 = Directory.new FileSystem.NumDirEntries ∧
  FileSystem.Open "/a/b" s0 = Returns None s0.
Proof.
  assert (FileSystem.Format ∅ = Returns tt s0) as HF
    by (vm_compute; reflexivity).
  assert (FileSystem.nameable "/a/b") as Hn.
  { split; [split; [apply Nat.ltb_lt|apply Nat.leb_le]; vm_compute; reflexivity|].
    vm_compute. discriminate. }
  destruct (FormatFacts.Format_gives_an_empty_file_system ∅ s0)
    as (_ & _ & _ & Hrd & _ & _ & _ & Hopen).
  - reflexivity.
  - reflexivity.
  - apply Nat.leb_le. vm_compute. reflexivity.
  - reflexivity.
  - exact HF.
  - split_and!; [exact HF|exact Hrd|exact (Hopen "/a/b"%string Hn)].
Defined.

Lemma Parse_components_witness :
  (0 < FileNameMaxLen)%nat ∧
  Forall (λ c, c ≠ EmptyString ∧
               (String.length c ≤ FileNameMaxLen)%nat ∧
               ("/"%char ∉ list_ascii_of_string c))
    (FileSystem.tokens "/a//bcdefghijklm/") ∧
  FileSystem.Open "a/b/f.txt/" s1 = FileSystem.Open "/a/b/f.txt" s1.
Proof.
  assert ((0 < FileNameMaxLen)%nat) as HN.
  { apply Nat.ltb_lt. vm_compute. reflexivity. }
  split_and!; [exact HN| |].
  - exact (proj1 (PathFacts.Parse_components "/a//bcdefghijklm/") HN).
  - destruct (PathFacts.Parse_components "/a/b/f.txt") as (_ & _ & _ & Hsame).
    destruct (Hsame "a/b/f.txt/"%string s1) as (_ & HO & _).
    + apply Nat.ltb_lt. vm_compute. reflexivity.
    + apply Nat.ltb_lt. vm_compute. reflexivity.
    + vm_compute. reflexivity.
    + exact HO.
Defined.

Lemma ListDirectory_follows_Parse_witness :
  FileSystem.in_bounds "/a/b" ∧
  FileSystem.Parse "/a/b" false s1 =
    Returns (Some handle_b, FileSystem.tokens "/a/b",
             length (FileSystem.tokens "/a/b")) s1 ∧
  ∃ d, Resolution.ListDirectory "/a/b" s1 = Returns (Listing.List d) s1.
Proof.
  assert (FileSystem.in_bounds "/a/b") as Hb.
  { split; [apply Nat.ltb_lt|apply Nat.leb_le]; vm_compute; reflexivity. }
  assert (FileSystem.Parse "/a/b" false s1 =
            Returns (Some handle_b, FileSystem.tokens "/a/b",
                     length (FileSystem.tokens "/a/b")) s1) as HP
    by (vm_compute; reflexivity).
  split_and!; [exact Hb|exact HP|].
  destruct (PathFacts.ListDirectory_follows_Parse "/a/b" s1 Hb)
    as (_ & _ & Hsome).
  destruct (Hsome handle_b HP) as (d & _ & HL).
  exists d. exact HL.
Defined.


End ReferenceMore.
